(** * Hyperd: task-graph executor and cross-domain hypergraph index

    A shallow embedding of [src/ext/hyperd/hyperd.js] and
    [src/ext/hyperd/hgnn.js], followed by the properties of the
    specification stated and settled over it.

    Conventions of the embedding:
    - a JS [Map] is an association list in insertion order ([JSMap]);
      a JS [Set] of strings is a duplicate-free list ([JSSet]);
    - a JS number that holds a double is a primitive binary64 [float];
      counts and lengths are [nat], integer arguments are [Z];
    - a method that can throw returns a [Result]; a method that mutates
      [this] returns the new object next to its result. *)

From Stdlib Require Import List String Ascii Bool Arith ZArith Lia Relations.
From Stdlib Require Import Floats.PrimFloat Floats.SpecFloat Floats.FloatOps
  Floats.FloatAxioms.
From Stdlib Require Import Numbers.Cyclic.Int63.Uint63.
Import ListNotations.
Open Scope string_scope.
Open Scope list_scope.

Set Implicit Arguments.

(** ** JavaScript values, errors and containers *)

(** The values the task graph moves between nodes.  Domain services are
    opaque, so only the shapes the executor itself builds are needed:
    [undefined] (a missing input), [null] (a fresh node's result), strings
    (operation arguments), integers (any other payload of a service) and
    the object [{ error: message }] a failed node is given. *)
Inductive Value : Type :=
| Undefined
| Null
| Str (s : string)
| Int (z : Z)
| ErrorObject (error : string).

(** The errors thrown by the two source files, one constructor per
    [throw new Error(...)] site, and [Rejected] for whatever a domain
    operation throws.  [RecursionLimit] belongs to the model only: it is the
    answer of the fuelled recursions when fuel runs out, and the fuel they
    are given is shown sufficient below. *)
Inductive JSError : Type :=
| CycleDetected (nodeId : string)
| SystemNotRegistered (system : string)
| MethodNotFound (method : string)
| NodeNotFound (nodeId : string)
| TargetNodeNotFound (nodeId : string)
| NoEmbedding
| Rejected (message : string)
| RecursionLimit.

Definition message (e : JSError) : string :=
  match e with
  | CycleDetected n => "Cycle detected in computational graph at node: " ++ n
  | SystemNotRegistered s => "System not registered: " ++ s
  | MethodNotFound m => "Method not found: " ++ m ++ " in system"
  | NodeNotFound n => "Node not found: " ++ n
  | TargetNodeNotFound n => "Target node not found: " ++ n
  | NoEmbedding => "At least one embedding required"
  | Rejected m => m
  | RecursionLimit => "Maximum call stack size exceeded"
  end.

Inductive Result (A : Type) : Type :=
| Ok (a : A)
| Throw (e : JSError).

Arguments Ok {A} a.
Arguments Throw {A} e.

(** [Map]: lookup takes the binding of the key, [set] overwrites in place
    or appends, iteration follows insertion order. *)
Module JSMap.
Section WithValue.
Variable V : Type.

Definition t := list (string * V).

Fixpoint get (k : string) (m : t) : option V :=
match m with
| [] => None
| (k', v) :: m' => if String.eqb k k' then Some v else get k m'
end.

Definition has (k : string) (m : t) : bool :=
match get k m with Some _ => true | None => false end.

Fixpoint set (k : string) (v : V) (m : t) : t :=
match m with
| [] => [(k, v)]
| (k', v') :: m' =>
    if String.eqb k k' then (k, v) :: m' else (k', v') :: set k v m'
end.

Definition keys (m : t) : list string := map fst m.
Definition values (m : t) : list V := map snd m.
Definition entries (m : t) : list (string * V) := m.
Definition size (m : t) : nat := List.length m.
End WithValue.
Arguments get {V} k m.
Arguments has {V} k m.
Arguments set {V} k v m.
Arguments keys {V} m.
Arguments values {V} m.
Arguments entries {V} m.
Arguments size {V} m.
End JSMap.

(** [Set] of strings. *)
Module JSSet.
Definition t := list string.

Definition has (x : string) (s : t) : bool := existsb (String.eqb x) s.
Definition add (x : string) (s : t) : t := if has x s then s else s ++ [x].
Definition delete (x : string) (s : t) : t :=
  filter (fun y => negb (String.eqb x y)) s.
Definition size (s : t) : nat := List.length s.
End JSSet.

(** [String.prototype.split] on a one-character separator. *)
Fixpoint split (sep : ascii) (s : string) : list string :=
  match s with
  | EmptyString => [EmptyString]
  | String c s' =>
      if Ascii.eqb c sep then EmptyString :: split sep s'
      else match split sep s' with
           | [] => [String c EmptyString]
           | h :: t => String c h :: t
           end
  end.

(** [Array.prototype.join]. *)
Fixpoint join (sep : string) (l : list string) : string :=
  match l with
  | [] => EmptyString
  | [x] => x
  | x :: l' => x ++ sep ++ join sep l'
  end.

(** [Array.prototype.indexOf] on an array of strings. *)
Fixpoint indexOf (x : string) (l : list string) : option nat :=
  match l with
  | [] => None
  | y :: l' =>
      if String.eqb x y then Some 0
      else match indexOf x l' with Some p => Some (S p) | None => None end
  end.

(** [Array.prototype.includes] on an array of strings. *)
Definition includes (x : string) (l : list string) : bool :=
  existsb (String.eqb x) l.

(** ** hyperd.js: [ComputationalNode] *)

Inductive Status : Type := pending | running | completed | failed.

Module ComputationalNode.
Record t : Type := mk {
  id : string;
  system : string;
  operation : string;
  inputs : list string;
  outputs : list string;
  status : Status;
  result : Value
}.

Definition new (id system operation : string) (inputs : list string) : t :=
  mk id system operation inputs [] pending Null.

Definition addOutput (nodeId : string) (n : t) : t :=
  mk (id n) (system n) (operation n) (inputs n) (outputs n ++ [nodeId])
     (status n) (result n).

Definition setStatus (s : Status) (n : t) : t :=
  mk (id n) (system n) (operation n) (inputs n) (outputs n) s (result n).

Definition setResult (r : Value) (n : t) : t :=
  mk (id n) (system n) (operation n) (inputs n) (outputs n) completed r.
End ComputationalNode.

(** ** hyperd.js: [ComputationalGraph] *)

(** A registered system instance, seen through the one thing the executor
    does with it: look a property up by name and, when it is a function, call
    it.  [None] stands for a property that is not a function; a call either
    returns a value or throws (rejects) with a message. *)
Definition System : Type := string -> option (list Value -> Value + string).

(** One call of a domain operation: the node, the method and the arguments
    it was applied to.  The list of calls made by [execute] is ghost state of
    the model: it records the dispatches, which the source performs and does
    not store. *)
Record Dispatch : Type := mkDispatch {
  d_node : string;
  d_method : string;
  d_args : list Value
}.

Module ComputationalGraph.
Module Node := ComputationalNode.

Record t : Type := mk {
  nodes : JSMap.t Node.t;
  executionOrder : list string;
  systems : JSMap.t System
}.

Definition new : t := mk [] [] [].

Definition registerSystem (name : string) (instance : System) (g : t) : t :=
  mk (nodes g) (executionOrder g) (JSMap.set name instance (systems g)).

(** The loop of [addNode] over [inputs]: an input that is a node of the
    graph learns its new output, an input that is not is passed over. *)
Fixpoint connectOutputs (id : string) (inputs : list string)
    (ns : JSMap.t Node.t) : JSMap.t Node.t :=
  match inputs with
  | [] => ns
  | inputId :: rest =>
      match JSMap.get inputId ns with
      | Some inputNode =>
          connectOutputs id rest
            (JSMap.set inputId (Node.addOutput id inputNode) ns)
      | None => connectOutputs id rest ns
      end
  end.

Definition addNode (id system operation : string) (inputs : list string)
    (g : t) : t * Node.t :=
  let node := Node.new id system operation inputs in
  let ns := connectOutputs id inputs (JSMap.set id node (nodes g)) in
  (mk ns (executionOrder g) (systems g),
   match JSMap.get id ns with Some stored => stored | None => node end).

Definition getNode (id : string) (g : t) : option Node.t :=
  JSMap.get id (nodes g).

(** The three locals of [buildExecutionOrder] that [visit] closes over. *)
Record VisitState : Type := mkVisit {
  tempMark : JSSet.t;
  visited : JSSet.t;
  order : list string
}.

(** A [for ... of] loop whose body calls [step] and may throw; [None] is
    a recursion that ran out of fuel. *)
Fixpoint forEach (step : string -> VisitState -> option (Result VisitState))
    (ids : list string) (st : VisitState) : option (Result VisitState) :=
  match ids with
  | [] => Some (Ok st)
  | x :: rest =>
      match step x st with
      | Some (Ok st') => forEach step rest st'
      | other => other
      end
  end.

(** The closure [visit].  The recursion is on [fuel], a bound on the
    depth of the JS call stack. *)
Fixpoint visit (ns : JSMap.t Node.t) (fuel : nat) (nodeId : string)
    (st : VisitState) : option (Result VisitState) :=
  match fuel with
  | O => None
  | S fuel' =>
      if JSSet.has nodeId (tempMark st) then Some (Throw (CycleDetected nodeId))
      else if negb (JSSet.has nodeId (visited st)) then
        let st1 := mkVisit (JSSet.add nodeId (tempMark st)) (visited st) (order st) in
        let inner :=
          match JSMap.get nodeId ns with
          | Some node => forEach (visit ns fuel') (Node.inputs node) st1
          | None => Some (Ok st1)
          end in
        match inner with
        | Some (Ok st2) =>
            Some (Ok (mkVisit (JSSet.delete nodeId (tempMark st2))
                              (JSSet.add nodeId (visited st2))
                              (order st2 ++ [nodeId])))
        | other => other
        end
      else Some (Ok st)
  end.

(** The body of the loop over [this.#nodes.keys()]. *)
Definition visitKey (ns : JSMap.t Node.t) (fuel : nat) (nodeId : string)
    (st : VisitState) : option (Result VisitState) :=
  if negb (JSSet.has nodeId (visited st)) then visit ns fuel nodeId st
  else Some (Ok st).

Definition visitAll (ns : JSMap.t Node.t) (fuel : nat)
  : option (Result VisitState) :=
  forEach (visitKey ns fuel) (JSMap.keys ns) (mkVisit [] [] []).

(** [visit] nests at most one call per node of the graph, plus one for an
    id that is on the stack or is no node. *)
Definition stackDepth (ns : JSMap.t Node.t) : nat := S (JSMap.size ns).

Definition buildExecutionOrder (g : t) : t * Result (list string) :=
  match visitAll (nodes g) (stackDepth (nodes g)) with
  | Some (Ok st) => (mk (nodes g) (order st) (systems g), Ok (order st))
  | Some (Throw e) => (g, Throw e)
  | None => (g, Throw RecursionLimit)
  end.

(** [#executeOperation]: the dispatch proper.  The result carries the
    call that was made, if one was made. *)
Definition executeOperation (nodeId : string) (system : System)
    (operation : string) (inputs : list Value)
  : list Dispatch * Result Value :=
  let parts := split ":"%char operation in
  let method := hd EmptyString parts in
  let args := map Str (tl parts) in
  match system method with
  | Some f =>
      ([mkDispatch nodeId method (args ++ inputs)],
       match f (args ++ inputs) with
       | inl v => Ok v
       | inr msg => Throw (Rejected msg)
       end)
  | None => ([], Throw (MethodNotFound method))
  end.

Definition resultOf (results : JSMap.t Value) (inputId : string) : Value :=
  match JSMap.get inputId results with Some v => v | None => Undefined end.

(** The body of the [try] block for one node. *)
Definition runNode (nodeId : string) (g : t) (node : Node.t)
    (results : JSMap.t Value) : list Dispatch * Result Value :=
  let inputResults := map (resultOf results) (Node.inputs node) in
  match JSMap.get (Node.system node) (systems g) with
  | None => ([], Throw (SystemNotRegistered (Node.system node)))
  | Some system =>
      executeOperation nodeId system (Node.operation node) inputResults
  end.

Definition updateNode (nodeId : string) (node : Node.t) (g : t) : t :=
  mk (JSMap.set nodeId node (nodes g)) (executionOrder g) (systems g).

(** What [execute] leaves behind: the graph, the calls it made, and
    either the result map it returns or the error it rethrows. *)
Record Execution : Type := mkExecution {
  graph : t;
  dispatched : list Dispatch;
  outcome : Result (JSMap.t Value)
}.

(** The loop of [execute] over [this.#executionOrder]. *)
Fixpoint executeLoop (ids : list string) (g : t) (results : JSMap.t Value)
    (trace : list Dispatch) : Execution :=
  match ids with
  | [] => mkExecution g trace (Ok results)
  | nodeId :: rest =>
      match JSMap.get nodeId (nodes g) with
      | None => executeLoop rest g results trace
      | Some node0 =>
          let node1 := Node.setStatus running node0 in
          let g1 := updateNode nodeId node1 g in
          match runNode nodeId g1 node1 results with
          | (calls, Ok result) =>
              let g2 := updateNode nodeId (Node.setResult result node1) g1 in
              executeLoop rest g2 (JSMap.set nodeId result results)
                (trace ++ calls)
          | (calls, Throw error) =>
              let node2 := Node.setStatus failed node1 in
              let node3 :=
                Node.setResult (ErrorObject (message error)) node2 in
              mkExecution (updateNode nodeId node3 g1) (trace ++ calls)
                (Throw error)
          end
      end
  end.

Definition execute (g : t) : Execution :=
  match executionOrder g with
  | [] =>
      match buildExecutionOrder g with
      | (g', Ok _) => executeLoop (executionOrder g') g' [] []
      | (g', Throw e) => mkExecution g' [] (Throw e)
      end
  | _ :: _ => executeLoop (executionOrder g) g [] []
  end.

(** The graphs a caller can build before anything is ordered or run. *)
Inductive built : t -> Prop :=
| built_new : built new
| built_registerSystem (name : string) (instance : System) (g : t) :
    built g -> built (registerSystem name instance g)
| built_addNode (id system operation : string) (inputs : list string) (g : t) :
    built g -> built (fst (addNode id system operation inputs g)).

(** An input edge of the graph: [n] is a node and [i] one of its inputs. *)
Definition inputEdge (g : t) (n i : string) : Prop :=
  exists node, getNode n g = Some node /\ In i (Node.inputs node).

(** [n] is reachable from itself through input edges. *)
Definition onCycle (g : t) (n : string) : Prop :=
  clos_trans string (inputEdge g) n n.
End ComputationalGraph.

(** ** JavaScript numbers *)

(** A count or a length read as a number.  Exact below 2^53. *)
Definition of_nat (n : nat) : float :=
  PrimFloat.of_uint63 (Uint63.of_Z (Z.of_nat n)).

(** [Math.fround], the rounding of a store into a [Float32Array]: round to
    binary32, nearest-even, and read the result back as a double. *)
Definition Math_fround (x : float) : float :=
  match Prim2SF x with
  | S754_finite s m e => SF2Prim (binary_round 24 128 s m e)
  | _ => x
  end.

(** [Math.max] of two numbers, then of a spread array: [NaN] is contagious,
    [-0] is below [+0], and the maximum of nothing is [-Infinity]. *)
Definition Math_max2 (a b : float) : float :=
  if is_nan a || is_nan b then nan
  else if (a <? b)%float then b
  else if (b <? a)%float then a
  else if get_sign a then b else a.

Definition Math_max (xs : list float) : float :=
  fold_left Math_max2 xs neg_infinity.

(** Reading [a[i]] from an array of numbers, in arithmetic: an index past
    the end reads [undefined], which arithmetic turns into [NaN]. *)
Definition item (a : list float) (i : nat) : float := nth i a nan.

(** [Math.random]: the numbers it will return, by call number.  A consumer
    takes the stream and the number of the next call, and returns the number
    of the call after its last. *)
Definition Random : Type := nat -> float.

(** ** hgnn.js: [HyperEdge] *)

Module HyperEdge.
Record t : Type := mk {
  id : string;
  nodes : list string;
  type : string;
  weight : float;
  metadata : list (string * string)
}.
End HyperEdge.

(** ** hgnn.js: [HyperGraphEmbedding] *)

(** One record for the two shapes the source passes as an embedding: the
    plain object [{ vector, dimension, system }] kept in a node ([system] is
    [Some], no contributors) and the class instance ([system] reads
    [undefined], the vector is a [Float32Array]). *)
Module HyperGraphEmbedding.
Record t : Type := mk {
  vector : list float;
  dimension : nat;
  system : option string;
  contributors : JSSet.t
}.

(** [hyperEmb.#vector[j] += emb.vector[j] * weight] for [j < dim]. *)
Definition addScaled (dim : nat) (acc v : list float) (weight : float)
  : list float :=
  map (fun j => Math_fround (item acc j + item v j * weight)%float) (seq 0 dim).

(** The loop over [embeddings], [i] being the index of the head of [embs]. *)
Fixpoint accumulate (dim : nat) (embs : list t) (weights : list float)
    (i : nat) (acc : list float) (contrib : JSSet.t) : list float * JSSet.t :=
  match embs with
  | [] => (acc, contrib)
  | emb :: rest =>
      let acc' := addScaled dim acc (vector emb) (item weights i) in
      let contrib' :=
        match system emb with
        | Some s => if String.eqb s "" then contrib else JSSet.add s contrib
        | None => contrib
        end in
      accumulate dim rest weights (S i) acc' contrib'
  end.

Definition normalize (v : list float) : list float :=
  let norm := PrimFloat.sqrt (fold_left (fun n x => n + x * x)%float v 0%float) in
  if (0 <? norm)%float then map (fun x => Math_fround (x / norm)%float) v else v.

Definition fromMultipleEmbeddings (embeddings : list t)
    (weights : option (list float)) : Result t :=
  match embeddings with
  | [] => Throw NoEmbedding
  | first :: _ =>
      let dim := dimension first in
      let n := List.length embeddings in
      let weights :=
        match weights with
        | Some w => w
        | None => repeat (1 / of_nat n)%float n
        end in
      let '(v, contrib) :=
        accumulate dim embeddings weights 0 (repeat 0%float dim) [] in
      Ok (mk (normalize v) dim None contrib)
  end.

Definition cosineSimilarity (this other : t) : float :=
  let idx := seq 0 (dimension this) in
  let dot := fold_left (fun s i => s + item (vector this) i * item (vector other) i)%float idx 0%float in
  let normA := fold_left (fun s i => s + item (vector this) i * item (vector this) i)%float idx 0%float in
  let normB := fold_left (fun s i => s + item (vector other) i * item (vector other) i)%float idx 0%float in
  (dot / (PrimFloat.sqrt normA * PrimFloat.sqrt normB))%float.
End HyperGraphEmbedding.

(** ** hgnn.js: [HyperGraphAttention] *)

Module HyperGraphAttention.
Definition Matrix : Type := list (list float).

Record t : Type := mk {
  attentionWeights : list Matrix;
  numHeads : nat;
  dimension : nat
}.

(** [Array(n).fill(0).map(() => (Math.random() - 0.5) * 0.1)]. *)
#[warnings="-inexact-float"]
Fixpoint randomRow (random : Random) (next n : nat) : list float * nat :=
  match n with
  | O => ([], next)
  | S n' =>
      let x := ((random next - 0.5) * 0.1)%float in
      let '(row, next') := randomRow random (S next) n' in
      (x :: row, next')
  end.

Fixpoint randomMatrix (random : Random) (next rows cols : nat) : Matrix * nat :=
  match rows with
  | O => ([], next)
  | S rows' =>
      let '(row, next1) := randomRow random next cols in
      let '(W, next2) := randomMatrix random next1 rows' cols in
      (row :: W, next2)
  end.

(** [#initializeWeights]: one square matrix per head. *)
Fixpoint initializeWeights (random : Random) (next heads dimension : nat)
  : list Matrix * nat :=
  match heads with
  | O => ([], next)
  | S heads' =>
      let '(W, next1) := randomMatrix random next dimension dimension in
      let '(Ws, next2) := initializeWeights random next1 heads' dimension in
      (W :: Ws, next2)
  end.

(** The constructor.  Its arguments are the dimension and the number of
    heads; the matrices come from [Math.random]. *)
Definition new (dimension numHeads : nat) (random : Random) (next : nat)
  : t * nat :=
  let '(Ws, next') := initializeWeights random next numHeads dimension in
  (mk Ws numHeads dimension, next').

(** [#transform]: [result[i] += W[i][j] * vector[j]] for [i, j < dimension].
    The matrices of a constructed instance are square of that size. *)
Definition transform (dimension : nat) (vector : list float) (W : Matrix)
  : list float :=
  map (fun i =>
         fold_left (fun r j => r + item (nth i W []) j * item vector j)%float
           (seq 0 dimension) 0%float)
      (seq 0 dimension).

Definition dotProduct (a b : list float) : float :=
  fold_left (fun sum i => sum + item a i * item b i)%float
    (seq 0 (List.length a)) 0%float.

Section WithExp.
(** [Math.exp], which the language leaves to the implementation. *)
Variable Math_exp : float -> float.

Definition softmax (scores : list float) : list float :=
  let maxScore := Math_max scores in
  let expScores := map (fun s => Math_exp (s - maxScore)%float) scores in
  let sum := fold_left (fun a b => a + b)%float expScores 0%float in
  map (fun s => s / sum)%float expScores.

(** The scores of one head, after [softmax]. *)
Definition headScores (a : t) (queryEmb : HyperGraphEmbedding.t)
    (keyEmbs : list HyperGraphEmbedding.t) (head : nat) : list float :=
  let W := nth head (attentionWeights a) [] in
  let q := transform (dimension a) (HyperGraphEmbedding.vector queryEmb) W in
  softmax
    (map (fun keyEmb =>
            let k := transform (dimension a) (HyperGraphEmbedding.vector keyEmb) W in
            (dotProduct q k / PrimFloat.sqrt (of_nat (dimension a)))%float)
         keyEmbs).

Definition computeAttention (a : t) (queryEmb : HyperGraphEmbedding.t)
    (keyEmbs : list HyperGraphEmbedding.t) : list float :=
  let allScores := map (headScores a queryEmb keyEmbs) (seq 0 (numHeads a)) in
  map (fun i =>
         (fold_left (fun s scores => s + item scores i)%float allScores 0%float
          / of_nat (numHeads a))%float)
      (seq 0 (List.length keyEmbs)).
End WithExp.
End HyperGraphAttention.

(** ** hgnn.js: [HyperGraphNeuralNetwork] *)

(** An entry of the list [findCrossDomainPaths] returns. *)
Module FoundPath.
Record t : Type := mk {
  path : list string;
  length : Z;
  systems : list string
}.
End FoundPath.

Module HyperGraphNeuralNetwork.
Module Embedding := HyperGraphEmbedding.
Module Attention := HyperGraphAttention.

Record Node : Type := mkNode {
  system : string;
  type : string;
  embedding : Embedding.t
}.

Record t : Type := mk {
  nodes : JSMap.t Node;
  hyperEdges : JSMap.t HyperEdge.t;
  attention : Attention.t;
  dimension : nat
}.

Definition new (dimension : nat) (random : Random) (next : nat) : t * nat :=
  let '(att, next') := Attention.new dimension 4 random next in
  (mk [] [] att dimension, next').

Definition addNode (nodeId system type : string) (embedding : Embedding.t)
    (g : t) : t :=
  let stored :=
    Embedding.mk (Embedding.vector embedding) (Embedding.dimension embedding)
      (Some system) (Embedding.contributors embedding) in
  mk (JSMap.set nodeId (mkNode system type stored) (nodes g))
     (hyperEdges g) (attention g) (dimension g).

(** The validation loop of [addHyperEdge]: the first id that is no node. *)
Fixpoint firstMissing (ns : JSMap.t Node) (nodeIds : list string)
  : option string :=
  match nodeIds with
  | [] => None
  | nodeId :: rest =>
      if negb (JSMap.has nodeId ns) then Some nodeId else firstMissing ns rest
  end.

Definition addHyperEdge (edgeId : string) (nodeIds : list string)
    (type : string) (weight : float) (metadata : list (string * string))
    (g : t) : t * Result HyperEdge.t :=
  match firstMissing (nodes g) nodeIds with
  | Some nodeId => (g, Throw (NodeNotFound nodeId))
  | None =>
      let hyperEdge := HyperEdge.mk edgeId nodeIds type weight metadata in
      (mk (nodes g) (JSMap.set edgeId hyperEdge (hyperEdges g))
          (attention g) (dimension g),
       Ok hyperEdge)
  end.

Definition getNode (nodeId : string) (g : t) : option Node :=
  JSMap.get nodeId (nodes g).

Definition getHyperEdge (edgeId : string) (g : t) : option HyperEdge.t :=
  JSMap.get edgeId (hyperEdges g).

(** *** [propagate] *)

Record Propagation : Type := mkPropagation {
  nodeId : string;
  p_embedding : Embedding.t;
  hopsCompleted : Z;
  nodesVisited : nat
}.

(** The two nested loops that collect neighbours: every id of every
    relevant edge, in order, joins [visited] when it is new, and gives its
    embedding when it is a node. *)
Fixpoint collect (ns : JSMap.t Node) (ids : list string) (visited : JSSet.t)
    (found : list Embedding.t) : JSSet.t * list Embedding.t :=
  match ids with
  | [] => (visited, found)
  | nodeId :: rest =>
      if negb (JSSet.has nodeId visited) then
        let visited' := JSSet.add nodeId visited in
        match JSMap.get nodeId ns with
        | Some node => collect ns rest visited' (found ++ [embedding node])
        | None => collect ns rest visited' found
        end
      else collect ns rest visited found
  end.

Definition relevantEdges (g : t) (visited : JSSet.t) : list HyperEdge.t :=
  filter (fun edge => existsb (fun nodeId => JSSet.has nodeId visited)
                        (HyperEdge.nodes edge))
         (JSMap.values (hyperEdges g)).

Section WithExp.
Variable Math_exp : float -> float.

(** The [for (hop ...)] loop, on the number of rounds left. *)
Fixpoint rounds (g : t) (left : nat) (currentEmbedding : Embedding.t)
    (visited : JSSet.t) : Result (Embedding.t * JSSet.t) :=
  match left with
  | O => Ok (currentEmbedding, visited)
  | S left' =>
      match relevantEdges g visited with
      | [] => Ok (currentEmbedding, visited)
      | edges =>
          let '(visited', neighborEmbeddings) :=
            collect (nodes g) (flat_map HyperEdge.nodes edges) visited [] in
          match neighborEmbeddings with
          | [] => rounds g left' currentEmbedding visited'
          | _ =>
              let attentionScores :=
                Attention.computeAttention Math_exp (attention g)
                  currentEmbedding neighborEmbeddings in
              match Embedding.fromMultipleEmbeddings
                      (currentEmbedding :: neighborEmbeddings)
                      (Some (0.5%float ::
                             map (fun s => 0.5 * s)%float attentionScores))
              with
              | Ok updatedEmb => rounds g left' updatedEmb visited'
              | Throw e => Throw e
              end
          end
      end
  end.

Definition propagate (targetNodeId : string) (hops : Z) (g : t)
  : Result Propagation :=
  match JSMap.get targetNodeId (nodes g) with
  | None => Throw (TargetNodeNotFound targetNodeId)
  | Some target =>
      match rounds g (Z.to_nat hops) (embedding target) [targetNodeId] with
      | Ok (currentEmbedding, visited) =>
          Ok (mkPropagation targetNodeId currentEmbedding hops
                (JSSet.size visited))
      | Throw e => Throw e
      end
  end.
End WithExp.

(** *** [findCrossDomainPaths] *)

(** The loop over [edge.nodes] for one edge that holds the current node. *)
Fixpoint extendAlong (path : list string) (currentNode : string)
    (neighbors : list string) (queue : list (list string)) (visited : JSSet.t)
  : list (list string) * JSSet.t :=
  match neighbors with
  | [] => (queue, visited)
  | neighborId :: rest =>
      if negb (String.eqb neighborId currentNode) && negb (includes neighborId path)
      then
        let newPath := path ++ [neighborId] in
        let pathKey := join "-" newPath in
        if negb (JSSet.has pathKey visited)
        then extendAlong path currentNode rest (queue ++ [newPath])
               (JSSet.add pathKey visited)
        else extendAlong path currentNode rest queue visited
      else extendAlong path currentNode rest queue visited
  end.

(** The loop over [this.#hyperEdges.entries()]. *)
Fixpoint extend (path : list string) (currentNode : string)
    (edges : list (string * HyperEdge.t)) (queue : list (list string))
    (visited : JSSet.t) : list (list string) * JSSet.t :=
  match edges with
  | [] => (queue, visited)
  | (_, edge) :: rest =>
      if includes currentNode (HyperEdge.nodes edge) then
        let '(queue', visited') :=
          extendAlong path currentNode (HyperEdge.nodes edge) queue visited in
        extend path currentNode rest queue' visited'
      else extend path currentNode rest queue visited
  end.

(** The [while (queue.length > 0)] loop; [fuel] bounds its turns.  A path
    in the queue is never empty, so [last] never falls on its default. *)
Fixpoint search (fuel : nat) (edges : list (string * HyperEdge.t))
    (targetNodeId : string) (maxHops : Z) (queue : list (list string))
    (visited : JSSet.t) (paths : list (list string))
  : option (list (list string)) :=
  match fuel with
  | O => None
  | S fuel' =>
      match queue with
      | [] => Some paths
      | path :: queue' =>
          let currentNode := last path "" in
          if String.eqb currentNode targetNodeId then
            search fuel' edges targetNodeId maxHops queue' visited (paths ++ [path])
          else if (maxHops <=? Z.of_nat (List.length path))%Z then
            search fuel' edges targetNodeId maxHops queue' visited paths
          else
            let '(queue'', visited') :=
              extend path currentNode edges queue' visited in
            search fuel' edges targetNodeId maxHops queue'' visited' paths
      end
  end.

(** The number of node slots of all edges: a turn of the loop enqueues at
    most that many paths. *)
Definition slots (edges : list (string * HyperEdge.t)) : nat :=
  list_sum (map (fun e => List.length (HyperEdge.nodes (snd e))) edges).

(** A bound on the turns of the loop: a path of [k] ids stands for at most
    [(slots + 1) ^ (maxHops - k)] turns. *)
Definition turns (edges : list (string * HyperEdge.t)) (maxHops : Z) : nat :=
  S (S (slots edges) ^ (Z.to_nat maxHops - 1)).

Definition describe (g : t) (path : list string) : FoundPath.t :=
  FoundPath.mk path (Z.of_nat (List.length path) - 1)
    (flat_map (fun nodeId =>
                 match JSMap.get nodeId (nodes g) with
                 | Some node => if String.eqb (system node) "" then [] else [system node]
                 | None => []
                 end) path).

Definition findCrossDomainPaths (sourceNodeId targetNodeId : string)
    (maxHops : Z) (g : t) : list FoundPath.t :=
  let edges := JSMap.entries (hyperEdges g) in
  match search (turns edges maxHops) edges targetNodeId maxHops
          [[sourceNodeId]] [] [] with
  | Some paths => map (describe g) paths
  | None => []
  end.

(** *** [getNetworkInsights] and [exportGraph] *)

Record Insights : Type := mkInsights {
  totalNodes : nat;
  totalHyperEdges : nat;
  systemDistribution : JSMap.t nat;
  edgeTypeDistribution : JSMap.t nat;
  avgNodesPerEdge : float
}.

(** [counts[key] = (counts[key] || 0) + 1]. *)
Definition increment (key : string) (counts : JSMap.t nat) : JSMap.t nat :=
  JSMap.set key (S (match JSMap.get key counts with Some c => c | None => 0 end))
    counts.

(** The sum of the [reduce] is a sum of array lengths: integers, added
    exactly; the division is the division of doubles. *)
Definition getNetworkInsights (g : t) : Insights :=
  let edges := JSMap.values (hyperEdges g) in
  mkInsights
    (JSMap.size (nodes g))
    (JSMap.size (hyperEdges g))
    (fold_left (fun counts node => increment (system node) counts)
       (JSMap.values (nodes g)) [])
    (fold_left (fun counts edge => increment (HyperEdge.type edge) counts)
       edges [])
    (PrimFloat.div
       (of_nat (fold_left (fun sum edge => sum + List.length (HyperEdge.nodes edge))
                  edges 0))
       (of_nat (JSMap.size (hyperEdges g)))).

Record ExportedNode : Type := mkExportedNode {
  e_id : string;
  e_system : string;
  e_type : string
}.

Definition exportNodes (g : t) : list ExportedNode :=
  map (fun entry => mkExportedNode (fst entry) (system (snd entry)) (type (snd entry)))
      (JSMap.entries (nodes g)).
End HyperGraphNeuralNetwork.

(** ** hyperd.js: [Hyperd.crossDomainQuery] *)

(** The query proper, on the index [#hgnn] as the lazy initialisation of
    [Hyperd] has left it. *)
Module Hyperd.
Module HGNN := HyperGraphNeuralNetwork.

Record QueryResult : Type := mkQueryResult {
  sourceSystem : string;
  sourceEntity : string;
  targetSystem : string;
  pathsFound : nat;
  paths : list FoundPath.t
}.

Definition crossDomainQuery (sourceSystem sourceEntity targetSystem : string)
    (maxHops : Z) (hgnn : HGNN.t) : QueryResult :=
  let sourceNodeId := (sourceSystem ++ ":" ++ sourceEntity)%string in
  let targetNodes :=
    map HGNN.e_id
      (filter (fun node => String.eqb (HGNN.e_system node) targetSystem)
         (HGNN.exportNodes hgnn)) in
  let paths :=
    flat_map (fun targetNodeId =>
                HGNN.findCrossDomainPaths sourceNodeId targetNodeId maxHops hgnn)
      targetNodes in
  mkQueryResult sourceSystem sourceEntity targetSystem
    (List.length paths) (firstn 10 paths).
End Hyperd.

(** ** hyperd.js: [ComputationalGraph.getExecutionPlan] and [exportGraph] *)

Module ExecutionPlan.
Import ComputationalGraph.

(** The object built for a node by [getExecutionPlan] and [exportGraph]. *)
Record Entry : Type := mkEntry {
  id : string;
  system : string;
  operation : string;
  inputs : list string;
  outputs : list string;
  status : Status
}.

Definition describe (node : Node.t) : Entry :=
  mkEntry (Node.id node) (Node.system node) (Node.operation node)
    (Node.inputs node) (Node.outputs node) (Node.status node).

(** How a call of [getExecutionPlan] ends: with the plan, with an error of
    [buildExecutionOrder], or with the [TypeError] of reading [node.id] when
    [node] is [undefined]. *)
Inductive Outcome : Type :=
| Returned (plan : list Entry)
| Raised (e : JSError)
| TypeError.

(** [this.#executionOrder.map(nodeId => ...)]: the callback reads the
    fields of the node stored under [nodeId]; [None] is the [TypeError] of
    the first id that is no node. *)
Fixpoint entries (ns : JSMap.t Node.t) (order : list string)
  : option (list Entry) :=
  match order with
  | [] => Some []
  | nodeId :: rest =>
      match JSMap.get nodeId ns with
      | None => None
      | Some node =>
          match entries ns rest with
          | Some plan => Some (describe node :: plan)
          | None => None
          end
      end
  end.

Definition planOf (g : t) : t * Outcome :=
  match entries (nodes g) (executionOrder g) with
  | Some plan => (g, Returned plan)
  | None => (g, TypeError)
  end.

Definition getExecutionPlan (g : t) : t * Outcome :=
  match executionOrder g with
  | [] =>
      match buildExecutionOrder g with
      | (g', Ok _) => planOf g'
      | (g', Throw e) => (g', Raised e)
      end
  | _ :: _ => planOf g
  end.

Record Exported : Type := mkExported {
  e_nodes : list Entry;
  e_executionOrder : list string
}.

Definition exportGraph (g : t) : Exported :=
  mkExported (map describe (JSMap.values (nodes g))) (executionOrder g).
End ExecutionPlan.

(** ** hyperd.js: [Hyperd.createCrossDomainEdges] *)

(** The loop over [edgeConfigs], on the index of an initialised [Hyperd]:
    each configured hyperedge is added, and a failure is caught and written
    to the console. *)
Module CrossDomainEdges.
Module HGNN := HyperGraphNeuralNetwork.

Record EdgeConfig : Type := mkEdgeConfig {
  id : string;
  nodes : list string;
  type : string;
  weight : float;
  metadata : list (string * string)
}.

#[warnings="-inexact-float"]
Definition edgeConfigs : list EdgeConfig :=
  [ mkEdgeConfig "supply_to_customer_edge_1" ["scm:s1"; "crm:c1"; "mrp:m1"]
      "supply_chain_integration" 0.9
      [("relationship", "supplier_to_enterprise_customer_material")];
    mkEdgeConfig "employee_learning_edge_1" ["crm:c1"; "lms:l1"]
      "customer_training" 0.8
      [("relationship", "enterprise_customer_employee_learning")];
    mkEdgeConfig "material_demand_edge_1" ["mrp:m6"; "crm:c3"; "scm:d1"]
      "demand_fulfillment" 0.95
      [("relationship", "finished_good_to_customer_via_distributor")] ].

(** The two arguments of one [console.error]. *)
Record ConsoleError : Type := mkConsoleError {
  text : string;
  detail : string
}.

Fixpoint createEdges (configs : list EdgeConfig) (hgnn : HGNN.t)
    (console : list ConsoleError) : HGNN.t * list ConsoleError :=
  match configs with
  | [] => (hgnn, console)
  | config :: rest =>
      match HGNN.addHyperEdge (id config) (nodes config) (type config)
              (weight config) (metadata config) hgnn with
      | (hgnn', Ok _) => createEdges rest hgnn' console
      | (hgnn', Throw error) =>
          createEdges rest hgnn'
            (console ++
             [mkConsoleError ("Failed to create hyper-edge " ++ id config ++ ":")%string
                (message error)])
      end
  end.

Definition createCrossDomainEdges (hgnn : HGNN.t) : HGNN.t * list ConsoleError :=
  createEdges edgeConfigs hgnn [].
End CrossDomainEdges.

(** ** hyperd.js: [Hyperd.executeWorkflow] *)

(** [systems] is what [Object.entries(this.#systems)] yields, [now] what
    [new Date().toISOString()] returns after the run, and [params] holds the
    parameters that were given, as strings: one that was not given reads
    [undefined], which the template literal writes out. *)
Module Workflows.
Module CG := ComputationalGraph.

Inductive Report : Type :=
| FullEnterpriseAnalysis (scm crm mrp lms : Value) (timestamp : string)
| SupplyDemandOptimization (inventory customer : Value)
| CustomerMaterialLearning (customer material learner : Value).

Inductive Failure : Type :=
| UnknownWorkflow (workflowName : string)
| Failed (error : JSError).

Record Run : Type := mkRun {
  calls : list Dispatch;
  outcome : Report + Failure
}.

Definition param (name : string) (params : JSMap.t string) : string :=
  match JSMap.get name params with Some v => v | None => "undefined" end.

Definition register (systems : list (string * System)) : CG.t :=
  fold_left (fun graph entry => CG.registerSystem (fst entry) (snd entry) graph)
    systems CG.new.

(** [await graph.execute()] and the object built from its map. *)
Definition report (graph : CG.t) (build : JSMap.t Value -> Report) : Run :=
  let run := CG.execute graph in
  mkRun (CG.dispatched run)
    match CG.outcome run with
    | Ok results => inl (build results)
    | Throw error => inr (Failed error)
    end.

Definition executeFullEnterpriseAnalysis (graph : CG.t) (now : string) : Run :=
  let graph := fst (CG.addNode "n1" "scm" "getERPSCMAnalysis" [] graph) in
  let graph := fst (CG.addNode "n2" "crm" "getCRMAnalytics" [] graph) in
  let graph := fst (CG.addNode "n3" "mrp" "getMRPAnalytics" [] graph) in
  let graph := fst (CG.addNode "n4" "lms" "getLMSAnalytics" [] graph) in
  report graph (fun results =>
    FullEnterpriseAnalysis (CG.resultOf results "n1") (CG.resultOf results "n2")
      (CG.resultOf results "n3") (CG.resultOf results "n4") now).

Definition executeSupplyDemandOptimization (graph : CG.t)
    (params : JSMap.t string) : Run :=
  let materialId := param "materialId" params in
  let customerId := param "customerId" params in
  let graph :=
    fst (CG.addNode "n1" "mrp" ("optimizeInventory:" ++ materialId)%string [] graph) in
  let graph :=
    fst (CG.addNode "n2" "crm" ("predictChurn:" ++ customerId)%string [] graph) in
  report graph (fun results =>
    SupplyDemandOptimization (CG.resultOf results "n1") (CG.resultOf results "n2")).

Definition executeCustomerMaterialLearning (graph : CG.t)
    (params : JSMap.t string) : Run :=
  let customerId := param "customerId" params in
  let materialId := param "materialId" params in
  let learnerId := param "learnerId" params in
  let graph :=
    fst (CG.addNode "n1" "crm" ("getCustomer:" ++ customerId)%string [] graph) in
  let graph :=
    fst (CG.addNode "n2" "mrp" ("getMaterial:" ++ materialId)%string [] graph) in
  let graph :=
    fst (CG.addNode "n3" "lms" ("getLearner:" ++ learnerId)%string [] graph) in
  report graph (fun results =>
    CustomerMaterialLearning (CG.resultOf results "n1") (CG.resultOf results "n2")
      (CG.resultOf results "n3")).

Definition executeWorkflow (systems : list (string * System)) (now : string)
    (workflowName : string) (params : JSMap.t string) : Run :=
  let graph := register systems in
  if String.eqb workflowName "full_enterprise_analysis" then
    executeFullEnterpriseAnalysis graph now
  else if String.eqb workflowName "supply_demand_optimization" then
    executeSupplyDemandOptimization graph params
  else if String.eqb workflowName "customer_material_learning" then
    executeCustomerMaterialLearning graph params
  else mkRun [] (inr (UnknownWorkflow workflowName)).
End Workflows.

(** ** hyperd.js: [Hyperd.initializeHyperGraph] and the lazy initialisation *)

(** What the loops of [initializeHyperGraph] look at.  A registered
    instance is [null] or [undefined], or a value that has a function
    [exportEmbeddings] or has none.  The function returns [null] or
    [undefined], or a value of which [Object.entries] gives the entries.  An
    entry holds an array, of numbers here; or [null]; or another object,
    given by its own entries; or a value whose [typeof] is not ['object'].
    An entry of such an object holds an array of numbers, or anything
    else. *)
Module HyperGraphInit.
Module HGNN := HyperGraphNeuralNetwork.
Module Embedding := HyperGraphEmbedding.

Inductive SubEmbedding : Type :=
| SubArray (vector : list float)
| SubOther.

Inductive Exported : Type :=
| Array (vector : list float)
| Object (entries : list (string * SubEmbedding))
| NullValue
| Other.

Inductive Export : Type :=
| NoObject
| Entries (entries : list (string * Exported)).

Inductive Instance : Type :=
| Missing
| Present (exportEmbeddings : option Export).

(** How a call ends: it returns, or a [TypeError] leaves it. *)
Inductive Completion : Type := Done | TypeErrorThrown.

(** [{ vector: embedding, dimension: embedding.length }]. *)
Definition plain (vector : list float) : Embedding.t :=
  Embedding.mk vector (List.length vector) None [].

(** The loop over the entries of a nested object. *)
Fixpoint addNested (systemName entityId : string)
    (subs : list (string * SubEmbedding)) (hgnn : HGNN.t) : HGNN.t :=
  match subs with
  | [] => hgnn
  | (subId, SubArray subEmb) :: rest =>
      addNested systemName entityId rest
        (HGNN.addNode (systemName ++ ":" ++ entityId ++ ":" ++ subId)%string
           systemName "entity" (plain subEmb) hgnn)
  | (_, SubOther) :: rest => addNested systemName entityId rest hgnn
  end.

(** The loop over the entries of what [exportEmbeddings] returned. *)
Fixpoint addEntities (systemName : string) (entries : list (string * Exported))
    (hgnn : HGNN.t) : HGNN.t * Completion :=
  match entries with
  | [] => (hgnn, Done)
  | (entityId, embedding) :: rest =>
      match embedding with
      | Array vector =>
          addEntities systemName rest
            (HGNN.addNode (systemName ++ ":" ++ entityId)%string systemName
               "entity" (plain vector) hgnn)
      | Object subs =>
          addEntities systemName rest (addNested systemName entityId subs hgnn)
      | NullValue => (hgnn, TypeErrorThrown)
      | Other => addEntities systemName rest hgnn
      end
  end.

(** The loop over [Object.entries(this.#systems)]. *)
Fixpoint addSystems (systems : list (string * Instance)) (hgnn : HGNN.t)
  : HGNN.t * Completion :=
  match systems with
  | [] => (hgnn, Done)
  | (systemName, system) :: rest =>
      match system with
      | Missing => (hgnn, TypeErrorThrown)
      | Present None => addSystems rest hgnn
      | Present (Some NoObject) => (hgnn, TypeErrorThrown)
      | Present (Some (Entries entries)) =>
          match addEntities systemName entries hgnn with
          | (hgnn', Done) => addSystems rest hgnn'
          | (hgnn', TypeErrorThrown) => (hgnn', TypeErrorThrown)
          end
      end
  end.

(** The fields of [Hyperd] these methods use; [systems] stands for
    [Object.entries(this.#systems)]. *)
Record t : Type := mk {
  hgnn : HGNN.t;
  systems : list (string * Instance);
  initialized : bool
}.

(** The constructor: an index of dimension 128, no system. *)
Definition new (random : Random) (next : nat) : t :=
  mk (fst (HGNN.new 128 random next)) [] false.

Definition initializeHyperGraph (h : t) : t * Completion :=
  match addSystems (systems h) (hgnn h) with
  | (hgnn', Done) => (mk hgnn' (systems h) true, Done)
  | (hgnn', TypeErrorThrown) =>
      (mk hgnn' (systems h) (initialized h), TypeErrorThrown)
  end.

(** [createCrossDomainEdges] with its guard: the index is initialised
    first when it was not, and the error of that leaves the call. *)
Definition createCrossDomainEdges (h : t)
  : t * list CrossDomainEdges.ConsoleError * Completion :=
  let '(h1, completion) :=
    if negb (initialized h) then initializeHyperGraph h else (h, Done) in
  match completion with
  | TypeErrorThrown => (h1, [], TypeErrorThrown)
  | Done =>
      let '(hgnn', console) :=
        CrossDomainEdges.createCrossDomainEdges (hgnn h1) in
      (mk hgnn' (systems h1) (initialized h1), console, Done)
  end.
End HyperGraphInit.

(** * Concrete inputs *)

(** ** Task graphs used as concrete inputs *)

Module TaskGraphScenarios.
Import ComputationalGraph.

(** A service whose every operation returns the number of arguments. *)
Definition counting : System :=
  fun _ => Some (fun args => inl (Int (Z.of_nat (List.length args)))).

(** A service whose every operation rejects. *)
Definition rejecting : System :=
  fun _ => Some (fun _ => inr "service unavailable").

Definition registered : t :=
  registerSystem "crm" rejecting (registerSystem "scm" counting new).

(** Scenario 1: independent [A], [B] and [C] with inputs [A; B]. *)
Definition abc : t :=
  fst (addNode "C" "scm" "getERPSCMAnalysis" ["A"; "B"]
    (fst (addNode "B" "scm" "getERPSCMAnalysis" []
      (fst (addNode "A" "scm" "getERPSCMAnalysis" [] registered))))).

(** Scenario 2: [A] is added again, now with input [C]. *)
Definition cyclic : t :=
  fst (addNode "A" "scm" "getERPSCMAnalysis" ["C"] abc).


(** A node whose only input was never added. *)
Definition dangling : t :=
  fst (addNode "B" "scm" "getERPSCMAnalysis" ["X"] registered).

(** [n1] completes, [n2] depends on it and is rejected, [n3] is last. *)
Definition partial : t :=
  fst (addNode "n3" "scm" "getERPSCMAnalysis" ["n2"]
    (fst (addNode "n2" "crm" "predictChurn:c1" ["n1"]
      (fst (addNode "n1" "scm" "getERPSCMAnalysis" [] registered))))).
End TaskGraphScenarios.

(** ** Indexes used as concrete inputs *)

Module HyperGraphScenarios.
Import HyperGraphNeuralNetwork.

(** Two random sources that agree on the first sixteen draws, which is
    what four heads of dimension two consume, and differ after. *)
Definition steady : Random := fun _ => 0.75%float.
Definition drifting : Random :=
  fun k => if Nat.ltb k 16 then 0.75%float else 0.25%float.

(** A source that differs from [steady] at the first draw. *)
Definition other : Random := fun _ => 0.25%float.

Definition emb (x y : float) : Embedding.t := Embedding.mk [x; y] 2 None [].

Definition empty : t := fst (new 2 steady 0).

(** Scenario 3: three nodes of three systems. *)
Definition three : t :=
  addNode "mrp:m1" "mrp" "entity" (emb 0 1)
    (addNode "crm:c1" "crm" "entity" (emb 1 1)
      (addNode "scm:s1" "scm" "entity" (emb 1 0) empty)).

(** ... joined by one hyperedge. *)
Definition linked : t :=
  fst (addHyperEdge "e1" ["scm:s1"; "crm:c1"; "mrp:m1"]
         "supply_chain_integration" 1 [] three).

(** One node and no hyperedge. *)
Definition isolated : t := addNode "scm:s1" "scm" "entity" (emb 1 0) empty.
End HyperGraphScenarios.

(** * Properties *)

Unset Implicit Arguments.

(** ** Containers *)

Lemma JSSet_has_In (x : string) (s : JSSet.t) :
  JSSet.has x s = true <-> In x s.
Proof.
  unfold JSSet.has. rewrite existsb_exists. split.
  - intros [y [Hy Heq]]. apply String.eqb_eq in Heq. now subst.
  - intros H. exists x. split; [assumption | apply String.eqb_refl].
Qed.

Lemma JSSet_has_false (x : string) (s : JSSet.t) :
  JSSet.has x s = false <-> ~ In x s.
Proof.
  rewrite <- JSSet_has_In. destruct (JSSet.has x s); split; congruence.
Qed.

Lemma JSSet_add_In (x y : string) (s : JSSet.t) :
  In y (JSSet.add x s) <-> y = x \/ In y s.
Proof.
  unfold JSSet.add. destruct (JSSet.has x s) eqn:E.
  - apply JSSet_has_In in E. split; [tauto | intros [-> | H]; assumption].
  - rewrite in_app_iff. simpl. split; intros H; intuition (subst; auto).
Qed.

Lemma JSSet_delete_In (x y : string) (s : JSSet.t) :
  In y (JSSet.delete x s) <-> y <> x /\ In y s.
Proof.
  unfold JSSet.delete. rewrite filter_In, negb_true_iff, String.eqb_neq.
  split; intros [H1 H2]; split; auto.
Qed.

Lemma JSSet_delete_add (x : string) (s : JSSet.t) :
  ~ In x s -> JSSet.delete x (JSSet.add x s) = s.
Proof.
  intros Hx. unfold JSSet.add.
  destruct (JSSet.has x s) eqn:E; [apply JSSet_has_In in E; contradiction |].
  unfold JSSet.delete. rewrite filter_app. simpl. rewrite String.eqb_refl. simpl.
  rewrite app_nil_r. clear E. induction s as [| y s IH]; simpl; [reflexivity |].
  destruct (String.eqb x y) eqn:Exy.
  - apply String.eqb_eq in Exy. subst. exfalso. apply Hx. now left.
  - simpl. f_equal. apply IH. intros H. apply Hx. now right.
Qed.

Lemma indexOf_Some_In (x : string) (l : list string) (p : nat) :
  indexOf x l = Some p -> In x l.
Proof.
  revert p. induction l as [| y l IH]; simpl; intros p H; [discriminate |].
  destruct (String.eqb x y) eqn:E.
  - apply String.eqb_eq in E. now left.
  - destruct (indexOf x l); [right; eapply IH; reflexivity | discriminate].
Qed.

Lemma indexOf_app_l (x : string) (l1 l2 : list string) :
  In x l1 -> exists p, indexOf x (l1 ++ l2) = Some p /\ p < List.length l1.
Proof.
  induction l1 as [| y l1 IH]; simpl; intros H; [contradiction |].
  destruct (String.eqb x y) eqn:E.
  - exists 0. split; [reflexivity | lia].
  - destruct H as [H | H]; [subst; rewrite String.eqb_refl in E; discriminate |].
    destruct (IH H) as [p [Hp Hlt]]. rewrite Hp. exists (S p). split; [reflexivity | lia].
Qed.

Lemma indexOf_app_r (x : string) (l1 l2 : list string) :
  ~ In x l1 -> indexOf x (l1 ++ x :: l2) = Some (List.length l1).
Proof.
  induction l1 as [| y l1 IH]; simpl; intros H.
  - now rewrite String.eqb_refl.
  - destruct (String.eqb x y) eqn:E.
    + apply String.eqb_eq in E. subst. exfalso. apply H. now left.
    + rewrite IH; [reflexivity | intros Hin; apply H; now right].
Qed.

Lemma JSMap_get_In_keys (V : Type) (k : string) (m : JSMap.t V) (v : V) :
  JSMap.get k m = Some v -> In k (JSMap.keys m).
Proof.
  induction m as [| [k' v'] m IH]; simpl; intros H; [discriminate |].
  destruct (String.eqb k k') eqn:E.
  - apply String.eqb_eq in E. now left.
  - right. now apply IH.
Qed.

Lemma app_snoc_split (A : Type) (l l1 l2 : list A) (x y : A) :
  l ++ [y] = l1 ++ x :: l2 ->
  (l2 = [] /\ l = l1 /\ y = x) \/ (exists l2', l2 = l2' ++ [y] /\ l = l1 ++ x :: l2').
Proof.
  intros H. destruct l2 as [| z l2].
  - left. apply app_inj_tail in H. tauto.
  - right. destruct (@exists_last _ (z :: l2)) as [l2' [w Hw]]; [discriminate |].
    rewrite Hw in H. change (l1 ++ x :: l2' ++ [w]) with (l1 ++ (x :: l2') ++ [w]) in H.
    rewrite app_assoc in H. apply app_inj_tail in H. destruct H as [H1 H2].
    exists l2'. subst. split; [assumption | reflexivity].
Qed.

(** ** The depth-first traversal of [buildExecutionOrder] *)

Section Traversal.
Import ComputationalGraph.
Variable ns : JSMap.t Node.t.

Definition edge (n i : string) : Prop :=
  exists node, JSMap.get n ns = Some node /\ In i (Node.inputs node).

(** The invariant of the traversal: [visited] and [order] hold the same
    ids, the order has no duplicate, nothing on the stack is visited, and
    every id in the order comes after all its inputs. *)
Record sound (st : VisitState) : Prop := mkSound {
  sound_same : forall x, In x (visited st) <-> In x (order st);
  sound_nodup : NoDup (order st);
  sound_stack : forall x, In x (tempMark st) -> ~ In x (visited st);
  sound_inputs : forall l1 x l2,
      order st = l1 ++ x :: l2 -> forall i, edge x i -> In i l1
}.

(** What a call that returns has done to the state it was given. *)
Definition extends (st st' : VisitState) : Prop :=
  tempMark st' = tempMark st /\ exists ext, order st' = order st ++ ext.

Lemma extends_refl st : extends st st.
Proof. split; [reflexivity | exists []; now rewrite app_nil_r]. Qed.

Lemma extends_trans st1 st2 st3 :
  extends st1 st2 -> extends st2 st3 -> extends st1 st3.
Proof.
  intros [T1 [e1 O1]] [T2 [e2 O2]]. split; [congruence |].
  exists (e1 ++ e2). rewrite O2, O1. now rewrite app_assoc.
Qed.

Lemma extends_In st st' x : extends st st' -> In x (order st) -> In x (order st').
Proof. intros [_ [e O]] H. rewrite O. apply in_or_app. now left. Qed.

Lemma sound_push (st0 st2 : VisitState) (n : string) :
  ~ In n (tempMark st0) ->
  sound st2 ->
  tempMark st2 = JSSet.add n (tempMark st0) ->
  (forall i, edge n i -> In i (order st2)) ->
  sound (mkVisit (JSSet.delete n (tempMark st2)) (JSSet.add n (visited st2))
                 (order st2 ++ [n])).
Proof.
  intros Hn [Hsame Hnd Hstack Hin] HT Hedge.
  assert (Hfresh : ~ In n (order st2)).
  { intros H. apply Hsame in H. revert H. apply Hstack. rewrite HT.
    apply JSSet_add_In. now left. }
  constructor; simpl.
  - intros x. rewrite JSSet_add_In, in_app_iff, Hsame. simpl. intuition.
  - apply NoDup_app; [assumption | repeat constructor; simpl; tauto |].
    intros x Hx [Hx' | []]. subst. contradiction.
  - intros x Hx. apply JSSet_delete_In in Hx. destruct Hx as [Hne Hx].
    rewrite JSSet_add_In. intros [-> | Hv]; [congruence |].
    exact (Hstack x Hx Hv).
  - intros l1 x l2 Heq i Hi.
    apply app_snoc_split in Heq. destruct Heq as [[_ [Hl Hx]] | [l2' [_ Heq]]].
    + rewrite <- Hl. apply Hedge. now rewrite Hx.
    + exact (Hin _ _ _ Heq i Hi).
Qed.

Section Step.
Variable fuel : nat.
Hypothesis IH : forall n st st',
    sound st -> visit ns fuel n st = Some (Ok st') ->
    sound st' /\ extends st st' /\ In n (order st').

Lemma inputs_ok : forall ids st st',
    sound st -> forEach (visit ns fuel) ids st = Some (Ok st') ->
    sound st' /\ extends st st' /\ forall i, In i ids -> In i (order st').
Proof.
  induction ids as [| x ids IHids]; simpl; intros st st' Hs H.
  - injection H as <-. split; [assumption |]. split; [apply extends_refl | tauto].
  - destruct (visit ns fuel x st) as [[st1 | e] |] eqn:E; try discriminate.
    destruct (IH _ _ _ Hs E) as [Hs1 [Hx1 Hin1]].
    destruct (IHids _ _ Hs1 H) as [Hs' [Hx' Hin']].
    split; [assumption |]. split; [eapply extends_trans; eassumption |].
    intros i [<- | Hi]; [eapply extends_In; eassumption | now apply Hin'].
Qed.
End Step.

Lemma visit_ok : forall fuel n st st',
    sound st -> visit ns fuel n st = Some (Ok st') ->
    sound st' /\ extends st st' /\ In n (order st').
Proof.
  induction fuel as [| fuel IH]; simpl; intros n st st' Hs H; [discriminate |].
  destruct (JSSet.has n (tempMark st)) eqn:ET; [discriminate |].
  apply JSSet_has_false in ET.
  destruct (JSSet.has n (visited st)) eqn:EV; simpl in H.
  - injection H as <-. split; [assumption |]. split; [apply extends_refl |].
    apply (sound_same _ Hs). now apply JSSet_has_In.
  - apply JSSet_has_false in EV.
    set (st1 := mkVisit (JSSet.add n (tempMark st)) (visited st) (order st)) in *.
    assert (Hs1 : sound st1).
    { destruct Hs as [Hsame Hnd Hstack Hin]. constructor; simpl; try assumption.
      intros x Hx. apply JSSet_add_In in Hx. destruct Hx as [-> | Hx]; auto. }
    assert (Hinner : exists st2, sound st2 /\ extends st1 st2 /\
               (forall i, edge n i -> In i (order st2)) /\
               st' = mkVisit (JSSet.delete n (tempMark st2))
                       (JSSet.add n (visited st2)) (order st2 ++ [n])).
    { destruct (JSMap.get n ns) as [node |] eqn:EN.
      - destruct (forEach (visit ns fuel) (Node.inputs node) st1)
          as [[st2 | e] |] eqn:EF; try discriminate.
        injection H as <-. exists st2.
        destruct (inputs_ok _ IH _ _ _ Hs1 EF) as [Hs2 [Hx2 Hin2]].
        split; [exact Hs2 |]. split; [exact Hx2 |]. split; [| reflexivity].
        intros i [node' [Hg Hi]]. rewrite EN in Hg. injection Hg as <-. auto.
      - injection H as <-. exists st1.
        split; [exact Hs1 |]. split; [apply extends_refl |]. split; [| reflexivity].
        intros i [node' [Hg _]]. rewrite EN in Hg. discriminate. }
    destruct Hinner as [st2 [Hs2 [[HT [ext HO]] [Hedge ->]]]].
    split; [| split].
    + apply sound_push with (st0 := st); assumption.
    + split; simpl.
      * rewrite HT. simpl. now apply JSSet_delete_add.
      * exists (ext ++ [n]). rewrite HO. simpl. now rewrite app_assoc.
    + simpl. apply in_or_app. right. now left.
Qed.

Lemma visitKey_ok fuel n st st' :
  sound st -> visitKey ns fuel n st = Some (Ok st') ->
  sound st' /\ extends st st' /\ In n (order st').
Proof.
  unfold visitKey. intros Hs H.
  destruct (JSSet.has n (visited st)) eqn:EV; simpl in H.
  - injection H as <-. split; [assumption |]. split; [apply extends_refl |].
    apply (sound_same _ Hs). now apply JSSet_has_In.
  - eapply visit_ok; eassumption.
Qed.

Lemma visitAll_ok fuel st :
  visitAll ns fuel = Some (Ok st) ->
  sound st /\ forall n, In n (JSMap.keys ns) -> In n (order st).
Proof.
  unfold visitAll.
  assert (H0 : sound (mkVisit [] [] [])).
  { constructor; simpl; try tauto; [constructor |].
    intros [| ? ?] ? ? ?; discriminate. }
  generalize (mkVisit [] [] []) H0. generalize (JSMap.keys ns).
  induction l as [| x l IHl]; simpl; intros st0 Hs H.
  - injection H as <-. split; [assumption | tauto].
  - destruct (visitKey ns fuel x st0) as [[st1 | e] |] eqn:E; try discriminate.
    destruct (visitKey_ok _ _ _ _ Hs E) as [Hs1 [Hx1 Hin1]].
    destruct (IHl _ Hs1 H) as [Hs' Hin'].
    split; [assumption |]. intros n [<- | Hn]; [| now apply Hin'].
    clear - Hs1 Hin1 H. revert st1 Hs1 Hin1 H.
    induction l as [| y l IHl]; simpl; intros st1 Hs1 Hin1 H.
    + now injection H as <-.
    + destruct (visitKey ns fuel y st1) as [[st2 | e] |] eqn:E; try discriminate.
      destruct (visitKey_ok _ _ _ _ Hs1 E) as [Hs2 [Hx2 _]].
      eapply IHl; [eassumption | eapply extends_In; eassumption | eassumption].
Qed.

(** Inputs come first: the shape of the order that the invariant gives. *)
Lemma sound_before st n i :
  sound st -> In n (order st) -> edge n i ->
  exists pi pn, indexOf i (order st) = Some pi /\
                indexOf n (order st) = Some pn /\ pi < pn.
Proof.
  intros Hs Hn Hedge. destruct (in_split _ _ Hn) as [l1 [l2 Heq]].
  pose proof (sound_inputs _ Hs _ _ _ Heq _ Hedge) as Hi.
  pose proof (sound_nodup _ Hs) as Hnd. rewrite Heq in *.
  destruct (indexOf_app_l _ _ (n :: l2) Hi) as [pi [Hpi Hlt]].
  exists pi, (List.length l1). split; [assumption |]. split; [| assumption].
  apply indexOf_app_r. apply NoDup_remove_2 in Hnd. intros H. apply Hnd.
  apply in_or_app. now left.
Qed.
End Traversal.

Lemma filter_length_le (A : Type) (p q : A -> bool) (l : list A) :
  (forall x, q x = true -> p x = true) ->
  List.length (filter q l) <= List.length (filter p l).
Proof.
  intros Hpq. induction l as [| x l IH]; simpl; [lia |].
  destruct (q x) eqn:Eq.
  - rewrite (Hpq x Eq). simpl. lia.
  - destruct (p x); simpl; lia.
Qed.

Lemma filter_length_lt (A : Type) (p q : A -> bool) (l : list A) (a : A) :
  (forall x, q x = true -> p x = true) ->
  In a l -> p a = true -> q a = false ->
  List.length (filter q l) < List.length (filter p l).
Proof.
  intros Hpq. induction l as [| x l IH]; simpl; intros Ha Hp Hq; [contradiction |].
  destruct Ha as [-> | Ha].
  - rewrite Hp, Hq. simpl. pose proof (filter_length_le _ p q l Hpq). lia.
  - specialize (IH Ha Hp Hq). destruct (q x) eqn:Eq.
    + rewrite (Hpq x Eq). simpl. lia.
    + destruct (p x); simpl; lia.
Qed.

Lemma clos_t_rt (A : Type) (R : relation A) (x y z : A) :
  clos_trans A R x y -> clos_refl_trans A R y z -> clos_trans A R x z.
Proof.
  intros Hxy Hyz. revert x Hxy. induction Hyz; intros w Hw.
  - eapply t_trans; [eassumption | now apply t_step].
  - assumption.
  - auto.
Qed.

(** ** Termination and cycle detection *)

Section Detection.
Import ComputationalGraph.
Variable ns : JSMap.t Node.t.

(** A call that returns leaves the stack marks as it found them. *)
Lemma forEach_tempMark (step : string -> VisitState -> option (Result VisitState)) :
  (forall x st st', step x st = Some (Ok st') -> tempMark st' = tempMark st) ->
  forall ids st st',
    forEach step ids st = Some (Ok st') -> tempMark st' = tempMark st.
Proof.
  intros Hstep. induction ids as [| x ids IH]; simpl; intros st st' H.
  - now injection H as <-.
  - destruct (step x st) as [[st1 | e] |] eqn:E; try discriminate.
    rewrite (IH _ _ H). eapply Hstep. eassumption.
Qed.

Lemma visit_tempMark : forall fuel n st st',
    visit ns fuel n st = Some (Ok st') -> tempMark st' = tempMark st.
Proof.
  induction fuel as [| fuel IH]; simpl; intros n st st' H; [discriminate |].
  destruct (JSSet.has n (tempMark st)) eqn:ET; [discriminate |].
  apply JSSet_has_false in ET.
  destruct (JSSet.has n (visited st)); simpl in H; [now injection H as <- |].
  destruct (JSMap.get n ns) as [node |].
  - destruct (forEach _ _ _) as [[st2 | e] |] eqn:EF; try discriminate.
    injection H as <-. simpl.
    rewrite (forEach_tempMark _ (IH) _ _ _ EF). simpl.
    now apply JSSet_delete_add.
  - injection H as <-. simpl. now apply JSSet_delete_add.
Qed.

(** The nodes of the graph that are not on the stack: each nested call of
    [visit] on a node takes one away. *)
Definition unmarked (T : JSSet.t) : nat :=
  List.length (filter (fun k => negb (JSSet.has k T)) (JSMap.keys ns)).

Lemma unmarked_add (n : string) (T : JSSet.t) (node : Node.t) :
  JSMap.get n ns = Some node -> ~ In n T ->
  unmarked (JSSet.add n T) < unmarked T.
Proof.
  intros Hg Hn. unfold unmarked. apply filter_length_lt with (a := n).
  - intros x. rewrite !negb_true_iff, !JSSet_has_false, JSSet_add_In. tauto.
  - eapply JSMap_get_In_keys. eassumption.
  - now rewrite negb_true_iff, JSSet_has_false.
  - rewrite negb_false_iff, JSSet_has_In, JSSet_add_In. now left.
Qed.

Lemma forEach_total (step : string -> VisitState -> option (Result VisitState))
    (P : VisitState -> Prop) :
  (forall x st, P st -> step x st <> None) ->
  (forall x st st', P st -> step x st = Some (Ok st') -> P st') ->
  forall ids st, P st -> forEach step ids st <> None.
Proof.
  intros Htot Hpres. induction ids as [| x ids IH]; simpl; intros st HP.
  - discriminate.
  - destruct (step x st) as [[st1 | e] |] eqn:E.
    + apply IH. eapply Hpres; eassumption.
    + discriminate.
    + exfalso. eapply Htot; eassumption.
Qed.

Lemma visit_total : forall fuel n st,
    unmarked (tempMark st) < fuel -> visit ns fuel n st <> None.
Proof.
  induction fuel as [| fuel IH]; simpl; intros n st Hlt; [lia |].
  destruct (JSSet.has n (tempMark st)) eqn:ET; [discriminate |].
  apply JSSet_has_false in ET.
  destruct (JSSet.has n (visited st)); simpl; [discriminate |].
  destruct (JSMap.get n ns) as [node |] eqn:EN; [| discriminate].
  pose proof (unmarked_add n _ node EN ET) as Hdec.
  assert (Hloop : forEach (visit ns fuel) (Node.inputs node)
            (mkVisit (JSSet.add n (tempMark st)) (visited st) (order st)) <> None).
  { apply forEach_total
      with (P := fun s => tempMark s = JSSet.add n (tempMark st)).
    - intros x s Hs. apply IH. rewrite Hs. lia.
    - intros x s s' Hs E. rewrite (visit_tempMark _ _ _ _ E). exact Hs.
    - reflexivity. }
  destruct (forEach _ _ _) as [[st2 | e] |]; congruence.
Qed.

Lemma visitAll_total : visitAll ns (stackDepth ns) <> None.
Proof.
  unfold visitAll.
  apply forEach_total with (P := fun s => tempMark s = []).
  - intros x s Hs. unfold visitKey. destruct (negb _); [| discriminate].
    apply visit_total. rewrite Hs. unfold unmarked, stackDepth, JSMap.size, JSMap.keys.
    pose proof (filter_length (fun k => negb (JSSet.has k [])) (map fst ns)) as Hf.
    rewrite length_map in Hf. lia.
  - intros x s s' Hs E. unfold visitKey in E. destruct (negb _).
    + rewrite (visit_tempMark _ _ _ _ E). exact Hs.
    + now injection E as <-.
  - reflexivity.
Qed.

(** The only error of the traversal is the cycle error, and the node it
    names is either on the stack of the caller or reachable from itself. *)
Definition names_cycle (from : string) (T : JSSet.t) (e : JSError) : Prop :=
  exists x, e = CycleDetected x /\
            clos_refl_trans string (edge ns) from x /\
            (In x T \/ clos_trans string (edge ns) x x).

Lemma forEach_throw (step : string -> VisitState -> option (Result VisitState))
    (T : JSSet.t) :
  (forall x st st', step x st = Some (Ok st') -> tempMark st' = tempMark st) ->
  (forall x st e, tempMark st = T -> step x st = Some (Throw e) ->
                  names_cycle x T e) ->
  forall ids st e,
    tempMark st = T -> forEach step ids st = Some (Throw e) ->
    exists i, In i ids /\ names_cycle i T e.
Proof.
  intros Hkeep Hthrow. induction ids as [| x ids IH]; simpl; intros st e HT H.
  - discriminate.
  - destruct (step x st) as [[st1 | e1] |] eqn:E; try discriminate.
    + destruct (IH st1 e) as [i [Hi Hn]]; [| assumption |].
      * rewrite (Hkeep _ _ _ E). exact HT.
      * exists i. split; [now right | assumption].
    + injection H as <-. exists x. split; [now left | eauto].
Qed.

Lemma visit_throw : forall fuel n st e,
    visit ns fuel n st = Some (Throw e) -> names_cycle n (tempMark st) e.
Proof.
  induction fuel as [| fuel IH]; simpl; intros n st e H; [discriminate |].
  destruct (JSSet.has n (tempMark st)) eqn:ET.
  - injection H as <-. exists n. split; [reflexivity |].
    split; [apply rt_refl | left; now apply JSSet_has_In].
  - apply JSSet_has_false in ET.
    destruct (JSSet.has n (visited st)); simpl in H; [discriminate |].
    destruct (JSMap.get n ns) as [node |] eqn:EN; [| discriminate].
    destruct (forEach _ _ _) as [[st2 | e2] |] eqn:EF; try discriminate.
    injection H as <-.
    assert (Hloop : exists i, In i (Node.inputs node) /\
              names_cycle i (JSSet.add n (tempMark st)) e2).
    { eapply forEach_throw with (step := visit ns fuel); [| | | exact EF].
      - exact (visit_tempMark fuel).
      - intros x s e' Hs Hx. rewrite <- Hs. now apply IH.
      - reflexivity. }
    destruct Hloop as [i [Hi [x [-> [Hreach Hx]]]]].
    assert (Hni : clos_trans string (edge ns) n x).
    { apply clos_t_rt with (y := i); [| assumption].
      apply t_step. exists node. split; assumption. }
    exists x. split; [reflexivity |]. split; [now apply clos_t_clos_rt |].
    destruct Hx as [Hx | Hx]; [| now right].
    apply JSSet_add_In in Hx. destruct Hx as [-> | Hx]; [now right | now left].
Qed.

Lemma visitAll_throw (fuel : nat) (e : JSError) :
  visitAll ns fuel = Some (Throw e) ->
  exists x, e = CycleDetected x /\ clos_trans string (edge ns) x x.
Proof.
  unfold visitAll. intros H.
  assert (Hloop : exists i, In i (JSMap.keys ns) /\ names_cycle i [] e).
  { eapply forEach_throw with (step := visitKey ns fuel); [| | | exact H].
    - intros x st st' E. unfold visitKey in E. destruct (negb _).
      + exact (visit_tempMark _ _ _ _ E).
      + now injection E as <-.
    - intros x st e' HT E. unfold visitKey in E.
      destruct (negb _); [| discriminate].
      rewrite <- HT. eapply visit_throw. eassumption.
    - reflexivity. }
  destruct Hloop as [i [_ [x [-> [_ [[] | Hx]]]]]].
  exists x. split; [reflexivity | assumption].
Qed.

(** Along input edges the position in a returned order goes down. *)
Lemma order_decreases (fuel : nat) (st : VisitState) (a b : string) :
  visitAll ns fuel = Some (Ok st) ->
  clos_trans string (edge ns) a b ->
  exists pa pb, indexOf a (order st) = Some pa /\
                indexOf b (order st) = Some pb /\ pb < pa.
Proof.
  intros H Hab. destruct (visitAll_ok ns fuel st H) as [Hs Hkeys].
  induction Hab as [a b Hedge | a b c _ IH1 _ IH2].
  - destruct (sound_before ns st a b Hs) as [pb [pa Hp]]; [| assumption |].
    + destruct Hedge as [node [Hg _]]. apply Hkeys.
      eapply JSMap_get_In_keys. eassumption.
    + exists pa, pb. tauto.
  - destruct IH1 as [pa [pb [Ha [Hb Hlt1]]]].
    destruct IH2 as [pb' [pc [Hb' [Hc Hlt2]]]].
    rewrite Hb in Hb'. injection Hb' as <-.
    exists pa, pc. repeat split; try assumption. lia.
Qed.

End Detection.

(** ** The execution loop *)

Lemma JSMap_get_set_same (V : Type) (k : string) (v : V) (m : JSMap.t V) :
  JSMap.get k (JSMap.set k v m) = Some v.
Proof.
  induction m as [| [k' v'] m IH]; simpl.
  - now rewrite String.eqb_refl.
  - destruct (String.eqb k k') eqn:E; simpl; rewrite ?String.eqb_refl, ?E; auto.
Qed.

Lemma JSMap_get_set_other (V : Type) (k k' : string) (v : V) (m : JSMap.t V) :
  k <> k' -> JSMap.get k (JSMap.set k' v m) = JSMap.get k m.
Proof.
  intros Hne. induction m as [| [k0 v0] m IH]; simpl.
  - apply String.eqb_neq in Hne. now rewrite Hne.
  - destruct (String.eqb k' k0) eqn:E; simpl.
    + apply String.eqb_eq in E. subst k0.
      apply String.eqb_neq in Hne. now rewrite Hne.
    + destruct (String.eqb k k0); auto.
Qed.

Section Execution.
Import ComputationalGraph.

Lemma getNode_updateNode_same (k : string) (node : Node.t) (g : t) :
  getNode k (updateNode k node g) = Some node.
Proof. apply JSMap_get_set_same. Qed.

Lemma getNode_updateNode_other (k k' : string) (node : Node.t) (g : t) :
  k <> k' -> getNode k (updateNode k' node g) = getNode k g.
Proof. apply JSMap_get_set_other. Qed.

(** One turn of the loop on a node of the graph. *)
Definition turn (nodeId : string) (node0 : Node.t) (g : t)
    (results : JSMap.t Value) : list Dispatch * Result Value :=
  runNode nodeId (updateNode nodeId (Node.setStatus running node0) g)
    (Node.setStatus running node0) results.

Definition afterSuccess (nodeId : string) (node0 : Node.t) (r : Value) (g : t) : t :=
  updateNode nodeId (Node.setResult r (Node.setStatus running node0))
    (updateNode nodeId (Node.setStatus running node0) g).

Definition afterFailure (nodeId : string) (node0 : Node.t) (e : JSError) (g : t) : t :=
  updateNode nodeId
    (Node.setResult (ErrorObject (message e))
       (Node.setStatus failed (Node.setStatus running node0)))
    (updateNode nodeId (Node.setStatus running node0) g).

Lemma executeLoop_cons (x : string) (rest : list string) (g : t)
    (rs : JSMap.t Value) (tr : list Dispatch) :
  executeLoop (x :: rest) g rs tr =
  match getNode x g with
  | None => executeLoop rest g rs tr
  | Some node0 =>
      match turn x node0 g rs with
      | (calls, Ok r) =>
          executeLoop rest (afterSuccess x node0 r g) (JSMap.set x r rs) (tr ++ calls)
      | (calls, Throw e) =>
          mkExecution (afterFailure x node0 e g) (tr ++ calls) (Throw e)
      end
  end.
Proof. reflexivity. Qed.


(** A failing execution splits the order at the node that failed: the
    ids before it were processed to the end, the ids after it play no
    part. *)
Lemma executeLoop_failure : forall ids g rs tr e,
    outcome (executeLoop ids g rs tr) = Throw e ->
    exists pre n post gm rm tm node0 calls,
      ids = pre ++ n :: post /\
      executeLoop pre g rs tr = mkExecution gm tm (Ok rm) /\
      getNode n gm = Some node0 /\
      turn n node0 gm rm = (calls, Throw e) /\
      executeLoop ids g rs tr =
        mkExecution (afterFailure n node0 e gm) (tm ++ calls) (Throw e).
Proof.
  induction ids as [| x rest IH]; intros g rs tr e H; [discriminate |].
  rewrite executeLoop_cons in H |- *.
  destruct (getNode x g) as [node0 |] eqn:EN.
  - destruct (turn x node0 g rs) as [calls [r | e']] eqn:ET.
    + destruct (IH _ _ _ _ H)
        as (pre & n & post & gm & rm & tm & node1 & calls1 & -> & Hpre & Hn & Ht & Hall).
      exists (x :: pre), n, post, gm, rm, tm, node1, calls1.
      split; [reflexivity |]. split; [| auto].
      simpl app. rewrite executeLoop_cons, EN, ET. assumption.
    + simpl in H. injection H as ->.
      exists [], x, rest, g, rs, tr, node0, calls. auto.
  - destruct (IH _ _ _ _ H)
      as (pre & n & post & gm & rm & tm & node1 & calls1 & -> & Hpre & Hn & Ht & Hall).
    exists (x :: pre), n, post, gm, rm, tm, node1, calls1.
    split; [reflexivity |]. split; [| auto].
    simpl app. rewrite executeLoop_cons, EN. assumption.
Qed.






(** Processing keeps the node map's keys. *)
Lemma executeLoop_keeps_nodes : forall ids g rs tr k,
    getNode k g <> None -> getNode k (graph (executeLoop ids g rs tr)) <> None.
Proof.
  induction ids as [| x rest IH]; intros g rs tr k Hk; [assumption |].
  rewrite executeLoop_cons.
  destruct (getNode x g) as [node0 |] eqn:EN; [| now apply IH].
  assert (Hup : forall n1 n2,
             getNode k (updateNode x n2 (updateNode x n1 g)) <> None).
  { intros n1 n2. destruct (String.eqb_spec k x) as [-> | Hne].
    - now rewrite getNode_updateNode_same.
    - now rewrite !getNode_updateNode_other. }
  destruct (turn x node0 g rs) as [calls [r | e']].
  - apply IH. apply Hup.
  - apply Hup.
Qed.
End Execution.

(** ** Task graph: the claims *)

Section TaskGraphClaims.
Import ComputationalGraph.

Lemma buildExecutionOrder_ok (g g' : t) (order : list string) :
  buildExecutionOrder g = (g', Ok order) ->
  exists st, visitAll (nodes g) (stackDepth (nodes g)) = Some (Ok st) /\
             order = ComputationalGraph.order st /\
             g' = mk (nodes g) order (systems g).
Proof.
  unfold buildExecutionOrder. intros H.
  destruct (visitAll _ _) as [[st | e] |]; try discriminate.
  injection H as <- <-. exists st. auto.
Qed.

Lemma buildExecutionOrder_throw (g g' : t) (e : JSError) :
  buildExecutionOrder g = (g', Throw e) ->
  g' = g /\ exists x, e = CycleDetected x /\ onCycle g x.
Proof.
  unfold buildExecutionOrder. intros H.
  destruct (visitAll _ _) as [[st | e'] |] eqn:E; try discriminate.
  - injection H as <- <-. split; [reflexivity |]. eapply visitAll_throw. eassumption.
  - exfalso. revert E. apply visitAll_total.
Qed.

Lemma buildExecutionOrder_before (g g' : t) (order : list string)
    (n i : string) (node : Node.t) :
  buildExecutionOrder g = (g', Ok order) ->
  getNode n g = Some node ->
  In i (Node.inputs node) ->
  exists pi pn, indexOf i order = Some pi /\ indexOf n order = Some pn /\ pi < pn.
Proof.
  intros H Hn Hi. apply buildExecutionOrder_ok in H.
  destruct H as [st [Hv [-> _]]].
  destruct (visitAll_ok _ _ _ Hv) as [Hs Hkeys].
  apply (sound_before (nodes g)); [assumption | |].
  - apply Hkeys. eapply JSMap_get_In_keys. eassumption.
  - exists node. split; assumption.
Qed.


(** An id that is no node of the graph never gets a result. *)
Lemma executeLoop_missing (i : string) : forall ids g rs tr gm tm rm,
    executeLoop ids g rs tr = mkExecution gm tm (Ok rm) ->
    getNode i g = None ->
    JSMap.get i rs = None ->
    JSMap.get i rm = None.
Proof.
  induction ids as [| x rest IH]; intros g rs tr gm tm rm H Hmiss Hrs.
  - now injection H as _ _ <-.
  - rewrite executeLoop_cons in H.
    destruct (getNode x g) as [node0 |] eqn:EN; [| eapply IH; eassumption].
    assert (Hix : i <> x) by congruence.
    destruct (turn x node0 g rs) as [calls [r | e']]; [| discriminate].
    eapply IH; [eassumption | |].
    + unfold afterSuccess. now rewrite !getNode_updateNode_other.
    + now rewrite JSMap_get_set_other.
Qed.


(** [execute] on a graph with no stored order: it builds one first. *)
Lemma execute_fresh (g : t) :
  executionOrder g = [] ->
  execute g =
  match buildExecutionOrder g with
  | (g', Ok _) => executeLoop (executionOrder g') g' [] []
  | (g', Throw e) => mkExecution g' [] (Throw e)
  end.
Proof. unfold execute. now intros ->. Qed.
End TaskGraphClaims.

Section TaskGraphTheorems.
Import ComputationalGraph TaskGraphScenarios.

Example scenario1_order : snd (buildExecutionOrder abc) = Ok ["A"; "B"; "C"].
Proof. reflexivity. Qed.

Example scenario2_cycle : snd (buildExecutionOrder cyclic) = Throw (CycleDetected "A").
Proof. reflexivity. Qed.

(** C1. On every task graph on which [buildExecutionOrder] succeeds, each
    input id of each node of the graph appears in the returned order at
    an earlier position than the node; the order holds no id twice, so
    each id has one position.  This holds for every graph state, hence for
    those built by [addNode]. *)
Theorem inputs_precede_node (g g' : t) (order : list string)
    (n i : string) (node : Node.t) :
  buildExecutionOrder g = (g', Ok order) ->
  getNode n g = Some node ->
  In i (Node.inputs node) ->
  NoDup order /\
  exists pi pn, indexOf i order = Some pi /\ indexOf n order = Some pn /\ pi < pn.
Proof.
  intros Hbuild Hn Hi. unfold buildExecutionOrder in Hbuild.
  destruct (visitAll (nodes g) (stackDepth (nodes g))) as [[st | e] |] eqn:Hv;
    try discriminate.
  injection Hbuild as _ <-.
  destruct (visitAll_ok _ _ _ Hv) as [Hsound Hkeys].
  split; [exact (sound_nodup _ _ Hsound) |].
  apply (sound_before (nodes g)).
  - exact Hsound.
  - apply Hkeys. eapply JSMap_get_In_keys. exact Hn.
  - exists node. split; assumption.
Qed.

Lemma inputs_precede_node_witness :
  buildExecutionOrder abc = (fst (buildExecutionOrder abc), Ok ["A"; "B"; "C"]) /\
  NoDup ["A"; "B"; "C"] /\
  exists pi pn, indexOf "B" ["A"; "B"; "C"] = Some pi /\
                indexOf "C" ["A"; "B"; "C"] = Some pn /\ pi < pn.
Proof.
  split; [reflexivity |].
  apply (inputs_precede_node abc (fst (buildExecutionOrder abc)) ["A"; "B"; "C"]
           "C" "B" (Node.mk "C" "scm" "getERPSCMAnalysis" ["A"; "B"] [] pending Null)).
  - reflexivity.
  - reflexivity.
  - simpl. auto.
Defined.




End TaskGraphTheorems.

Section ExecuteTheorems.
Import ComputationalGraph TaskGraphScenarios.

(** [execute] either stops at the cycle error, before its loop, or runs
    its loop over the stored order of a graph with the same nodes. *)
Lemma execute_cases (g : t) :
  (exists x, execute g = mkExecution g [] (Throw (CycleDetected x))) \/
  (exists gb, execute g = executeLoop (executionOrder gb) gb [] [] /\
              nodes gb = nodes g).
Proof.
  unfold execute. destruct (executionOrder g) as [| x rest] eqn:EO.
  - destruct (buildExecutionOrder g) as [g' [o | e]] eqn:EB.
    + right. exists g'. split; [reflexivity |].
      apply buildExecutionOrder_ok in EB. destruct EB as [st [_ [_ ->]]]. reflexivity.
    + left. apply buildExecutionOrder_throw in EB.
      destruct EB as [-> [y [-> _]]]. exists y. reflexivity.
  - right. exists g. rewrite EO. split; reflexivity.
Qed.






End ExecuteTheorems.

(** ** Hypergraph index: edges and insights *)

Section IndexTheorems.
Import HyperGraphNeuralNetwork HyperGraphScenarios.

Lemma firstMissing_found (ns : JSMap.t Node) (nodeIds : list string) (k : string) :
  In k nodeIds -> JSMap.has k ns = false ->
  exists k', firstMissing ns nodeIds = Some k' /\
             In k' nodeIds /\ JSMap.has k' ns = false.
Proof.
  induction nodeIds as [| x rest IH]; simpl; intros Hin Hk; [contradiction |].
  destruct (JSMap.has x ns) eqn:Ex; simpl.
  - destruct Hin as [-> | Hin]; [congruence |].
    destruct (IH Hin Hk) as [k' [H1 [H2 H3]]]. exists k'. auto.
  - exists x. auto.
Qed.

(** C4. When some entry of [nodeIds] is not a node of the index,
    [addHyperEdge] throws, naming a missing entry, and the index it leaves
    is the index it was given: same node map, same edge map, hence the
    same counts. *)
Theorem addHyperEdge_atomic (g : t) (edgeId : string) (nodeIds : list string)
    (type : string) (weight : float) (metadata : list (string * string))
    (k : string) :
  In k nodeIds ->
  JSMap.has k (nodes g) = false ->
  exists k',
    In k' nodeIds /\ JSMap.has k' (nodes g) = false /\
    addHyperEdge edgeId nodeIds type weight metadata g = (g, Throw (NodeNotFound k')) /\
    let g' := fst (addHyperEdge edgeId nodeIds type weight metadata g) in
    nodes g' = nodes g /\ hyperEdges g' = hyperEdges g /\
    totalNodes (getNetworkInsights g') = totalNodes (getNetworkInsights g) /\
    totalHyperEdges (getNetworkInsights g') = totalHyperEdges (getNetworkInsights g).
Proof.
  intros Hin Hk. destruct (firstMissing_found _ _ _ Hin Hk) as [k' [Hf [Hin' Hk']]].
  exists k'. unfold addHyperEdge. rewrite Hf. simpl. auto 10.
Qed.

Lemma addHyperEdge_atomic_witness :
  In "lms:l1" ["crm:c1"; "lms:l1"] /\
  JSMap.has "lms:l1" (nodes linked) = false /\
  exists k',
    In k' ["crm:c1"; "lms:l1"] /\ JSMap.has k' (nodes linked) = false /\
    addHyperEdge "e2" ["crm:c1"; "lms:l1"] "customer_training" 1 [] linked
      = (linked, Throw (NodeNotFound k')) /\
    let g' := fst (addHyperEdge "e2" ["crm:c1"; "lms:l1"] "customer_training" 1 []
                     linked) in
    nodes g' = nodes linked /\ hyperEdges g' = hyperEdges linked /\
    totalNodes (getNetworkInsights g') = totalNodes (getNetworkInsights linked) /\
    totalHyperEdges (getNetworkInsights g') = totalHyperEdges (getNetworkInsights linked).
Proof.
  split; [simpl; auto |]. split; [reflexivity |].
  apply (addHyperEdge_atomic linked "e2" ["crm:c1"; "lms:l1"] "customer_training"
           1 [] "lms:l1").
  - simpl. auto.
  - reflexivity.
Defined.

Lemma fold_left_add_lengths (A : Type) (f : A -> nat) (l : list A) (acc : nat) :
  fold_left (fun sum x => sum + f x) l acc = acc + list_sum (map f l).
Proof.
  revert acc. induction l as [| x l IH]; simpl; intros acc; [lia |].
  rewrite IH. lia.
Qed.

(** C10. [avgNodesPerEdge] is the quotient, as doubles, of the sum of the
    node-key counts of the stored edges by the number of stored edges; the
    division has no guard, and with no edge stored it is [0 / 0], which is
    [NaN]. *)
Theorem avgNodesPerEdge_quotient (g : t) :
  avgNodesPerEdge (getNetworkInsights g) =
    (of_nat (list_sum (map (fun edge => List.length (HyperEdge.nodes edge))
                         (JSMap.values (hyperEdges g))))
     / of_nat (JSMap.size (hyperEdges g)))%float /\
  (JSMap.size (hyperEdges g) = 0 ->
   avgNodesPerEdge (getNetworkInsights g) = nan /\
   is_nan (avgNodesPerEdge (getNetworkInsights g)) = true).
Proof.
  unfold getNetworkInsights. simpl. rewrite fold_left_add_lengths. simpl.
  split; [reflexivity |]. intros Hsize.
  destruct (hyperEdges g) as [| e es]; [| discriminate]. split; reflexivity.
Qed.

Lemma avgNodesPerEdge_quotient_witness :
  JSMap.size (hyperEdges three) = 0 /\
  avgNodesPerEdge (getNetworkInsights three) = nan /\
  is_nan (avgNodesPerEdge (getNetworkInsights three)) = true.
Proof.
  split; [reflexivity |].
  apply (proj2 (avgNodesPerEdge_quotient three)). reflexivity.
Defined.

Example avgNodesPerEdge_linked :
  avgNodesPerEdge (getNetworkInsights linked) = 3%float.
Proof. reflexivity. Qed.
End IndexTheorems.

(** ** Attention: construction and determinism *)

Section AttentionTheorems.
Import HyperGraphAttention HyperGraphScenarios.

Lemma randomRow_agree (r1 r2 : Random) : forall n n1 n2,
    (forall k, k < n -> r1 (n1 + k) = r2 (n2 + k)) ->
    fst (randomRow r1 n1 n) = fst (randomRow r2 n2 n).
Proof.
  induction n as [| n IH]; simpl; intros n1 n2 H; [reflexivity |].
  specialize (IH (S n1) (S n2)).
  destruct (randomRow r1 (S n1) n) as [row1 p1].
  destruct (randomRow r2 (S n2) n) as [row2 p2]. simpl in *.
  rewrite IH.
  - specialize (H 0 (Nat.lt_0_succ n)). rewrite !Nat.add_0_r in H. now rewrite H.
  - intros k Hk. specialize (H (S k) (proj1 (Nat.succ_lt_mono k n) Hk)).
    now rewrite !Nat.add_succ_r in H.
Qed.

Lemma randomRow_next (r : Random) : forall n next,
    snd (randomRow r next n) = next + n.
Proof.
  induction n as [| n IH]; simpl; intros next; [lia |].
  specialize (IH (S next)). destruct (randomRow r (S next) n). simpl in *. lia.
Qed.

Lemma randomMatrix_next (r : Random) (cols : nat) : forall rows next,
    snd (randomMatrix r next rows cols) = next + rows * cols.
Proof.
  induction rows as [| rows IH]; simpl; intros next; [lia |].
  pose proof (randomRow_next r cols next) as Hrow.
  destruct (randomRow r next cols) as [row p]. simpl in Hrow. subst p.
  specialize (IH (next + cols)).
  destruct (randomMatrix r (next + cols) rows cols). simpl in *. lia.
Qed.

Lemma randomMatrix_agree (r1 r2 : Random) (cols : nat) : forall rows n1 n2,
    (forall k, k < rows * cols -> r1 (n1 + k) = r2 (n2 + k)) ->
    fst (randomMatrix r1 n1 rows cols) = fst (randomMatrix r2 n2 rows cols).
Proof.
  induction rows as [| rows IH]; simpl; intros n1 n2 H; [reflexivity |].
  pose proof (randomRow_next r1 cols n1) as H1.
  pose proof (randomRow_next r2 cols n2) as H2.
  assert (Hrow : fst (randomRow r1 n1 cols) = fst (randomRow r2 n2 cols)).
  { apply randomRow_agree. intros k Hk. apply H. lia. }
  destruct (randomRow r1 n1 cols) as [row1 p1].
  destruct (randomRow r2 n2 cols) as [row2 p2]. simpl in *. subst p1 p2 row2.
  specialize (IH (n1 + cols) (n2 + cols)).
  destruct (randomMatrix r1 (n1 + cols) rows cols) as [W1 q1].
  destruct (randomMatrix r2 (n2 + cols) rows cols) as [W2 q2]. simpl in *.
  rewrite IH; [reflexivity |].
  intros k Hk. rewrite <- !Nat.add_assoc. apply H. lia.
Qed.

Lemma initializeWeights_agree (r1 r2 : Random) (d : nat) : forall heads n1 n2,
    (forall k, k < heads * (d * d) -> r1 (n1 + k) = r2 (n2 + k)) ->
    fst (initializeWeights r1 n1 heads d) = fst (initializeWeights r2 n2 heads d).
Proof.
  induction heads as [| heads IH]; simpl; intros n1 n2 H; [reflexivity |].
  pose proof (randomMatrix_next r1 d d n1) as H1.
  pose proof (randomMatrix_next r2 d d n2) as H2.
  assert (HW : fst (randomMatrix r1 n1 d d) = fst (randomMatrix r2 n2 d d)).
  { apply randomMatrix_agree. intros k Hk. apply H. lia. }
  destruct (randomMatrix r1 n1 d d) as [W1 p1].
  destruct (randomMatrix r2 n2 d d) as [W2 p2]. simpl in *. subst p1 p2 W2.
  specialize (IH (n1 + d * d) (n2 + d * d)).
  destruct (initializeWeights r1 (n1 + d * d) heads d) as [Ws1 q1].
  destruct (initializeWeights r2 (n2 + d * d) heads d) as [Ws2 q2]. simpl in *.
  rewrite IH; [reflexivity |].
  intros k Hk. rewrite <- !Nat.add_assoc. apply H. lia.
Qed.

(** C9, as the code has it.  The constructor takes the dimension and the
    number of heads, and fills the matrices from the random source.  The
    instance depends on the source through the draws the constructor
    makes, and on nothing else: two instances built on sources that agree
    on those draws are equal, and [computeAttention], which has no access
    to the source, returns the same weights for both. *)
Theorem computeAttention_deterministic (dimension numHeads : nat)
    (r1 r2 : Random) (n1 n2 : nat) :
  (forall k, k < numHeads * (dimension * dimension) -> r1 (n1 + k) = r2 (n2 + k)) ->
  fst (new dimension numHeads r1 n1) = fst (new dimension numHeads r2 n2) /\
  forall Math_exp queryEmb keyEmbs,
    computeAttention Math_exp (fst (new dimension numHeads r1 n1)) queryEmb keyEmbs =
    computeAttention Math_exp (fst (new dimension numHeads r2 n2)) queryEmb keyEmbs.
Proof.
  intros H.
  assert (Heq : fst (new dimension numHeads r1 n1) = fst (new dimension numHeads r2 n2)).
  { unfold new. pose proof (initializeWeights_agree r1 r2 dimension numHeads n1 n2 H) as HW.
    destruct (initializeWeights r1 n1 numHeads dimension) as [Ws1 p1].
    destruct (initializeWeights r2 n2 numHeads dimension) as [Ws2 p2].
    simpl in *. now subst. }
  split; [exact Heq |]. intros. now rewrite Heq.
Qed.

Lemma steady_drifting_agree :
  forall k, k < 4 * (2 * 2) -> steady (0 + k) = drifting (0 + k).
Proof.
  intros k Hk. unfold steady, drifting. simpl.
  destruct (Nat.ltb_spec k 16); [reflexivity | simpl in Hk; lia].
Defined.

Lemma computeAttention_deterministic_witness :
  (forall k, k < 4 * (2 * 2) -> steady (0 + k) = drifting (0 + k)) /\
  fst (new 2 4 steady 0) = fst (new 2 4 drifting 0) /\
  forall Math_exp queryEmb keyEmbs,
    computeAttention Math_exp (fst (new 2 4 steady 0)) queryEmb keyEmbs =
    computeAttention Math_exp (fst (new 2 4 drifting 0)) queryEmb keyEmbs.
Proof.
  split; [exact steady_drifting_agree |].
  apply (computeAttention_deterministic 2 4 steady drifting 0 0).
  exact steady_drifting_agree.
Defined.

(** C9 fails as stated: construction takes no matrices.  Two instances
    built with the same arguments hold different matrices when the random
    source differs. *)
Lemma construction_draws_its_matrices :
  dimension (fst (new 2 4 steady 0)) = dimension (fst (new 2 4 other 0)) /\
  numHeads (fst (new 2 4 steady 0)) = numHeads (fst (new 2 4 other 0)) /\
  attentionWeights (fst (new 2 4 steady 0)) <>
  attentionWeights (fst (new 2 4 other 0)).
Proof.
  split; [reflexivity |]. split; [reflexivity |]. intros H.
  apply (f_equal (fun Ws => (item (nth 0 (nth 0 Ws []) []) 0 <? 0)%float)) in H.
  vm_compute in H. discriminate.
Qed.

(** One weight per neighbour, whatever the arithmetic does. *)
Lemma computeAttention_length (Math_exp : float -> float) (a : t)
    (queryEmb : HyperGraphEmbedding.t) (keyEmbs : list HyperGraphEmbedding.t) :
  List.length (computeAttention Math_exp a queryEmb keyEmbs) = List.length keyEmbs.
Proof. unfold computeAttention. now rewrite length_map, length_seq. Qed.
End AttentionTheorems.

(** ** Propagation *)

Section PropagationTheorems.
Import HyperGraphNeuralNetwork HyperGraphScenarios.

(** The field [hopsCompleted] is the argument [hops]. *)
Lemma propagate_hopsCompleted (Math_exp : float -> float) (targetNodeId : string)
    (hops : Z) (g : t) (r : Propagation) :
  propagate Math_exp targetNodeId hops g = Ok r -> hopsCompleted r = hops.
Proof.
  unfold propagate. destruct (JSMap.get _ _); [| discriminate].
  destruct (rounds _ _ _ _ _) as [[e v] | e]; [| discriminate].
  now intros [= <-].
Qed.

(** C7 at the failing input.  On an index of one node and no hyperedge
    the loop leaves at its first test, in its first round: the embedding
    is the node's own and one node is visited, exactly as with zero hops
    requested.  The result still reports two hops completed. *)
Theorem propagate_reports_requested_hops :
  forall Math_exp,
    propagate Math_exp "scm:s1" 2 isolated =
      Ok (mkPropagation "scm:s1" (Embedding.mk [1; 0]%float 2 (Some "scm") []) 2 1) /\
    propagate Math_exp "scm:s1" 0 isolated =
      Ok (mkPropagation "scm:s1" (Embedding.mk [1; 0]%float 2 (Some "scm") []) 0 1) /\
    relevantEdges isolated ["scm:s1"] = [].
Proof. intros Math_exp. repeat split. Qed.

(** Scenario 3: one round over the hyperedge visits the three nodes. *)
Example propagate_scenario3 :
  forall Math_exp,
    match propagate Math_exp "scm:s1" 1 linked with
    | Ok r => nodesVisited r = 3 /\ hopsCompleted r = 1%Z
    | Throw _ => False
    end.
Proof. intros Math_exp. vm_compute. split; reflexivity. Qed.

(** More rounds than the index has to give: from the second round on the
    edge is fully visited and nothing changes, and five hops are reported. *)
Example propagate_scenario3_five :
  forall Math_exp,
    match propagate Math_exp "scm:s1" 5 linked with
    | Ok r => nodesVisited r = 3 /\ hopsCompleted r = 5%Z
    | Throw _ => False
    end.
Proof. intros Math_exp. vm_compute. split; reflexivity. Qed.
End PropagationTheorems.

(** ** Cross-domain path search *)

Section PathSearch.
Import HyperGraphNeuralNetwork.
Variable edges : list (string * HyperEdge.t).
Variable targetNodeId : string.
Variable maxHops : Z.

(** What holds of every path the search ever builds: no id twice, at
    least the source, and more than the source only within [maxHops]
    ids. *)
Definition admissible (p : list string) : Prop :=
  NoDup p /\ 1 <= List.length p /\
  (List.length p <= 1 \/ (Z.of_nat (List.length p) <= maxHops)%Z).

Definition arrived (p : list string) : Prop :=
  admissible p /\ last p "" = targetNodeId.

Lemma admissible_snoc (path : list string) (neighborId : string) :
  admissible path ->
  (Z.of_nat (List.length path) < maxHops)%Z ->
  includes neighborId path = false ->
  admissible (path ++ [neighborId]).
Proof.
  intros [Hnd [Hlen _]] Hlt Hnew. apply JSSet_has_false in Hnew.
  unfold admissible. rewrite length_app. simpl. split; [| split; [lia | right; lia]].
  apply NoDup_app; [assumption | repeat constructor; simpl; tauto |].
  intros x Hx [<- | []]. contradiction.
Qed.

Section Extension.
Variable path : list string.
Variable currentNode : string.
Hypothesis Hpath : admissible path.
Hypothesis Hroom : (Z.of_nat (List.length path) < maxHops)%Z.

Lemma extendAlong_admissible : forall neighbors queue visited,
    Forall admissible queue ->
    Forall admissible (fst (extendAlong path currentNode neighbors queue visited)).
Proof.
  induction neighbors as [| nb rest IH]; simpl; intros queue visited Hq;
    [assumption |].
  destruct (negb (String.eqb nb currentNode) && negb (includes nb path)) eqn:E;
    [| now apply IH].
  apply andb_true_iff in E. destruct E as [_ E]. apply negb_true_iff in E.
  destruct (negb (JSSet.has _ visited)); apply IH; [| assumption].
  apply Forall_app. split; [assumption |].
  constructor; [| constructor]. now apply admissible_snoc.
Qed.

Lemma extend_admissible : forall es queue visited,
    Forall admissible queue ->
    Forall admissible (fst (extend path currentNode es queue visited)).
Proof.
  induction es as [| [edgeId edge] rest IH]; simpl; intros queue visited Hq;
    [assumption |].
  destruct (includes currentNode (HyperEdge.nodes edge)); [| now apply IH].
  pose proof (extendAlong_admissible (HyperEdge.nodes edge) queue visited Hq) as H.
  destruct (extendAlong _ _ _ _ _) as [q v]. now apply IH.
Qed.
End Extension.

Lemma search_arrived : forall fuel queue visited paths found,
    Forall admissible queue ->
    Forall arrived paths ->
    search fuel edges targetNodeId maxHops queue visited paths = Some found ->
    Forall arrived found.
Proof.
  induction fuel as [| fuel IH]; simpl; intros queue visited paths found Hq Hp H;
    [discriminate |].
  destruct queue as [| path queue]; [now injection H as <- |].
  inversion Hq as [| ? ? Hpath Hrest]; subst.
  destruct (String.eqb (last path "") targetNodeId) eqn:Et.
  - apply (IH _ _ _ _ Hrest) in H; [assumption |].
    apply Forall_app. split; [assumption |].
    constructor; [| constructor]. split; [assumption | now apply String.eqb_eq].
  - destruct (maxHops <=? Z.of_nat (List.length path))%Z eqn:Eh.
    + now apply (IH _ _ _ _ Hrest Hp) in H.
    + apply Z.leb_gt in Eh.
      pose proof (extend_admissible path (last path "") Hpath Eh edges queue visited
                    Hrest) as Hext.
      destruct (extend _ _ _ _ _) as [q v]. now apply (IH _ _ _ _ Hext Hp) in H.
Qed.

(** *** The loop ends within its bound *)

Definition base : nat := S (slots edges).

Definition weight (p : list string) : nat :=
  base ^ (Z.to_nat maxHops - List.length p).

Definition load (queue : list (list string)) : nat :=
  list_sum (map weight queue).

Lemma base_pow_pos (n : nat) : 1 <= base ^ n.
Proof. unfold base. induction n as [| n IH]; simpl; lia. Qed.

Lemma weight_pos (p : list string) : 1 <= weight p.
Proof. apply base_pow_pos. Qed.

Lemma load_app (q1 q2 : list (list string)) : load (q1 ++ q2) = load q1 + load q2.
Proof. unfold load. now rewrite map_app, list_sum_app. Qed.

Lemma load_uniform (k : nat) (new : list (list string)) :
  Forall (fun p => List.length p = k) new ->
  load new = List.length new * base ^ (Z.to_nat maxHops - k).
Proof.
  induction 1 as [| p new Hp _ IH]; [reflexivity |].
  unfold load in *. simpl. rewrite IH. unfold weight. now rewrite Hp.
Qed.

Section Growth.
Variable path : list string.
Variable currentNode : string.

Definition grown (queue queue' : list (list string)) (bound : nat) : Prop :=
  exists new, queue' = queue ++ new /\ List.length new <= bound /\
              Forall (fun p => List.length p = S (List.length path)) new.

Lemma extendAlong_grown : forall neighbors queue visited,
    grown queue (fst (extendAlong path currentNode neighbors queue visited))
          (List.length neighbors).
Proof.
  induction neighbors as [| nb rest IH]; simpl; intros queue visited.
  - exists []. rewrite app_nil_r. auto.
  - assert (Hskip : grown queue
                (fst (extendAlong path currentNode rest queue visited))
                (S (List.length rest))).
    { destruct (IH queue visited) as [new [H1 [H2 H3]]]. exists new. auto. }
    destruct (negb (String.eqb nb currentNode) && negb (includes nb path));
      [| exact Hskip].
    destruct (negb (JSSet.has _ visited)); [| exact Hskip].
    destruct (IH (queue ++ [path ++ [nb]])
                 (JSSet.add (join "-" (path ++ [nb])) visited))
      as [new [H1 [H2 H3]]].
    exists ((path ++ [nb]) :: new). rewrite H1, <- app_assoc. simpl.
    split; [reflexivity |]. split; [lia |].
    constructor; [| assumption]. rewrite length_app. simpl. lia.
Qed.

Lemma extend_grown : forall es queue visited,
    grown queue (fst (extend path currentNode es queue visited)) (slots es).
Proof.
  induction es as [| [edgeId edge] rest IH]; simpl; intros queue visited.
  - exists []. rewrite app_nil_r. unfold slots. simpl. auto.
  - assert (Hslots : slots ((edgeId, edge) :: rest) =
                     List.length (HyperEdge.nodes edge) + slots rest)
      by reflexivity.
    destruct (includes currentNode (HyperEdge.nodes edge)).
    + pose proof (extendAlong_grown (HyperEdge.nodes edge) queue visited) as H.
      destruct (extendAlong _ _ _ _ _) as [q v]. simpl in H.
      destruct H as [new1 [-> [Hl1 Hf1]]].
      destruct (IH (queue ++ new1) v) as [new2 [H2 [Hl2 Hf2]]].
      exists (new1 ++ new2). rewrite H2, <- app_assoc.
      split; [reflexivity |]. split; [rewrite length_app; lia |].
      apply Forall_app. auto.
    + destruct (IH queue visited) as [new [H1 [H2 H3]]]. exists new.
      split; [assumption |]. split; [lia | assumption].
Qed.
End Growth.

Lemma search_within : forall fuel queue visited paths,
    load queue < fuel ->
    search fuel edges targetNodeId maxHops queue visited paths <> None.
Proof.
  induction fuel as [| fuel IH]; simpl; intros queue visited paths Hlt; [lia |].
  destruct queue as [| path queue]; [discriminate |].
  assert (Hload : load (path :: queue) = weight path + load queue) by reflexivity.
  pose proof (weight_pos path) as Hpos.
  destruct (String.eqb (last path "") targetNodeId); [apply IH; lia |].
  destruct (maxHops <=? Z.of_nat (List.length path))%Z eqn:Eh; [apply IH; lia |].
  apply Z.leb_gt in Eh.
  pose proof (extend_grown path (last path "") edges queue visited) as Hg.
  destruct (extend _ _ _ _ _) as [q v]. simpl in Hg.
  destruct Hg as [new [-> [Hlen Huni]]].
  apply IH. rewrite load_app, (load_uniform _ _ Huni).
  assert (Hstep : Z.to_nat maxHops - List.length path =
                  S (Z.to_nat maxHops - S (List.length path))) by lia.
  unfold weight in Hload, Hpos. rewrite Hstep in Hload, Hpos. simpl in Hload, Hpos.
  fold base in Hload, Hpos.
  set (w := base ^ (Z.to_nat maxHops - S (List.length path))) in *.
  assert (Hnew : List.length new * w <= slots edges * w)
    by (apply Nat.mul_le_mono_r; exact Hlen).
  assert (Hw : 1 <= w) by apply base_pow_pos.
  unfold base in Hload. simpl in Hload. lia.
Qed.

Lemma search_total (sourceNodeId : string) :
  search (turns edges maxHops) edges targetNodeId maxHops [[sourceNodeId]] [] []
  <> None.
Proof.
  apply search_within. unfold load, weight, turns, base. simpl. lia.
Qed.
End PathSearch.

Section PathTheorems.
Import HyperGraphNeuralNetwork HyperGraphScenarios.

Lemma firstn_subset (A : Type) (n : nat) (l : list A) (x : A) :
  In x (firstn n l) -> In x l.
Proof.
  revert l. induction n as [| n IH]; intros [| y l]; simpl; try tauto.
  intros [-> | H]; auto.
Qed.

Lemma findCrossDomainPaths_arrived (sourceNodeId targetNodeId : string)
    (maxHops : Z) (g : t) (r : FoundPath.t) :
  In r (findCrossDomainPaths sourceNodeId targetNodeId maxHops g) ->
  exists p, r = describe g p /\ arrived targetNodeId maxHops p.
Proof.
  unfold findCrossDomainPaths. intros H.
  destruct (search _ _ _ _ _ _ _) as [found |] eqn:E; [| contradiction].
  apply in_map_iff in H. destruct H as [p [<- Hp]]. exists p. split; [reflexivity |].
  apply search_arrived in E; [| | constructor].
  - rewrite Forall_forall in E. now apply E.
  - constructor; [| constructor]. split; [repeat constructor; simpl; tauto |].
    simpl. split; [lia | left; lia].
Qed.

(** C6, as the code has it.  For a non-negative [maxHops], every entry
    of the list a cross-domain query returns has a [length] that counts
    the edges of its path and is at most [maxHops] (indeed below it, when
    not zero), a path with no id twice, and a last id under which the
    index holds a node of the target system. *)
Theorem crossDomainQuery_paths (hgnn : t)
    (sourceSystem sourceEntity targetSystem : string) (maxHops : Z)
    (r : FoundPath.t) :
  (0 <= maxHops)%Z ->
  In r (Hyperd.paths
          (Hyperd.crossDomainQuery sourceSystem sourceEntity targetSystem
             maxHops hgnn)) ->
  FoundPath.length r = (Z.of_nat (List.length (FoundPath.path r)) - 1)%Z /\
  (0 <= FoundPath.length r <= maxHops)%Z /\
  (FoundPath.length r = 0 \/ FoundPath.length r < maxHops)%Z /\
  NoDup (FoundPath.path r) /\
  exists node, In (last (FoundPath.path r) "", node) (JSMap.entries (nodes hgnn)) /\
               system node = targetSystem.
Proof.
  intros Hhops Hin. unfold Hyperd.crossDomainQuery in Hin.
  cbv beta zeta iota delta [Hyperd.paths] in Hin.
  apply firstn_subset in Hin. apply in_flat_map in Hin.
  destruct Hin as [target [Ht Hr]].
  apply in_map_iff in Ht. destruct Ht as [exported [<- Hexp]].
  apply filter_In in Hexp. destruct Hexp as [Hexp Hsys].
  apply String.eqb_eq in Hsys.
  unfold exportNodes in Hexp. apply in_map_iff in Hexp.
  destruct Hexp as [[key node] [<- Hentry]]. simpl in *.
  apply findCrossDomainPaths_arrived in Hr.
  destruct Hr as [p [-> [[Hnd [Hlen Hbound]] Hlast]]]. simpl.
  split; [reflexivity |]. split; [lia |]. split; [lia |]. split; [assumption |].
  exists node. rewrite Hlast. split; assumption.
Qed.

Lemma crossDomainQuery_paths_witness :
  (0 <= 2)%Z /\
  In (FoundPath.mk ["crm:c1"; "mrp:m1"] 1 ["crm"; "mrp"])
     (Hyperd.paths (Hyperd.crossDomainQuery "crm" "c1" "mrp" 2 linked)) /\
  (1 = Z.of_nat 2 - 1)%Z /\
  (0 <= 1 <= 2)%Z /\
  (1 = 0 \/ 1 < 2)%Z /\
  NoDup ["crm:c1"; "mrp:m1"] /\
  exists node, In ("mrp:m1", node) (JSMap.entries (nodes linked)) /\
               system node = "mrp".
Proof.
  split; [lia |]. split; [simpl; auto |].
  apply (crossDomainQuery_paths linked "crm" "c1" "mrp" 2
           (FoundPath.mk ["crm:c1"; "mrp:m1"] 1 ["crm"; "mrp"])).
  - lia.
  - simpl. auto.
Defined.

(** C6 fails as stated: a source that is itself of the target system is
    returned as a path of no edge whatever [maxHops] is, also below zero. *)
Lemma negative_maxHops_returns_source :
  Hyperd.paths (Hyperd.crossDomainQuery "crm" "c1" "crm" (-1) linked) =
    [FoundPath.mk ["crm:c1"] 0 ["crm"]] /\
  ~ (FoundPath.length (FoundPath.mk ["crm:c1"] 0 ["crm"]) <= -1)%Z.
Proof. split; [reflexivity | simpl; lia]. Qed.

(** Scenario 4. *)
Example scenario4_paths :
  Hyperd.crossDomainQuery "crm" "c1" "mrp" 2 linked =
  Hyperd.mkQueryResult "crm" "c1" "mrp" 1
    [FoundPath.mk ["crm:c1"; "mrp:m1"] 1 ["crm"; "mrp"]].
Proof. reflexivity. Qed.

(** Scenario 5: no node of system [lms], no path, no error. *)
Example scenario5_paths :
  Hyperd.crossDomainQuery "crm" "c1" "lms" 1 linked =
  Hyperd.mkQueryResult "crm" "c1" "lms" 0 [].
Proof. reflexivity. Qed.

(** With [maxHops] at one a neighbour across one edge is out of reach:
    the bound is on the ids of a path, one more than its edges. *)
Example one_hop_finds_nothing :
  Hyperd.pathsFound (Hyperd.crossDomainQuery "crm" "c1" "mrp" 1 linked) = 0.
Proof. reflexivity. Qed.
End PathTheorems.

(** ** Side conditions of the model *)

Section ModelSideConditions.
Import ComputationalGraph.

(** A graph that was only built holds no stored order, so [execute] orders
    it first. *)
Lemma built_fresh (g : t) : built g -> executionOrder g = [].
Proof. induction 1; simpl; auto. Qed.

(** The fuel of the traversal never runs out: the error that stands for it
    is never thrown. *)
Lemma buildExecutionOrder_within_stack (g : t) :
  snd (buildExecutionOrder g) <> Throw RecursionLimit.
Proof.
  destruct (buildExecutionOrder g) as [g' [o | e]] eqn:E; simpl; [discriminate |].
  apply buildExecutionOrder_throw in E. destruct E as [_ [x [-> _]]]. discriminate.
Qed.

(** The fuel of the path search never runs out: what
    [findCrossDomainPaths] returns is what its loop found. *)
Lemma findCrossDomainPaths_found (sourceNodeId targetNodeId : string)
    (maxHops : Z) (g : HyperGraphNeuralNetwork.t) :
  exists found,
    HyperGraphNeuralNetwork.search
      (HyperGraphNeuralNetwork.turns (HyperGraphNeuralNetwork.hyperEdges g) maxHops)
      (HyperGraphNeuralNetwork.hyperEdges g) targetNodeId maxHops
      [[sourceNodeId]] [] [] = Some found /\
    HyperGraphNeuralNetwork.findCrossDomainPaths sourceNodeId targetNodeId maxHops g =
      map (HyperGraphNeuralNetwork.describe g) found.
Proof.
  unfold HyperGraphNeuralNetwork.findCrossDomainPaths, JSMap.entries.
  pose proof (search_total (HyperGraphNeuralNetwork.hyperEdges g) targetNodeId maxHops
                sourceNodeId) as Htotal.
  destruct (HyperGraphNeuralNetwork.search _ _ _ _ _ _ _) as [found |];
    [| contradiction].
  exists found. split; reflexivity.
Qed.

(** [Map.set] keeps keys unique, and under unique keys an entry is what
    [get] returns. *)
Lemma JSMap_set_keys (V : Type) (k : string) (v : V) (m : JSMap.t V) (x : string) :
  In x (JSMap.keys (JSMap.set k v m)) <-> x = k \/ In x (JSMap.keys m).
Proof.
  induction m as [| [k' v'] m IH]; simpl.
  - intuition.
  - destruct (String.eqb_spec k k') as [-> | Hne]; simpl.
    + intuition.
    + rewrite IH. intuition.
Qed.

Lemma JSMap_set_NoDup (V : Type) (k : string) (v : V) (m : JSMap.t V) :
  NoDup (JSMap.keys m) -> NoDup (JSMap.keys (JSMap.set k v m)).
Proof.
  induction m as [| [k' v'] m IH]; simpl; intros Hnd.
  - repeat constructor. simpl. tauto.
  - inversion Hnd as [| ? ? Hnotin Hrest]; subst.
    destruct (String.eqb_spec k k') as [-> | Hne]; simpl.
    + now constructor.
    + constructor; [| now apply IH].
      rewrite JSMap_set_keys. intros [Heq | Hin]; [congruence | contradiction].
Qed.

Lemma JSMap_entry_get (V : Type) (k : string) (v : V) (m : JSMap.t V) :
  NoDup (JSMap.keys m) -> In (k, v) m -> JSMap.get k m = Some v.
Proof.
  induction m as [| [k' v'] m IH]; simpl; intros Hnd Hin; [contradiction |].
  inversion Hnd as [| ? ? Hnotin Hrest]; subst.
  destruct Hin as [Heq | Hin].
  - injection Heq as -> ->. now rewrite String.eqb_refl.
  - destruct (String.eqb_spec k k') as [-> | Hne]; [| now apply IH].
    exfalso. apply Hnotin. apply in_map_iff. exists (k', v). auto.
Qed.

(** [visited] in [propagate] holds distinct ids and never loses one. *)
Lemma JSSet_add_NoDup (x : string) (s : JSSet.t) : NoDup s -> NoDup (JSSet.add x s).
Proof.
  intros Hnd. unfold JSSet.add. destruct (JSSet.has x s) eqn:E; [assumption |].
  apply JSSet_has_false in E. apply NoDup_app; [assumption | repeat constructor; simpl; tauto |].
  intros y Hy [<- | []]. contradiction.
Qed.

Lemma collect_visited (ns : JSMap.t HyperGraphNeuralNetwork.Node) :
  forall ids visited found,
    NoDup visited ->
    NoDup (fst (HyperGraphNeuralNetwork.collect ns ids visited found)) /\
    forall x, In x visited ->
              In x (fst (HyperGraphNeuralNetwork.collect ns ids visited found)).
Proof.
  induction ids as [| y ids IH]; simpl; intros visited found Hnd; [tauto |].
  destruct (JSSet.has y visited) eqn:E; simpl; [now apply IH |].
  assert (Hadd : NoDup (JSSet.add y visited)) by now apply JSSet_add_NoDup.
  assert (Hkeep : forall x, In x visited -> In x (JSSet.add y visited))
    by (intros x Hx; apply JSSet_add_In; now right).
  destruct (JSMap.get y ns);
    (split; [now apply IH | intros x Hx; apply IH; auto]).
Qed.

Lemma rounds_visited (Math_exp : float -> float) (g : HyperGraphNeuralNetwork.t) :
  forall left current visited current' visited',
    HyperGraphNeuralNetwork.rounds Math_exp g left current visited =
      Ok (current', visited') ->
    NoDup visited ->
    NoDup visited' /\ forall x, In x visited -> In x visited'.
Proof.
  induction left as [| left IH]; cbn [HyperGraphNeuralNetwork.rounds];
    intros current visited current' visited' H Hnd.
  - injection H as _ <-. tauto.
  - destruct (HyperGraphNeuralNetwork.relevantEdges g visited) as [| e es] eqn:Er.
    + injection H as _ <-. tauto.
    + pose proof (collect_visited (HyperGraphNeuralNetwork.nodes g)
                    (flat_map HyperEdge.nodes (e :: es)) visited [] Hnd) as [Hc1 Hc2].
      destruct (HyperGraphNeuralNetwork.collect _ _ _ _) as [v nbrs]. simpl in Hc1, Hc2.
      destruct nbrs as [| nb nbrs].
      * destruct (IH _ _ _ _ H Hc1) as [H1 H2]. auto.
      * destruct (HyperGraphEmbedding.fromMultipleEmbeddings _ _) as [upd | err];
          [| discriminate].
        destruct (IH _ _ _ _ H Hc1) as [H1 H2]. auto.
Qed.

(** [nodesVisited] counts distinct ids, the source among them. *)
Lemma propagate_nodesVisited (Math_exp : float -> float) (targetNodeId : string)
    (hops : Z) (g : HyperGraphNeuralNetwork.t)
    (r : HyperGraphNeuralNetwork.Propagation) :
  HyperGraphNeuralNetwork.propagate Math_exp targetNodeId hops g = Ok r ->
  exists visited,
    NoDup visited /\ In targetNodeId visited /\
    HyperGraphNeuralNetwork.nodesVisited r = List.length visited.
Proof.
  unfold HyperGraphNeuralNetwork.propagate.
  destruct (JSMap.get _ _) as [target |]; [| discriminate].
  destruct (HyperGraphNeuralNetwork.rounds _ _ _ _ _) as [[e v] | err] eqn:E;
    [| discriminate].
  intros [= <-]. simpl. exists v.
  destruct (rounds_visited _ _ _ _ _ _ _ E) as [H1 H2].
  - repeat constructor. simpl. tauto.
  - split; [assumption |]. split; [apply H2; now left | reflexivity].
Qed.
End ModelSideConditions.

(** * Further properties of the task graph *)

Section AddNodeProperties.
Import ComputationalGraph.

(** A node with [c] more copies of [id] at the end of its outputs. *)
Definition withOutputs (id : string) (c : nat) (n : Node.t) : Node.t :=
  Node.mk (Node.id n) (Node.system n) (Node.operation n) (Node.inputs n)
    (Node.outputs n ++ repeat id c) (Node.status n) (Node.result n).

Lemma withOutputs_0 (id : string) (n : Node.t) : withOutputs id 0 n = n.
Proof. destruct n. unfold withOutputs. simpl. now rewrite app_nil_r. Qed.

Lemma withOutputs_S (id : string) (c : nat) (n : Node.t) :
  withOutputs id c (Node.addOutput id n) = withOutputs id (S c) n.
Proof.
  unfold withOutputs, Node.addOutput. simpl. now rewrite <- app_assoc.
Qed.

(** The loop of [addNode] gives each node of the map one output per
    occurrence of its id in [inputs], and adds no entry. *)
Lemma connectOutputs_get (id : string) : forall inputs ns k,
    JSMap.get k (connectOutputs id inputs ns) =
    option_map (withOutputs id (count_occ string_dec inputs k)) (JSMap.get k ns).
Proof.
  induction inputs as [| i rest IH]; simpl; intros ns k.
  - destruct (JSMap.get k ns); simpl; [now rewrite withOutputs_0 | reflexivity].
  - destruct (JSMap.get i ns) as [inode |] eqn:Ei; rewrite IH.
    + destruct (string_dec i k) as [-> | Hne].
      * rewrite JSMap_get_set_same, Ei. simpl. now rewrite withOutputs_S.
      * rewrite JSMap_get_set_other by congruence. reflexivity.
    + destruct (string_dec i k) as [-> | Hne]; [| reflexivity].
      now rewrite Ei.
Qed.

(** X1. [addNode] then [getNode]: the node is stored under its id with the
    fields it was given, status [pending] and result [null], whatever was
    stored under that id before; it is the node the call returns.  Its
    outputs hold its own id once per occurrence among its inputs. *)
Theorem addNode_getNode (id system operation : string) (inputs : list string)
    (g : t) :
  let stored :=
    Node.mk id system operation inputs
      (repeat id (count_occ string_dec inputs id)) pending Null in
  getNode id (fst (addNode id system operation inputs g)) = Some stored /\
  snd (addNode id system operation inputs g) = stored.
Proof.
  unfold addNode, getNode. simpl.
  rewrite connectOutputs_get, JSMap_get_set_same. simpl. split; reflexivity.
Qed.

(** X2. [addNode] and the other nodes: a node stored under another id keeps
    every field and gains the new id in its outputs once per occurrence of
    its own id in the new node's inputs; an id that is no node stays no
    node, so an unknown input creates nothing. *)
Theorem addNode_wires_outputs (id system operation : string)
    (inputs : list string) (g : t) (k : string) :
  k <> id ->
  getNode k (fst (addNode id system operation inputs g)) =
  option_map (withOutputs id (count_occ string_dec inputs k)) (getNode k g).
Proof.
  intros Hne. unfold addNode, getNode. simpl.
  now rewrite connectOutputs_get, JSMap_get_set_other.
Qed.

Lemma addNode_wires_outputs_witness :
  "A" <> "C" /\
  getNode "A" (fst (addNode "C" "scm" "getERPSCMAnalysis" ["A"; "B"]
                      (fst (addNode "A" "scm" "getERPSCMAnalysis" [] new)))) =
  option_map (withOutputs "C" (count_occ string_dec ["A"; "B"] "A"))
    (getNode "A" (fst (addNode "A" "scm" "getERPSCMAnalysis" [] new))).
Proof.
  split; [discriminate |].
  apply (addNode_wires_outputs "C" "scm" "getERPSCMAnalysis" ["A"; "B"]
           (fst (addNode "A" "scm" "getERPSCMAnalysis" [] new)) "A").
  discriminate.
Defined.
End AddNodeProperties.

Section OrderProperties.
Import ComputationalGraph.

(** A loop invariant carried through [forEach]. *)
Lemma forEach_preserves (step : string -> VisitState -> option (Result VisitState))
    (P : VisitState -> Prop) (Q : string -> Prop) :
  (forall x st st', Q x -> P st -> step x st = Some (Ok st') -> P st') ->
  forall ids st st',
    (forall x, In x ids -> Q x) -> P st ->
    forEach step ids st = Some (Ok st') -> P st'.
Proof.
  intros Hstep. induction ids as [| x ids IH]; simpl; intros st st' HQ HP H.
  - now injection H as <-.
  - destruct (step x st) as [[st1 | e] |] eqn:E; try discriminate.
    apply (IH st1 st'); auto. apply (Hstep x st st1); auto.
Qed.

(** The ids somebody named: the keys of the node map and the inputs of its
    nodes. *)
Definition mentioned (ns : JSMap.t Node.t) (x : string) : Prop :=
  In x (JSMap.keys ns) \/ exists n, edge ns n x.

Lemma visit_mentioned (ns : JSMap.t Node.t) : forall fuel n st st',
    mentioned ns n ->
    (forall x, In x (order st) -> mentioned ns x) ->
    visit ns fuel n st = Some (Ok st') ->
    forall x, In x (order st') -> mentioned ns x.
Proof.
  induction fuel as [| fuel IH]; simpl; intros n st st' Hn Hst H; [discriminate |].
  destruct (JSSet.has n (tempMark st)); [discriminate |].
  destruct (JSSet.has n (visited st)); simpl in H; [now injection H as <- |].
  destruct (JSMap.get n ns) as [node |] eqn:EN.
  - destruct (forEach _ _ _) as [[st2 | e] |] eqn:EF; try discriminate.
    injection H as <-. simpl. intros x Hx. apply in_app_or in Hx.
    destruct Hx as [Hx | [<- | []]]; [| assumption].
    revert x Hx.
    apply (forEach_preserves (visit ns fuel)
             (fun s => forall x, In x (order s) -> mentioned ns x)
             (mentioned ns)) with (4 := EF).
    + intros y s s' Hy Hs E. eapply IH; eassumption.
    + intros y Hy. right. exists n, node. split; assumption.
    + exact Hst.
  - injection H as <-. simpl. intros x Hx. apply in_app_or in Hx.
    destruct Hx as [Hx | [<- | []]]; auto.
Qed.

Lemma visitAll_mentioned (ns : JSMap.t Node.t) (fuel : nat) (st : VisitState) :
  visitAll ns fuel = Some (Ok st) ->
  forall x, In x (order st) -> mentioned ns x.
Proof.
  unfold visitAll. intros Hv.
  apply (forEach_preserves (visitKey ns fuel)
           (fun s => forall x, In x (order s) -> mentioned ns x)
           (fun k => In k (JSMap.keys ns))) with (4 := Hv).
  - intros k s s' Hk Hs' E. unfold visitKey in E. destruct (negb _).
    + eapply visit_mentioned; [left; exact Hk | exact Hs' | exact E].
    + now injection E as <-.
  - auto.
  - simpl. tauto.
Qed.

Lemma JSMap_key_get (V : Type) (k : string) (m : JSMap.t V) :
  In k (JSMap.keys m) -> JSMap.get k m <> None.
Proof.
  induction m as [| [k' v'] m IH]; simpl; intros H; [contradiction |].
  destruct (String.eqb_spec k k') as [-> | Hne]; [discriminate |].
  destruct H as [Heq | H]; [congruence | now apply IH].
Qed.

Lemma buildExecutionOrder_acyclic_graph (g g' : t) (order : list string) :
  buildExecutionOrder g = (g', Ok order) -> forall n, ~ onCycle g n.
Proof.
  intros H n Hn. apply buildExecutionOrder_ok in H. destruct H as [st [Hv _]].
  destruct (order_decreases _ _ _ _ _ Hv Hn) as [p [p' [Hp [Hp' Hlt]]]].
  rewrite Hp in Hp'. injection Hp' as <-. lia.
Qed.

(** X3. On a graph in which no node is reachable from itself,
    [buildExecutionOrder] returns an order: the cycle error is its only
    failure.  The order is stored in the graph, whose nodes and systems are
    as they were. *)
Theorem buildExecutionOrder_succeeds (g : t) :
  (forall n, ~ onCycle g n) ->
  exists order,
    buildExecutionOrder g = (mk (nodes g) order (systems g), Ok order).
Proof.
  intros Hacyclic. destruct (buildExecutionOrder g) as [g' [o | e]] eqn:EB.
  - exists o. pose proof (buildExecutionOrder_ok _ _ _ EB) as [st [_ [_ ->]]].
    reflexivity.
  - apply buildExecutionOrder_throw in EB. destruct EB as [_ [x [_ Hx]]].
    exfalso. exact (Hacyclic x Hx).
Qed.

Lemma buildExecutionOrder_succeeds_witness :
  (forall n, ~ onCycle TaskGraphScenarios.abc n) /\
  exists order,
    buildExecutionOrder TaskGraphScenarios.abc =
    (mk (nodes TaskGraphScenarios.abc) order (systems TaskGraphScenarios.abc),
     Ok order).
Proof.
  assert (H : forall n, ~ onCycle TaskGraphScenarios.abc n).
  { apply (buildExecutionOrder_acyclic_graph TaskGraphScenarios.abc
             (fst (buildExecutionOrder TaskGraphScenarios.abc)) ["A"; "B"; "C"]).
    reflexivity. }
  split; [exact H |].
  apply (buildExecutionOrder_succeeds TaskGraphScenarios.abc). exact H.
Defined.

(** X4. What a returned order holds: every node of the graph, no id twice,
    and nothing but nodes of the graph and ids that some node names as an
    input. *)
Theorem buildExecutionOrder_content (g g' : t) (order : list string) :
  buildExecutionOrder g = (g', Ok order) ->
  NoDup order /\
  (forall k, In k (JSMap.keys (nodes g)) -> In k order) /\
  (forall x, In x order ->
             In x (JSMap.keys (nodes g)) \/ exists n, inputEdge g n x).
Proof.
  intros H. apply buildExecutionOrder_ok in H. destruct H as [st [Hv [-> _]]].
  destruct (visitAll_ok _ _ _ Hv) as [Hs Hkeys].
  split; [exact (sound_nodup _ _ Hs) |]. split; [exact Hkeys |].
  exact (visitAll_mentioned _ _ _ Hv).
Qed.

Lemma buildExecutionOrder_content_witness :
  buildExecutionOrder TaskGraphScenarios.dangling =
    (fst (buildExecutionOrder TaskGraphScenarios.dangling), Ok ["X"; "B"]) /\
  NoDup ["X"; "B"] /\
  (forall k, In k (JSMap.keys (nodes TaskGraphScenarios.dangling)) ->
             In k ["X"; "B"]) /\
  (forall x, In x ["X"; "B"] ->
             In x (JSMap.keys (nodes TaskGraphScenarios.dangling)) \/
             exists n, inputEdge TaskGraphScenarios.dangling n x).
Proof.
  split; [reflexivity |].
  apply (buildExecutionOrder_content TaskGraphScenarios.dangling
           (fst (buildExecutionOrder TaskGraphScenarios.dangling)) ["X"; "B"]).
  reflexivity.
Defined.
End OrderProperties.

Section InsertionOrder.
Import ComputationalGraph.

(** Every entry names as inputs only keys of entries before it. *)
Fixpoint declaredInOrder (done : list string) (entries : JSMap.t Node.t) : bool :=
  match entries with
  | [] => true
  | (k, node) :: rest =>
      forallb (fun i => includes i done) (Node.inputs node)
      && declaredInOrder (done ++ [k]) rest
  end.

Lemma JSMap_get_middle (V : Type) (pre post : JSMap.t V) (k : string) (v : V) :
  ~ In k (JSMap.keys pre) -> JSMap.get k (pre ++ (k, v) :: post) = Some v.
Proof.
  induction pre as [| [k' v'] pre IH]; simpl; intros Hk.
  - now rewrite String.eqb_refl.
  - destruct (String.eqb_spec k k') as [-> | Hne]; [exfalso; auto |].
    apply IH. auto.
Qed.

Lemma JSSet_add_fresh (x : string) (s : JSSet.t) :
  ~ In x s -> JSSet.add x s = s ++ [x].
Proof.
  intros H. unfold JSSet.add. apply JSSet_has_false in H. now rewrite H.
Qed.

Lemma visit_S (ns : JSMap.t Node.t) (fuel : nat) (n : string) (st : VisitState) :
  visit ns (S fuel) n st =
  if JSSet.has n (tempMark st) then Some (Throw (CycleDetected n))
  else if negb (JSSet.has n (visited st)) then
    match
      match JSMap.get n ns with
      | Some node =>
          forEach (visit ns fuel) (Node.inputs node)
            (mkVisit (JSSet.add n (tempMark st)) (visited st) (order st))
      | None => Some (Ok (mkVisit (JSSet.add n (tempMark st)) (visited st) (order st)))
      end
    with
    | Some (Ok st2) =>
        Some (Ok (mkVisit (JSSet.delete n (tempMark st2))
                          (JSSet.add n (visited st2)) (order st2 ++ [n])))
    | Some (Throw e) => Some (Throw e)
    | None => None
    end
  else Some (Ok st).
Proof.
  cbn [visit]. destruct (JSSet.has n (tempMark st)); [reflexivity |].
  destruct (negb (JSSet.has n (visited st))); [| reflexivity].
  destruct (JSMap.get n ns) as [node |]; [| reflexivity].
  destruct (forEach _ _ _) as [[st2 | e] |]; reflexivity.
Qed.

(** Inputs that are all visited leave the state as it is. *)
Lemma forEach_visited (ns : JSMap.t Node.t) (fuel : nat) (st : VisitState) :
  forall ids,
    (forall i, In i ids -> In i (visited st) /\ ~ In i (tempMark st)) ->
    forEach (visit ns (S fuel)) ids st = Some (Ok st).
Proof.
  induction ids as [| i ids IH]; intros H; [reflexivity |].
  destruct (H i (or_introl eq_refl)) as [Hv Ht].
  apply JSSet_has_In in Hv. apply JSSet_has_false in Ht.
  cbn [forEach]. rewrite visit_S, Ht, Hv. cbn [negb].
  apply IH. intros j Hj. apply H. now right.
Qed.

(** The visit of a key whose inputs are all visited appends the key. *)
Lemma visitKey_fresh (ns : JSMap.t Node.t) (fuel : nat) (k : string)
    (node : Node.t) (done : list string) :
  JSMap.get k ns = Some node ->
  ~ In k done ->
  (forall i, In i (Node.inputs node) -> In i done) ->
  visitKey ns (S (S fuel)) k (mkVisit [] done done) =
  Some (Ok (mkVisit [] (done ++ [k]) (done ++ [k]))).
Proof.
  intros Hget Hfresh Hins.
  pose proof (proj2 (JSSet_has_false k done) Hfresh) as Hhas.
  unfold visitKey. cbn [visited]. rewrite Hhas. cbn [negb].
  rewrite visit_S. cbn [tempMark visited order]. rewrite Hhas, Hget. cbn [negb].
  change (JSSet.has k []) with false. cbn iota.
  change (JSSet.add k []) with [k].
  rewrite forEach_visited.
  - cbn [tempMark visited order]. rewrite (JSSet_add_fresh _ _ Hfresh).
    unfold JSSet.delete. cbn [filter]. rewrite String.eqb_refl. reflexivity.
  - intros i Hi. cbn [tempMark visited]. split; [now apply Hins |].
    intros [<- | []]. apply Hfresh. now apply Hins.
Qed.

Lemma visitKeys_in_order (ns : JSMap.t Node.t) (fuel : nat) :
  forall rest pre,
    ns = pre ++ rest ->
    NoDup (JSMap.keys ns) ->
    declaredInOrder (JSMap.keys pre) rest = true ->
    forEach (visitKey ns (S (S fuel))) (JSMap.keys rest)
      (mkVisit [] (JSMap.keys pre) (JSMap.keys pre)) =
    Some (Ok (mkVisit [] (JSMap.keys ns) (JSMap.keys ns))).
Proof.
  induction rest as [| [k node] rest IH]; intros pre Hns Hnd Hdecl.
  - subst ns. now rewrite app_nil_r.
  - simpl in Hdecl. apply andb_true_iff in Hdecl. destruct Hdecl as [Hins Hdecl].
    assert (Hfresh : ~ In k (JSMap.keys pre)).
    { subst ns. unfold JSMap.keys in Hnd |- *. rewrite map_app in Hnd. simpl in Hnd.
      apply NoDup_remove_2 in Hnd. intros Hin. apply Hnd. apply in_or_app. now left. }
    assert (Hget : JSMap.get k ns = Some node)
      by (subst ns; now apply JSMap_get_middle).
    change (JSMap.keys ((k, node) :: rest)) with (k :: JSMap.keys rest).
    cbn [forEach]. rewrite (visitKey_fresh ns fuel k node _ Hget Hfresh).
    + replace (JSMap.keys pre ++ [k]) with (JSMap.keys (pre ++ [(k, node)]))
        by (unfold JSMap.keys; now rewrite map_app).
      apply IH.
      * subst ns. now rewrite <- app_assoc.
      * assumption.
      * unfold JSMap.keys at 1. rewrite map_app. exact Hdecl.
    + intros i Hi. rewrite forallb_forall in Hins.
      specialize (Hins i Hi). now apply JSSet_has_In in Hins.
Qed.

(** X5. When every node was added after the nodes it names as inputs, and
    in particular when no node has inputs, the execution order is the order
    of insertion. *)
Theorem buildExecutionOrder_insertion_order (g : t) :
  NoDup (JSMap.keys (nodes g)) ->
  declaredInOrder [] (nodes g) = true ->
  snd (buildExecutionOrder g) = Ok (JSMap.keys (nodes g)).
Proof.
  destruct g as [ns stored sys]. cbn [nodes]. intros Hnd Hdecl.
  unfold buildExecutionOrder, visitAll, stackDepth, JSMap.size. cbn [nodes].
  destruct ns as [| entry ns']; [reflexivity |].
  cbn [List.length].
  pose proof (visitKeys_in_order (entry :: ns') (List.length ns') (entry :: ns') []
                eq_refl Hnd Hdecl) as H.
  change (JSMap.keys []) with (@nil string) in H. rewrite H. reflexivity.
Qed.

Lemma buildExecutionOrder_insertion_order_witness :
  NoDup (JSMap.keys (nodes TaskGraphScenarios.abc)) /\
  declaredInOrder [] (nodes TaskGraphScenarios.abc) = true /\
  snd (buildExecutionOrder TaskGraphScenarios.abc) =
    Ok (JSMap.keys (nodes TaskGraphScenarios.abc)).
Proof.
  assert (H : NoDup (JSMap.keys (nodes TaskGraphScenarios.abc))).
  { simpl. repeat constructor; simpl; intuition discriminate. }
  split; [exact H |]. split; [reflexivity |].
  apply (buildExecutionOrder_insertion_order TaskGraphScenarios.abc);
    [exact H | reflexivity].
Defined.
End InsertionOrder.

Section ExecuteProperties.
Import ComputationalGraph.

(** The result map and the nodes tell the same story. *)
Definition agrees (g : t) (results : JSMap.t Value) : Prop :=
  forall k v, JSMap.get k results = Some v ->
              exists node, getNode k g = Some node /\
                           Node.status node = completed /\ Node.result node = v.

Lemma executeLoop_agrees : forall ids g rs tr gm tm rm,
    executeLoop ids g rs tr = mkExecution gm tm (Ok rm) ->
    agrees g rs -> agrees gm rm.
Proof.
  induction ids as [| x rest IH]; intros g rs tr gm tm rm H Hag.
  - now injection H as <- _ <-.
  - rewrite executeLoop_cons in H.
    destruct (getNode x g) as [node0 |] eqn:EN; [| eapply IH; eassumption].
    destruct (turn x node0 g rs) as [calls [r | e']]; [| discriminate].
    apply (IH _ _ _ _ _ _ H). intros k v Hk.
    destruct (String.eqb_spec k x) as [-> | Hne].
    + rewrite JSMap_get_set_same in Hk. injection Hk as <-.
      eexists. unfold afterSuccess. rewrite getNode_updateNode_same.
      repeat split.
    + rewrite JSMap_get_set_other in Hk by assumption.
      destruct (Hag k v Hk) as [node [Hg Hrest]]. exists node.
      unfold afterSuccess. now rewrite !getNode_updateNode_other.
Qed.

Lemma executeLoop_covers : forall ids g rs tr gm tm rm k,
    executeLoop ids g rs tr = mkExecution gm tm (Ok rm) ->
    JSMap.get k rs <> None \/ (In k ids /\ getNode k g <> None) ->
    JSMap.get k rm <> None.
Proof.
  induction ids as [| x rest IH]; intros g rs tr gm tm rm k H Hor.
  - injection H as _ _ <-. destruct Hor as [Hk | [[] _]]. exact Hk.
  - rewrite executeLoop_cons in H.
    destruct (getNode x g) as [node0 |] eqn:EN.
    + destruct (turn x node0 g rs) as [calls [r | e']]; [| discriminate].
      apply (IH _ _ _ _ _ _ k H).
      destruct (String.eqb_spec k x) as [-> | Hne].
      * left. rewrite JSMap_get_set_same. discriminate.
      * destruct Hor as [Hk | [[Heq | Hin] Hnode]].
        -- left. now rewrite JSMap_get_set_other.
        -- congruence.
        -- right. split; [exact Hin |]. unfold afterSuccess.
           now rewrite !getNode_updateNode_other.
    + apply (IH _ _ _ _ _ _ k H).
      destruct Hor as [Hk | [[Heq | Hin] Hnode]]; [now left | congruence | now right].
Qed.

(** X6. When [execute] returns on a graph with no stored order, the map it
    returns has a result for every node of the graph and for nothing else,
    and every node is left [completed] with that result. *)
Theorem execute_returns_all_results (g : t) (results : JSMap.t Value) :
  executionOrder g = [] ->
  outcome (execute g) = Ok results ->
  (forall k, getNode k g <> None ->
     exists v node,
       JSMap.get k results = Some v /\
       getNode k (graph (execute g)) = Some node /\
       Node.status node = completed /\ Node.result node = v) /\
  (forall k, getNode k g = None -> JSMap.get k results = None).
Proof.
  intros Hfresh Hout. rewrite (execute_fresh g Hfresh) in Hout |- *.
  destruct (buildExecutionOrder g) as [g' [o | e]] eqn:EB; [| discriminate].
  pose proof (buildExecutionOrder_ok _ _ _ EB) as [st [Hv [Ho Hg']]].
  destruct (visitAll_ok _ _ _ Hv) as [_ Hkeys].
  assert (Hget : forall k, getNode k g' = getNode k g) by (now rewrite Hg').
  destruct (executeLoop (executionOrder g') g' [] []) as [gm tm out] eqn:EL.
  simpl in Hout |- *. subst out. split.
  - intros k Hk.
    assert (Hin : In k (executionOrder g')).
    { rewrite Hg'. simpl. rewrite Ho. apply Hkeys.
      destruct (getNode k g) as [node |] eqn:E; [| contradiction].
      eapply JSMap_get_In_keys. exact E. }
    pose proof (executeLoop_covers _ _ _ _ _ _ _ k EL) as Hcov.
    destruct (JSMap.get k results) as [v |] eqn:Er.
    + destruct (executeLoop_agrees _ _ _ _ _ _ _ EL) with (k := k) (v := v)
        as [node Hnode]; [intros ? ? Hk'; discriminate | exact Er |].
      exists v, node. tauto.
    + exfalso. apply Hcov; [| reflexivity]. right. split; [exact Hin |].
      now rewrite Hget.
  - intros k Hk. apply (executeLoop_missing k _ _ _ _ _ _ _ EL);
      [now rewrite Hget | reflexivity].
Qed.

Lemma execute_returns_all_results_witness :
  executionOrder TaskGraphScenarios.abc = [] /\
  outcome (execute TaskGraphScenarios.abc) =
    Ok [("A", Int 0); ("B", Int 0); ("C", Int 2)] /\
  (forall k, getNode k TaskGraphScenarios.abc <> None ->
     exists v node,
       JSMap.get k [("A", Int 0); ("B", Int 0); ("C", Int 2)] = Some v /\
       getNode k (graph (execute TaskGraphScenarios.abc)) = Some node /\
       Node.status node = completed /\ Node.result node = v) /\
  (forall k, getNode k TaskGraphScenarios.abc = None ->
     JSMap.get k [("A", Int 0); ("B", Int 0); ("C", Int 2)] = None).
Proof.
  split; [reflexivity |]. split; [reflexivity |].
  apply (execute_returns_all_results TaskGraphScenarios.abc
           [("A", Int 0); ("B", Int 0); ("C", Int 2)]); reflexivity.
Defined.

(** The loop changes statuses and results, never what a node is bound to
    or which systems are registered. *)
Lemma executeLoop_systems : forall ids g rs tr,
    systems (graph (executeLoop ids g rs tr)) = systems g.
Proof.
  induction ids as [| x rest IH]; intros g rs tr; [reflexivity |].
  rewrite executeLoop_cons.
  destruct (getNode x g) as [node0 |]; [| apply IH].
  destruct (turn x node0 g rs) as [calls [r | e']]; [rewrite IH |]; reflexivity.
Qed.

Definition sameBinding (a b : Node.t) : Prop :=
  Node.system a = Node.system b /\ Node.operation a = Node.operation b /\
  Node.inputs a = Node.inputs b.

Lemma executeLoop_binding : forall ids g rs tr n node',
    getNode n (graph (executeLoop ids g rs tr)) = Some node' ->
    exists node, getNode n g = Some node /\ sameBinding node node'.
Proof.
  induction ids as [| x rest IH]; intros g rs tr n node' H.
  - exists node'. split; [exact H | repeat split].
  - rewrite executeLoop_cons in H.
    destruct (getNode x g) as [node0 |] eqn:EN; [| now apply (IH _ _ _ _ _ H)].
    assert (Hup : forall n1 n2 node2,
               sameBinding node0 n2 ->
               getNode n (updateNode x n2 (updateNode x n1 g)) = Some node2 ->
               exists node, getNode n g = Some node /\ sameBinding node node2).
    { intros n1 n2 node2 Hsame Hg. destruct (String.eqb_spec n x) as [-> | Hne].
      - rewrite getNode_updateNode_same in Hg. injection Hg as <-. eauto.
      - rewrite !getNode_updateNode_other in Hg by assumption.
        exists node2. split; [exact Hg | repeat split]. }
    destruct (turn x node0 g rs) as [calls [r | e']].
    + destruct (IH _ _ _ _ _ H) as [node2 [Hg2 [S1 [S2 S3]]]].
      destruct (Hup (Node.setStatus running node0)
                    (Node.setResult r (Node.setStatus running node0)) node2
                    (conj eq_refl (conj eq_refl eq_refl)) Hg2)
        as [node [Hg [T1 [T2 T3]]]].
      exists node. split; [exact Hg |]. repeat split; congruence.
    + simpl in H.
      exact (Hup (Node.setStatus running node0)
               (Node.setResult (ErrorObject (message e'))
                  (Node.setStatus failed (Node.setStatus running node0)))
               node' (conj eq_refl (conj eq_refl eq_refl)) H).
Qed.

(** X7. The errors of [execute].  Beside the cycle error, which needs an
    empty stored order and a cycle, [execute] throws only for a node of the
    graph: because the node's system is not registered, because the first
    segment of its operation names no function of that system, or because
    that function, applied to some arguments, rejected with the message
    thrown. *)
Theorem execute_errors (g : t) (e : JSError) :
  outcome (execute g) = Throw e ->
  (exists x, e = CycleDetected x /\ onCycle g x /\ executionOrder g = []) \/
  exists n node,
    getNode n g = Some node /\
    ((e = SystemNotRegistered (Node.system node) /\
      JSMap.get (Node.system node) (systems g) = None) \/
     exists system,
       JSMap.get (Node.system node) (systems g) = Some system /\
       let method := hd EmptyString (split ":"%char (Node.operation node)) in
       (e = MethodNotFound method /\ system method = None) \/
       (exists f args msg,
          system method = Some f /\ f args = inr msg /\ e = Rejected msg)).
Proof.
  intros H. unfold execute in H.
  assert (Hloop : forall gb,
             nodes gb = nodes g -> systems gb = systems g ->
             outcome (executeLoop (executionOrder gb) gb [] []) = Throw e ->
             exists n node,
               getNode n g = Some node /\
               ((e = SystemNotRegistered (Node.system node) /\
                 JSMap.get (Node.system node) (systems g) = None) \/
                exists system,
                  JSMap.get (Node.system node) (systems g) = Some system /\
                  let method := hd EmptyString (split ":"%char (Node.operation node)) in
                  (e = MethodNotFound method /\ system method = None) \/
                  (exists f args msg,
                     system method = Some f /\ f args = inr msg /\ e = Rejected msg))).
  { intros gb Hnodes Hsys Hthrow.
    destruct (executeLoop_failure _ _ _ _ _ Hthrow)
      as (pre & n & post & gm & rm & tm & node0 & calls & _ & Hpre & Hn & Ht & _).
    assert (Hgm : gm = graph (executeLoop pre gb [] [])) by now rewrite Hpre.
    rewrite Hgm in Hn. destruct (executeLoop_binding _ _ _ _ _ _ Hn)
      as [node [Hg [S1 [S2 S3]]]].
    exists n, node. split; [unfold getNode in *; now rewrite <- Hnodes |].
    unfold turn, runNode in Ht. cbn [systems updateNode Node.system Node.setStatus
                                     Node.operation Node.inputs] in Ht.
    assert (Hsysm : systems gm = systems g)
      by (rewrite Hgm, executeLoop_systems; exact Hsys).
    rewrite Hsysm, <- S1 in Ht.
    destruct (JSMap.get (Node.system node) (systems g)) as [system |].
    - right. exists system. split; [reflexivity |].
      unfold executeOperation in Ht. rewrite <- S2 in Ht. cbv zeta.
      destruct (system _) as [f |].
      + right. injection Ht as _ Ht.
        destruct (f _) as [v | msg] eqn:Ef; [discriminate |].
        injection Ht as <-. exists f. eauto.
      + left. injection Ht as _ <-. auto.
    - left. injection Ht as _ <-. auto. }
  destruct (executionOrder g) as [| x rest] eqn:EO.
  - destruct (buildExecutionOrder g) as [g' [o | e']] eqn:EB.
    + right. apply buildExecutionOrder_ok in EB. destruct EB as [st [_ [_ ->]]].
      apply (Hloop (mk (nodes g) o (systems g)) eq_refl eq_refl H).
    + left. simpl in H. injection H as ->.
      apply buildExecutionOrder_throw in EB. destruct EB as [_ [y [-> Hy]]].
      exists y. auto.
  - right. apply (Hloop g eq_refl eq_refl). now rewrite EO.
Qed.

Lemma execute_errors_witness :
  outcome (execute TaskGraphScenarios.partial) =
    Throw (Rejected "service unavailable") /\
  ((exists x, Rejected "service unavailable" = CycleDetected x /\
              onCycle TaskGraphScenarios.partial x /\
              executionOrder TaskGraphScenarios.partial = []) \/
   exists n node,
     getNode n TaskGraphScenarios.partial = Some node /\
     ((Rejected "service unavailable" = SystemNotRegistered (Node.system node) /\
       JSMap.get (Node.system node) (systems TaskGraphScenarios.partial) = None) \/
      exists system,
        JSMap.get (Node.system node) (systems TaskGraphScenarios.partial) = Some system /\
        let method := hd EmptyString (split ":"%char (Node.operation node)) in
        (Rejected "service unavailable" = MethodNotFound method /\ system method = None) \/
        (exists f args msg,
           system method = Some f /\ f args = inr msg /\
           Rejected "service unavailable" = Rejected msg))).
Proof.
  split; [reflexivity |].
  apply (execute_errors TaskGraphScenarios.partial (Rejected "service unavailable")).
  reflexivity.
Defined.
End ExecuteProperties.

Section DispatchProperties.
Import ComputationalGraph.

(** The number of separators in a string. *)
Fixpoint occurrences (sep : ascii) (s : string) : nat :=
  match s with
  | EmptyString => 0
  | String c s' => (if Ascii.eqb c sep then 1 else 0) + occurrences sep s'
  end.

Lemma split_length (sep : ascii) (s : string) :
  List.length (split sep s) = S (occurrences sep s).
Proof.
  induction s as [| c s IH]; simpl; [reflexivity |].
  destruct (Ascii.eqb c sep); simpl; [now rewrite IH |].
  destruct (split sep s) as [| h t]; simpl in *; [discriminate | exact IH].
Qed.

Lemma split_segment (sep : ascii) (m a : string) :
  occurrences sep m = 0 ->
  split sep (m ++ String sep a)%string = m :: split sep a.
Proof.
  induction m as [| c m IH]; simpl; intros H.
  - now rewrite Ascii.eqb_refl.
  - destruct (Ascii.eqb c sep); [discriminate |].
    now rewrite IH.
Qed.

(** X8. How an operation string is read.  The text before the first colon
    is the method; the text after it is cut at every colon, and the pieces
    are passed as string arguments ahead of the input results.  A parameter
    that holds [c] colons therefore arrives as [c + 1] arguments. *)
Theorem executeOperation_arguments (nodeId : string) (system : System)
    (method rest : string) (inputs : list Value)
    (f : list Value -> Value + string) :
  occurrences ":"%char method = 0 ->
  system method = Some f ->
  fst (executeOperation nodeId system (method ++ String ":"%char rest)%string inputs) =
    [mkDispatch nodeId method (map Str (split ":"%char rest) ++ inputs)] /\
  List.length (split ":"%char rest) = S (occurrences ":"%char rest).
Proof.
  intros Hm Hf. split; [| apply split_length].
  unfold executeOperation. rewrite (split_segment _ _ _ Hm). simpl. now rewrite Hf.
Qed.

Lemma executeOperation_arguments_witness :
  occurrences ":"%char "getCustomer" = 0 /\
  TaskGraphScenarios.counting "getCustomer" =
    Some (fun args => inl (Int (Z.of_nat (List.length args)))) /\
  fst (executeOperation "n1" TaskGraphScenarios.counting "getCustomer:acme:eu" []) =
    [mkDispatch "n1" "getCustomer" (map Str (split ":"%char "acme:eu") ++ [])] /\
  List.length (split ":"%char "acme:eu") = S (occurrences ":"%char "acme:eu").
Proof.
  split; [reflexivity |]. split; [reflexivity |].
  apply (executeOperation_arguments "n1" TaskGraphScenarios.counting
           "getCustomer" "acme:eu" []
           (fun args => inl (Int (Z.of_nat (List.length args)))));
    reflexivity.
Defined.
End DispatchProperties.

Section PlanProperties.
Import ComputationalGraph.

Lemma entries_missing (ns : JSMap.t Node.t) (i : string) :
  JSMap.get i ns = None ->
  forall ids, In i ids -> ExecutionPlan.entries ns ids = None.
Proof.
  intros Hi. induction ids as [| x rest IH]; simpl; intros Hin; [contradiction |].
  destruct (JSMap.get x ns) as [node |] eqn:Ex; [| reflexivity].
  destruct Hin as [-> | Hin]; [congruence |]. now rewrite IH.
Qed.

Lemma entries_present (ns : JSMap.t Node.t) :
  forall ids,
    (forall x, In x ids -> JSMap.get x ns <> None) ->
    exists plan, ExecutionPlan.entries ns ids = Some plan /\
                 List.length plan = List.length ids.
Proof.
  induction ids as [| x rest IH]; simpl; intros H.
  - exists []. auto.
  - destruct (JSMap.get x ns) as [node |] eqn:Ex; [| exfalso; now apply (H x); auto].
    destruct IH as [plan [-> Hlen]]; [auto |].
    exists (ExecutionPlan.describe node :: plan). simpl. auto.
Qed.

(** X9. [getExecutionPlan] does not tolerate what [execute] tolerates.  On
    a graph with no stored order in which some node names an input that is
    no node, it never returns a plan: it throws the cycle error, or the
    [TypeError] of reading a field of a missing node. *)
Theorem getExecutionPlan_missing_input (g : t) (n i : string) (node : Node.t) :
  executionOrder g = [] ->
  getNode n g = Some node ->
  In i (Node.inputs node) ->
  getNode i g = None ->
  (exists x, snd (ExecutionPlan.getExecutionPlan g) =
             ExecutionPlan.Raised (CycleDetected x) /\ onCycle g x) \/
  (snd (ExecutionPlan.getExecutionPlan g) = ExecutionPlan.TypeError /\
   forall x, ~ onCycle g x).
Proof.
  intros Hfresh Hn Hi Hmiss. unfold ExecutionPlan.getExecutionPlan. rewrite Hfresh.
  destruct (buildExecutionOrder g) as [g' [o | e]] eqn:EB.
  - right. split; [| eapply buildExecutionOrder_acyclic_graph; exact EB].
    destruct (buildExecutionOrder_before _ _ _ n i node EB Hn Hi)
      as [pi [pn [Hpi _]]].
    apply indexOf_Some_In in Hpi.
    apply buildExecutionOrder_ok in EB. destruct EB as [st [_ [_ ->]]].
    unfold ExecutionPlan.planOf. cbn [nodes executionOrder].
    now rewrite (entries_missing (nodes g) i Hmiss o Hpi).
  - left. apply buildExecutionOrder_throw in EB. destruct EB as [_ [x [-> Hx]]].
    exists x. split; [reflexivity | exact Hx].
Qed.

Lemma getExecutionPlan_missing_input_witness :
  executionOrder TaskGraphScenarios.dangling = [] /\
  getNode "B" TaskGraphScenarios.dangling =
    Some (Node.mk "B" "scm" "getERPSCMAnalysis" ["X"] [] pending Null) /\
  getNode "X" TaskGraphScenarios.dangling = None /\
  ((exists x, snd (ExecutionPlan.getExecutionPlan TaskGraphScenarios.dangling) =
              ExecutionPlan.Raised (CycleDetected x) /\
              onCycle TaskGraphScenarios.dangling x) \/
   (snd (ExecutionPlan.getExecutionPlan TaskGraphScenarios.dangling) =
      ExecutionPlan.TypeError /\
    forall x, ~ onCycle TaskGraphScenarios.dangling x)).
Proof.
  split; [reflexivity |]. split; [reflexivity |]. split; [reflexivity |].
  apply (getExecutionPlan_missing_input TaskGraphScenarios.dangling "B" "X"
           (Node.mk "B" "scm" "getERPSCMAnalysis" ["X"] [] pending Null)).
  - reflexivity.
  - reflexivity.
  - simpl. auto.
  - reflexivity.
Defined.

(** Every input of every node is a node. *)
Definition closed (g : t) : Prop :=
  forall n i, inputEdge g n i -> getNode i g <> None.

(** X10. On a graph with no stored order, no cycle and no missing input,
    [getExecutionPlan] returns one entry per id of the execution order, in
    that order, and stores the order. *)
Theorem getExecutionPlan_closed (g : t) :
  executionOrder g = [] ->
  closed g ->
  (forall x, ~ onCycle g x) ->
  exists order plan,
    snd (buildExecutionOrder g) = Ok order /\
    ExecutionPlan.getExecutionPlan g =
      (mk (nodes g) order (systems g), ExecutionPlan.Returned plan) /\
    ExecutionPlan.entries (nodes g) order = Some plan /\
    List.length plan = List.length order.
Proof.
  intros Hfresh Hclosed Hacyclic. unfold ExecutionPlan.getExecutionPlan. rewrite Hfresh.
  destruct (buildExecutionOrder g) as [g' [o | e]] eqn:EB.
  - pose proof (buildExecutionOrder_ok _ _ _ EB) as [st [Hv [Ho Hg']]].
    destruct (entries_present (nodes g) o) as [plan [Hplan Hlen]].
    + intros x Hx. rewrite Ho in Hx.
      destruct (visitAll_mentioned _ _ _ Hv x Hx) as [Hkey | [n Hedge]].
      * now apply JSMap_key_get.
      * exact (Hclosed n x Hedge).
    + exists o, plan. subst g'. unfold ExecutionPlan.planOf.
      cbn [nodes executionOrder snd]. rewrite Hplan. auto.
  - apply buildExecutionOrder_throw in EB. destruct EB as [_ [x [_ Hx]]].
    exfalso. exact (Hacyclic x Hx).
Qed.
(** The check that decides [closed] on a given graph. *)
Definition closedb (g : t) : bool :=
  forallb (fun entry => forallb (fun i => JSMap.has i (nodes g))
                          (Node.inputs (snd entry)))
          (nodes g).

Lemma JSMap_get_entry (V : Type) (k : string) (v : V) (m : JSMap.t V) :
  JSMap.get k m = Some v -> In (k, v) m.
Proof.
  induction m as [| [k' v'] m IH]; simpl; intros H; [discriminate |].
  destruct (String.eqb_spec k k') as [-> | Hne].
  - injection H as ->. now left.
  - right. now apply IH.
Qed.

Lemma closedb_closed (g : t) : closedb g = true -> closed g.
Proof.
  unfold closedb, closed. rewrite forallb_forall.
  intros H n i [node [Hg Hi]]. apply JSMap_get_entry in Hg.
  specialize (H _ Hg). simpl in H. rewrite forallb_forall in H.
  specialize (H i Hi). unfold JSMap.has, getNode in *.
  destruct (JSMap.get i (nodes g)); [discriminate | discriminate].
Qed.

Lemma getExecutionPlan_closed_witness :
  executionOrder TaskGraphScenarios.abc = [] /\
  closed TaskGraphScenarios.abc /\
  (forall x, ~ onCycle TaskGraphScenarios.abc x) /\
  exists order plan,
    snd (buildExecutionOrder TaskGraphScenarios.abc) = Ok order /\
    ExecutionPlan.getExecutionPlan TaskGraphScenarios.abc =
      (mk (nodes TaskGraphScenarios.abc) order (systems TaskGraphScenarios.abc),
       ExecutionPlan.Returned plan) /\
    ExecutionPlan.entries (nodes TaskGraphScenarios.abc) order = Some plan /\
    List.length plan = List.length order.
Proof.
  assert (Hc : closed TaskGraphScenarios.abc) by (apply closedb_closed; reflexivity).
  assert (Ha : forall x, ~ onCycle TaskGraphScenarios.abc x).
  { apply (buildExecutionOrder_acyclic_graph TaskGraphScenarios.abc
             (fst (buildExecutionOrder TaskGraphScenarios.abc)) ["A"; "B"; "C"]).
    reflexivity. }
  split; [reflexivity |]. split; [exact Hc |]. split; [exact Ha |].
  apply (getExecutionPlan_closed TaskGraphScenarios.abc);
    [reflexivity | exact Hc | exact Ha].
Defined.
End PlanProperties.

(** * Further properties of the hypergraph index *)

Section IndexProperties.
Import HyperGraphNeuralNetwork.


Lemma firstMissing_none (ns : JSMap.t Node) (nodeIds : list string) :
  firstMissing ns nodeIds = None <->
  forall k, In k nodeIds -> JSMap.has k ns = true.
Proof.
  induction nodeIds as [| x rest IH]; simpl.
  - split; [intros _ k [] | reflexivity].
  - destruct (JSMap.has x ns) eqn:Ex; simpl.
    + rewrite IH. split; [intros H k [<- | Hk]; auto | auto].
    + split; [discriminate |]. intros H. specialize (H x (or_introl eq_refl)). congruence.
Qed.



(** The indexes a caller can build. *)
Inductive indexBuilt : t -> Prop :=
| indexBuilt_new (dimension : nat) (random : Random) (next : nat) :
    indexBuilt (fst (new dimension random next))
| indexBuilt_addNode (nodeId system type : string) (embedding : Embedding.t) (g : t) :
    indexBuilt g -> indexBuilt (addNode nodeId system type embedding g)
| indexBuilt_addHyperEdge (edgeId : string) (nodeIds : list string) (type : string)
    (weight : float) (metadata : list (string * string)) (g : t) :
    indexBuilt g ->
    indexBuilt (fst (addHyperEdge edgeId nodeIds type weight metadata g)).

Lemma JSMap_has_set (V : Type) (k k' : string) (v : V) (m : JSMap.t V) :
  JSMap.has k m = true -> JSMap.has k (JSMap.set k' v m) = true.
Proof.
  unfold JSMap.has. destruct (String.eqb_spec k k') as [-> | Hne].
  - now rewrite JSMap_get_set_same.
  - now rewrite JSMap_get_set_other.
Qed.

Lemma JSMap_set_In (V : Type) (k : string) (v : V) (m : JSMap.t V)
    (entry : string * V) :
  In entry (JSMap.set k v m) -> entry = (k, v) \/ In entry m.
Proof.
  induction m as [| [k' v'] m IH]; simpl.
  - intros [<- | []]. now left.
  - destruct (String.eqb k k'); simpl.
    + intros [<- | H]; auto.
    + intros [<- | H]; auto. destruct (IH H); auto.
Qed.

Lemma JSMap_has_key (V : Type) (k : string) (m : JSMap.t V) :
  JSMap.has k m = true -> In k (JSMap.keys m).
Proof.
  unfold JSMap.has. destruct (JSMap.get k m) eqn:E; [| discriminate].
  intros _. eapply JSMap_get_In_keys. exact E.
Qed.

(** What a built index keeps: unique keys, and edges over nodes only. *)
Record wellFormed (g : t) : Prop := mkWellFormed {
  wf_nodes : NoDup (JSMap.keys (nodes g));
  wf_edges : NoDup (JSMap.keys (hyperEdges g));
  wf_members : forall edge, In edge (JSMap.values (hyperEdges g)) ->
                 forall k, In k (HyperEdge.nodes edge) -> JSMap.has k (nodes g) = true
}.

Lemma indexBuilt_wellFormed (g : t) : indexBuilt g -> wellFormed g.
Proof.
  induction 1 as [d r n | nodeId sys ty emb g _ IH | edgeId ids ty w md g _ IH].
  - unfold new. destruct (Attention.new d 4 r n) as [att next']. simpl.
    constructor; simpl; [constructor | constructor | intros ? []].
  - destruct IH as [Hn He Hm]. constructor; simpl.
    + now apply JSMap_set_NoDup.
    + exact He.
    + intros edge Hedge k Hk. apply JSMap_has_set. eapply Hm; eassumption.
  - destruct IH as [Hn He Hm]. unfold addHyperEdge.
    destruct (firstMissing (nodes g) ids) as [missing |] eqn:Ef; simpl.
    + constructor; assumption.
    + constructor; simpl; [exact Hn | now apply JSMap_set_NoDup |].
      intros edge Hedge k Hk. unfold JSMap.values in Hedge.
      apply in_map_iff in Hedge. destruct Hedge as [[id e] [<- Hin]].
      apply JSMap_set_In in Hin. destruct Hin as [Heq | Hin].
      * injection Heq as _ Heq. subst e. simpl in Hk.
        now apply (proj1 (firstMissing_none (nodes g) ids) Ef).
      * apply (Hm e); [| exact Hk]. apply in_map_iff. exists (id, e). auto.
Qed.

(** X13. The invariant of the index: however nodes and hyperedges were
    added, every node key of every stored hyperedge is a node of the index,
    and no node id or edge id is stored twice. *)
Theorem index_edges_over_nodes (g : t) (edge : HyperEdge.t) (k : string) :
  indexBuilt g ->
  In edge (JSMap.values (hyperEdges g)) ->
  In k (HyperEdge.nodes edge) ->
  getNode k g <> None /\
  NoDup (JSMap.keys (nodes g)) /\ NoDup (JSMap.keys (hyperEdges g)).
Proof.
  intros Hb Hedge Hk. destruct (indexBuilt_wellFormed g Hb) as [Hn He Hm].
  split; [| split; assumption].
  specialize (Hm edge Hedge k Hk). unfold JSMap.has, getNode in *.
  destruct (JSMap.get k (nodes g)); [discriminate | discriminate].
Qed.

Lemma linked_built : indexBuilt HyperGraphScenarios.linked.
Proof.
  unfold HyperGraphScenarios.linked, HyperGraphScenarios.three,
    HyperGraphScenarios.empty.
  apply indexBuilt_addHyperEdge. repeat apply indexBuilt_addNode.
  apply indexBuilt_new.
Defined.

Lemma index_edges_over_nodes_witness :
  indexBuilt HyperGraphScenarios.linked /\
  In (HyperEdge.mk "e1" ["scm:s1"; "crm:c1"; "mrp:m1"] "supply_chain_integration" 1 [])
     (JSMap.values (hyperEdges HyperGraphScenarios.linked)) /\
  In "crm:c1" ["scm:s1"; "crm:c1"; "mrp:m1"] /\
  getNode "crm:c1" HyperGraphScenarios.linked <> None /\
  NoDup (JSMap.keys (nodes HyperGraphScenarios.linked)) /\
  NoDup (JSMap.keys (hyperEdges HyperGraphScenarios.linked)).
Proof.
  split; [exact linked_built |]. split; [simpl; auto |]. split; [simpl; auto |].
  apply (index_edges_over_nodes HyperGraphScenarios.linked
           (HyperEdge.mk "e1" ["scm:s1"; "crm:c1"; "mrp:m1"]
              "supply_chain_integration" 1 []) "crm:c1").
  - exact linked_built.
  - simpl. auto.
  - simpl. auto.
Defined.
End IndexProperties.

Section PropagateProperties.
Import HyperGraphNeuralNetwork.




(** One round of growth of a set of ids: the ids of every hyperedge that
    holds an id of the set join it. *)
Definition expands (g : t) (S : string -> Prop) (x : string) : Prop :=
  S x \/
  exists edge, In edge (JSMap.values (hyperEdges g)) /\
               (exists y, S y /\ In y (HyperEdge.nodes edge)) /\
               In x (HyperEdge.nodes edge).

(** [k] rounds of growth. *)
Fixpoint within (g : t) (k : nat) (S : string -> Prop) : string -> Prop :=
  match k with
  | O => S
  | Datatypes.S k' => within g k' (expands g S)
  end.

Lemma expands_ext (g : t) (S T : string -> Prop) :
  (forall x, S x <-> T x) -> forall x, expands g S x <-> expands g T x.
Proof.
  intros H x. unfold expands. rewrite H. split.
  - intros [Hx | [e [He [[y [Hy Hin]] Hx]]]]; [now left |].
    right. exists e. split; [exact He |]. split; [| exact Hx]. exists y. now rewrite <- H.
  - intros [Hx | [e [He [[y [Hy Hin]] Hx]]]]; [now left |].
    right. exists e. split; [exact He |]. split; [| exact Hx]. exists y. now rewrite H.
Qed.

Lemma within_ext (g : t) : forall k S T,
    (forall x, S x <-> T x) -> forall x, within g k S x <-> within g k T x.
Proof.
  induction k as [| k IH]; simpl; intros S T H x; [apply H |].
  apply IH. now apply expands_ext.
Qed.

Lemma within_stable (g : t) (S : string -> Prop) :
  (forall x, expands g S x <-> S x) -> forall k x, within g k S x <-> S x.
Proof.
  intros H. induction k as [| k IH]; simpl; intros x; [tauto |].
  rewrite (within_ext g k _ S H). apply IH.
Qed.

Lemma collect_In (ns : JSMap.t Node) : forall ids visited found x,
    In x (fst (collect ns ids visited found)) <-> In x visited \/ In x ids.
Proof.
  induction ids as [| y ids IH]; simpl; intros visited found x; [tauto |].
  destruct (JSSet.has y visited) eqn:E; simpl.
  - rewrite IH. apply JSSet_has_In in E. split; [tauto |].
    intros [H | [<- | H]]; auto.
  - destruct (JSMap.get y ns); rewrite IH, JSSet_add_In; intuition.
Qed.

Lemma relevantEdges_In (g : t) (visited : JSSet.t) (edge : HyperEdge.t) :
  In edge (relevantEdges g visited) <->
  In edge (JSMap.values (hyperEdges g)) /\
  exists y, In y visited /\ In y (HyperEdge.nodes edge).
Proof.
  unfold relevantEdges. rewrite filter_In, existsb_exists. split.
  - intros [H [y [Hy Hv]]]. split; [exact H |]. exists y.
    split; [now apply JSSet_has_In | exact Hy].
  - intros [H [y [Hv Hy]]]. split; [exact H |]. exists y.
    split; [exact Hy | now apply JSSet_has_In].
Qed.

Lemma round_expands (g : t) (visited : JSSet.t) (found : list Embedding.t) (x : string) :
  In x (fst (collect (nodes g) (flat_map HyperEdge.nodes (relevantEdges g visited))
               visited found)) <->
  expands g (fun y => In y visited) x.
Proof.
  rewrite collect_In, in_flat_map. unfold expands. split.
  - intros [H | [edge [He Hx]]]; [now left |]. right. exists edge.
    apply relevantEdges_In in He. tauto.
  - intros [H | [edge [He [Hy Hx]]]]; [now left |]. right. exists edge.
    split; [apply relevantEdges_In; tauto | exact Hx].
Qed.

Lemma rounds_within (Math_exp : float -> float) (g : t) :
  forall left current visited current' visited',
    rounds Math_exp g left current visited = Ok (current', visited') ->
    forall x, In x visited' <-> within g left (fun y => In y visited) x.
Proof.
  induction left as [| left IH]; cbn [rounds within];
    intros current visited current' visited' H x.
  - injection H as _ <-. tauto.
  - pose proof (round_expands g visited []) as Hround.
    destruct (relevantEdges g visited) as [| e es] eqn:Er.
    + injection H as _ <-. simpl in Hround.
      rewrite <- (within_ext g left _ _ Hround). symmetry.
      apply within_stable. intros y. symmetry. apply Hround.
    + destruct (collect _ _ _ _) as [v nbrs]. simpl in Hround.
      rewrite <- (within_ext g left _ _ Hround).
      destruct nbrs as [| nb nbrs]; [exact (IH _ _ _ _ H x) |].
      destruct (Embedding.fromMultipleEmbeddings _ _) as [upd | err];
        [| discriminate].
      exact (IH _ _ _ _ H x).
Qed.


End PropagateProperties.

Section PropagateBounds.
Import HyperGraphNeuralNetwork.

Lemma within_bounded (g : t) (P : string -> Prop) :
  (forall edge, In edge (JSMap.values (hyperEdges g)) ->
                forall k, In k (HyperEdge.nodes edge) -> P k) ->
  forall k S, (forall x, S x -> P x) -> forall x, within g k S x -> P x.
Proof.
  intros Hedges. induction k as [| k IH]; simpl; intros S HS x Hx; [now apply HS |].
  apply (IH (expands g S)); [| exact Hx].
  intros y [Hy | [edge [He [_ Hy]]]]; [now apply HS | now apply (Hedges edge)].
Qed.

(** X16. In an index made by the constructor, [addNode] and [addHyperEdge],
    [propagate] visits nodes of the index only: [nodesVisited] is at least
    one, the target, and at most the number of nodes, whatever the hops. *)
Theorem propagate_visits_nodes_only (Math_exp : float -> float)
    (targetNodeId : string) (hops : Z) (g : t) (r : Propagation) :
  indexBuilt g ->
  propagate Math_exp targetNodeId hops g = Ok r ->
  1 <= nodesVisited r <= totalNodes (getNetworkInsights g).
Proof.
  intros Hbuilt. apply indexBuilt_wellFormed in Hbuilt.
  destruct Hbuilt as [Hnodes _ Hmembers].
  unfold propagate. destruct (JSMap.get _ _) as [target |] eqn:Et; [| discriminate].
  destruct (rounds _ _ _ _ _) as [[e v] | err] eqn:E; [| discriminate].
  intros [= <-]. simpl. unfold JSSet.size, JSMap.size.
  destruct (rounds_visited _ _ _ _ _ _ _ E) as [Hnd Hkeep];
    [repeat constructor; simpl; tauto |].
  split.
  - destruct v as [| x v]; [| simpl; lia].
    exfalso. apply (Hkeep targetNodeId). now left.
  - rewrite <- (length_map fst (nodes g)). apply NoDup_incl_length; [exact Hnd |].
    intros x Hx. apply (rounds_within _ _ _ _ _ _ _ E) in Hx.
    apply (within_bounded g (fun k => In k (JSMap.keys (nodes g)))) in Hx;
      [exact Hx | |].
    + intros edge He k Hk. apply JSMap_has_key. now apply (Hmembers edge).
    + intros y [<- | []]. eapply JSMap_get_In_keys. exact Et.
Qed.

Lemma propagate_visits_nodes_only_witness :
  exists r,
    indexBuilt HyperGraphScenarios.linked /\
    propagate (fun x => x) "scm:s1" 1 HyperGraphScenarios.linked = Ok r /\
    nodesVisited r = 3 /\
    1 <= nodesVisited r <= totalNodes (getNetworkInsights HyperGraphScenarios.linked).
Proof.
  eexists. split; [exact linked_built |].
  split; [vm_compute; reflexivity |]. split; [reflexivity |].
  apply (propagate_visits_nodes_only (fun x => x) "scm:s1" 1
           HyperGraphScenarios.linked _ linked_built).
  vm_compute. reflexivity.
Defined.
End PropagateBounds.

Section EmbeddingProperties.
Import HyperGraphEmbedding.

Lemma addScaled_length (dim : nat) (acc v : list float) (weight : float) :
  List.length (addScaled dim acc v weight) = dim.
Proof. unfold addScaled. now rewrite length_map, length_seq. Qed.

Lemma accumulate_length (dim : nat) : forall embs weights i acc contrib,
    List.length acc = dim ->
    List.length (fst (accumulate dim embs weights i acc contrib)) = dim.
Proof.
  induction embs as [| emb embs IH]; simpl; intros weights i acc contrib H;
    [exact H |].
  apply IH. apply addScaled_length.
Qed.

Lemma normalize_length (v : list float) :
  List.length (normalize v) = List.length v.
Proof.
  unfold normalize. destruct (_ <? _)%float; [apply length_map | reflexivity].
Qed.

Lemma accumulate_contributors (dim : nat) : forall embs weights i acc contrib,
    NoDup contrib ->
    NoDup (snd (accumulate dim embs weights i acc contrib)) /\
    forall s, In s (snd (accumulate dim embs weights i acc contrib)) <->
              In s contrib \/
              (s <> ""%string /\ exists emb, In emb embs /\ system emb = Some s).
Proof.
  induction embs as [| emb embs IH]; simpl; intros weights i acc contrib Hnd.
  - split; [exact Hnd |]. intros s. split; [tauto |].
    intros [H | [_ [emb [[] _]]]]. exact H.
  - destruct (system emb) as [s0 |] eqn:Es.
    + destruct (String.eqb_spec s0 "") as [-> | Hne].
      * destruct (IH weights (S i) (addScaled dim acc (vector emb) (item weights i))
                    contrib Hnd) as [H1 H2].
        split; [exact H1 |]. intros s. rewrite H2. split.
        -- intros [H | [Hs [e [He Hsys]]]]; [now left |].
           right. split; [exact Hs |]. exists e. split; [now right | exact Hsys].
        -- intros [H | [Hs [e [[<- | He] Hsys]]]]; [now left | |].
           ++ rewrite Es in Hsys. injection Hsys as <-. now destruct Hs.
           ++ right. split; [exact Hs |]. now exists e.
      * destruct (IH weights (S i) (addScaled dim acc (vector emb) (item weights i))
                    (JSSet.add s0 contrib) (JSSet_add_NoDup _ _ Hnd)) as [H1 H2].
        split; [exact H1 |]. intros s. rewrite H2, JSSet_add_In. split.
        -- intros [[H | H] | [Hs [e [He Hsys]]]].
           ++ subst s0. right. split; [exact Hne |]. exists emb. split; [now left | exact Es].
           ++ now left.
           ++ right. split; [exact Hs |]. exists e. split; [now right | exact Hsys].
        -- intros [H | [Hs [e [[<- | He] Hsys]]]].
           ++ left. now right.
           ++ rewrite Es in Hsys. injection Hsys as <-. left. now left.
           ++ right. split; [exact Hs |]. now exists e.
    + destruct (IH weights (S i) (addScaled dim acc (vector emb) (item weights i))
                  contrib Hnd) as [H1 H2].
      split; [exact H1 |]. intros s. rewrite H2. split.
      * intros [H | [Hs [e [He Hsys]]]]; [now left |].
        right. split; [exact Hs |]. exists e. split; [now right | exact Hsys].
      * intros [H | [Hs [e [[<- | He] Hsys]]]]; [now left | |].
        -- rewrite Es in Hsys. discriminate.
        -- right. split; [exact Hs |]. now exists e.
Qed.

(** X17. The shape of a combined embedding.  [fromMultipleEmbeddings] throws
    on the empty list and on nothing else; what it returns has the dimension
    of the first embedding, a vector of that many numbers whatever the
    lengths of the other vectors and of the weights, and as contributors,
    each once, exactly the non-empty systems of the embeddings given. *)
Theorem fromMultipleEmbeddings_shape (embeddings : list t)
    (weights : option (list float)) :
  match embeddings with
  | [] => fromMultipleEmbeddings embeddings weights = Throw NoEmbedding
  | first :: _ =>
      exists r,
        fromMultipleEmbeddings embeddings weights = Ok r /\
        dimension r = dimension first /\
        List.length (vector r) = dimension first /\
        NoDup (contributors r) /\
        forall s, In s (contributors r) <->
                  s <> ""%string /\
                  exists emb, In emb embeddings /\ system emb = Some s
  end.
Proof.
  destruct embeddings as [| first rest]; [reflexivity |].
  unfold fromMultipleEmbeddings.
  set (ws := match weights with Some w => w | None => _ end).
  pose proof (accumulate_length (dimension first) (first :: rest) ws 0
                (repeat 0%float (dimension first)) [] (repeat_length _ _)) as Hlen.
  pose proof (accumulate_contributors (dimension first) (first :: rest) ws 0
                (repeat 0%float (dimension first)) [] (NoDup_nil _)) as [Hnd Hin].
  destruct (accumulate _ _ _ _ _ _) as [v contrib]. simpl in Hlen, Hnd, Hin.
  eexists. split; [reflexivity |]. simpl.
  split; [reflexivity |]. split; [now rewrite normalize_length |].
  split; [exact Hnd |]. intros s. rewrite Hin. tauto.
Qed.
End EmbeddingProperties.

Section AttentionProperties.
Import HyperGraphAttention.

(** X18. An attention with no head scores every key [NaN]: the average over
    the heads divides zero by zero, once per key, whatever the embeddings. *)
Theorem computeAttention_no_heads (Math_exp : float -> float) (a : t)
    (queryEmb : HyperGraphEmbedding.t) (keyEmbs : list HyperGraphEmbedding.t) :
  numHeads a = 0 ->
  computeAttention Math_exp a queryEmb keyEmbs = repeat nan (List.length keyEmbs).
Proof.
  intros H. unfold computeAttention. rewrite H. simpl.
  generalize 0 at 1. induction (List.length keyEmbs) as [| n IH]; intros k;
    [reflexivity |].
  simpl. f_equal. apply IH.
Qed.

Lemma computeAttention_no_heads_witness :
  numHeads (fst (new 2 0 HyperGraphScenarios.steady 0)) = 0 /\
  computeAttention (fun x => x) (fst (new 2 0 HyperGraphScenarios.steady 0))
    (HyperGraphScenarios.emb 1 0)
    [HyperGraphScenarios.emb 0 1; HyperGraphScenarios.emb 1 1] = [nan; nan].
Proof.
  split; [reflexivity |].
  apply (computeAttention_no_heads (fun x => x)
           (fst (new 2 0 HyperGraphScenarios.steady 0))
           (HyperGraphScenarios.emb 1 0)
           [HyperGraphScenarios.emb 0 1; HyperGraphScenarios.emb 1 1]).
  reflexivity.
Defined.
End AttentionProperties.

Section PathWalks.
Import HyperGraphNeuralNetwork.

(** A walk from [source]: from the source alone, each step goes from the
    last id to an id of a hyperedge that holds the last id. *)
Inductive walk (g : t) (source : string) : list string -> Prop :=
| walk_source : walk g source [source]
| walk_step (path : list string) (neighborId : string) (edge : HyperEdge.t) :
    walk g source path ->
    In edge (JSMap.values (hyperEdges g)) ->
    In (last path ""%string) (HyperEdge.nodes edge) ->
    In neighborId (HyperEdge.nodes edge) ->
    walk g source (path ++ [neighborId]).

Lemma includes_In (x : string) (l : list string) :
  includes x l = true <-> In x l.
Proof.
  unfold includes. rewrite existsb_exists. split.
  - intros [y [Hy E]]. apply String.eqb_eq in E. now subst y.
  - intros H. exists x. split; [exact H | apply String.eqb_refl].
Qed.

Lemma walk_starts (g : t) (source : string) (p : list string) :
  walk g source p -> exists rest, p = source :: rest.
Proof.
  induction 1 as [| path nb edge _ [rest ->] _ _ _]; [now exists [] |].
  now exists (rest ++ [nb]).
Qed.

Section Step.
Variable g : t.
Variable source : string.
Variable path : list string.
Hypothesis Hpath : walk g source path.

Lemma extendAlong_walk (edge : HyperEdge.t) :
  In edge (JSMap.values (hyperEdges g)) ->
  In (last path ""%string) (HyperEdge.nodes edge) ->
  forall neighbors queue visited,
    incl neighbors (HyperEdge.nodes edge) ->
    Forall (walk g source) queue ->
    Forall (walk g source)
      (fst (extendAlong path (last path ""%string) neighbors queue visited)).
Proof.
  intros He Hlast.
  induction neighbors as [| nb rest IH]; simpl; intros queue visited Hincl Hq;
    [assumption |].
  assert (Hrest : incl rest (HyperEdge.nodes edge))
    by (intros x Hx; apply Hincl; now right).
  destruct (negb (String.eqb nb (last path ""%string)) && negb (includes nb path));
    [| now apply IH].
  destruct (negb (JSSet.has _ visited)); apply IH; try assumption.
  apply Forall_app. split; [assumption |].
  constructor; [| constructor].
  apply (walk_step g source path nb edge); try assumption.
  apply Hincl. now left.
Qed.

Lemma extend_walk : forall es queue visited,
    incl es (JSMap.entries (hyperEdges g)) ->
    Forall (walk g source) queue ->
    Forall (walk g source)
      (fst (extend path (last path ""%string) es queue visited)).
Proof.
  induction es as [| [edgeId edge] rest IH]; simpl; intros queue visited Hincl Hq;
    [assumption |].
  assert (Hrest : incl rest (JSMap.entries (hyperEdges g)))
    by (intros x Hx; apply Hincl; now right).
  destruct (includes (last path ""%string) (HyperEdge.nodes edge)) eqn:E;
    [| now apply IH].
  apply includes_In in E.
  assert (He : In edge (JSMap.values (hyperEdges g))).
  { unfold JSMap.values. apply in_map_iff. exists (edgeId, edge).
    split; [reflexivity | apply Hincl; now left]. }
  pose proof (extendAlong_walk edge He E (HyperEdge.nodes edge) queue visited
                (incl_refl _) Hq) as H.
  destruct (extendAlong _ _ _ _ _) as [q v]. now apply IH.
Qed.
End Step.

Lemma search_walk (g : t) (source targetNodeId : string) (maxHops : Z) :
  forall fuel queue visited paths found,
    Forall (walk g source) queue ->
    Forall (walk g source) paths ->
    search fuel (JSMap.entries (hyperEdges g)) targetNodeId maxHops
      queue visited paths = Some found ->
    Forall (walk g source) found.
Proof.
  induction fuel as [| fuel IH]; simpl; intros queue visited paths found Hq Hp H;
    [discriminate |].
  destruct queue as [| path queue]; [now injection H as <- |].
  inversion Hq as [| ? ? Hpath Hrest]; subst.
  destruct (String.eqb (last path "") targetNodeId).
  - apply (IH _ _ _ _ Hrest) in H; [assumption |].
    apply Forall_app. split; [assumption | now repeat constructor].
  - destruct (maxHops <=? Z.of_nat (List.length path))%Z.
    + now apply (IH _ _ _ _ Hrest) in H.
    + pose proof (extend_walk g source path Hpath (JSMap.entries (hyperEdges g))
                    queue visited (incl_refl _) Hrest) as Hext.
      destruct (extend _ _ _ _ _) as [q v]. now apply (IH _ _ _ _ Hext) in H.
Qed.

(** X19. Every path [findCrossDomainPaths] returns is a walk from the
    source: it starts with the source id, and each further id belongs to a
    hyperedge of the index that also holds the id before it. *)
Theorem findCrossDomainPaths_walks (sourceNodeId targetNodeId : string)
    (maxHops : Z) (g : t) (r : FoundPath.t) :
  In r (findCrossDomainPaths sourceNodeId targetNodeId maxHops g) ->
  walk g sourceNodeId (FoundPath.path r) /\
  exists rest, FoundPath.path r = sourceNodeId :: rest.
Proof.
  unfold findCrossDomainPaths. intros H.
  destruct (search _ _ _ _ _ _ _) as [found |] eqn:E; [| contradiction].
  apply in_map_iff in H. destruct H as [p [<- Hp]]. simpl.
  apply search_walk with (source := sourceNodeId) in E;
    [| repeat constructor | constructor].
  rewrite Forall_forall in E. specialize (E p Hp).
  split; [exact E | exact (walk_starts _ _ _ E)].
Qed.

Lemma findCrossDomainPaths_walks_witness :
  In (FoundPath.mk ["crm:c1"; "mrp:m1"] 1 ["crm"; "mrp"])
     (findCrossDomainPaths "crm:c1" "mrp:m1" 2 HyperGraphScenarios.linked) /\
  walk HyperGraphScenarios.linked "crm:c1" ["crm:c1"; "mrp:m1"] /\
  exists rest, ["crm:c1"; "mrp:m1"] = "crm:c1"%string :: rest.
Proof.
  split; [simpl; auto |].
  apply (findCrossDomainPaths_walks "crm:c1" "mrp:m1" 2 HyperGraphScenarios.linked
           (FoundPath.mk ["crm:c1"; "mrp:m1"] 1 ["crm"; "mrp"])).
  simpl. auto.
Defined.

Lemma turns_two (edges : list (string * HyperEdge.t)) (maxHops : Z) :
  exists fuel, turns edges maxHops = S (S fuel).
Proof.
  unfold turns.
  assert (H : 1 <= S (slots edges) ^ (Z.to_nat maxHops - 1)).
  { generalize (Z.to_nat maxHops - 1). intros n. induction n as [| n IH];
      simpl; lia. }
  destruct (S (slots edges) ^ (Z.to_nat maxHops - 1)) as [| n]; [lia |].
  now exists n.
Qed.

(** X20. A search from an id to itself returns the id alone, as one path
    of no edge: whatever the index holds, whatever [maxHops], and whether
    the id is a node or not. *)
Theorem findCrossDomainPaths_to_itself (nodeId : string) (maxHops : Z) (g : t) :
  findCrossDomainPaths nodeId nodeId maxHops g =
    [FoundPath.mk [nodeId] 0 (FoundPath.systems (describe g [nodeId]))].
Proof.
  unfold findCrossDomainPaths.
  destruct (turns_two (JSMap.entries (hyperEdges g)) maxHops) as [fuel ->].
  cbn [search last]. rewrite String.eqb_refl. reflexivity.
Qed.

(** X21. With [maxHops] at one or below, a search between two different
    ids returns nothing, also when one hyperedge holds both: the bound is
    on the ids of a path, and the source alone uses it up. *)
Theorem findCrossDomainPaths_one_id (sourceNodeId targetNodeId : string)
    (maxHops : Z) (g : t) :
  (maxHops <= 1)%Z ->
  sourceNodeId <> targetNodeId ->
  findCrossDomainPaths sourceNodeId targetNodeId maxHops g = [].
Proof.
  intros Hhops Hne. unfold findCrossDomainPaths.
  destruct (turns_two (JSMap.entries (hyperEdges g)) maxHops) as [fuel ->].
  cbn [search last]. apply String.eqb_neq in Hne. rewrite Hne.
  replace (maxHops <=? Z.of_nat (List.length [sourceNodeId]))%Z with true
    by (symmetry; apply Z.leb_le; simpl; lia).
  reflexivity.
Qed.

Lemma findCrossDomainPaths_one_id_witness :
  (1 <= 1)%Z /\ "crm:c1"%string <> "mrp:m1"%string /\
  (exists edge, In edge (JSMap.values (hyperEdges HyperGraphScenarios.linked)) /\
                In "crm:c1"%string (HyperEdge.nodes edge) /\
                In "mrp:m1"%string (HyperEdge.nodes edge)) /\
  findCrossDomainPaths "crm:c1" "mrp:m1" 1 HyperGraphScenarios.linked = [].
Proof.
  split; [lia |]. split; [discriminate |]. split.
  - eexists. split; [left; reflexivity |]. simpl. auto.
  - apply (findCrossDomainPaths_one_id "crm:c1" "mrp:m1" 1
             HyperGraphScenarios.linked); [lia | discriminate].
Defined.

(** What the queue collects: a path that ends at the target is returned. *)
Lemma search_collects (edges : list (string * HyperEdge.t)) (targetNodeId : string)
    (maxHops : Z) :
  forall fuel queue visited paths found,
    search fuel edges targetNodeId maxHops queue visited paths = Some found ->
    (forall p, In p paths -> In p found) /\
    (forall p, In p queue -> last p ""%string = targetNodeId -> In p found).
Proof.
  induction fuel as [| fuel IH]; simpl; intros queue visited paths found H;
    [discriminate |].
  destruct queue as [| path queue].
  - injection H as <-. split; [auto | intros p []].
  - destruct (String.eqb (last path "") targetNodeId) eqn:Et.
    + destruct (IH _ _ _ _ H) as [H1 H2]. split.
      * intros p Hp. apply H1. apply in_or_app. now left.
      * intros p [<- | Hp] Hlast; [| now apply H2].
        apply H1. apply in_or_app. right. now left.
    + apply String.eqb_neq in Et.
      destruct (maxHops <=? Z.of_nat (List.length path))%Z.
      * destruct (IH _ _ _ _ H) as [H1 H2]. split; [exact H1 |].
        intros p [<- | Hp] Hlast; [contradiction | now apply H2].
      * pose proof (extend_grown path (last path ""%string) edges queue visited)
          as [new [Hq _]].
        destruct (extend _ _ _ _ _) as [q v]. simpl in Hq. subst q.
        destruct (IH _ _ _ _ H) as [H1 H2]. split; [exact H1 |].
        intros p [<- | Hp] Hlast; [contradiction |].
        apply H2; [| exact Hlast]. apply in_or_app. now left.
Qed.

(** A key that joins [visited] was put there with its path in the queue. *)
Definition enqueued (path : list string) (queue : list (list string))
    (visited visited' : JSSet.t) (queue' : list (list string)) : Prop :=
  (forall k, In k visited -> In k visited') /\
  (forall p, In p queue -> In p queue') /\
  (forall k, In k visited' ->
     In k visited \/
     exists nb, In (path ++ [nb]) queue' /\ join "-" (path ++ [nb]) = k).

Lemma enqueued_refl (path : list string) (queue : list (list string))
    (visited : JSSet.t) : enqueued path queue visited visited queue.
Proof. split; [auto |]. split; [auto |]. intros k Hk. now left. Qed.

Lemma enqueued_trans (path : list string) (q1 q2 q3 : list (list string))
    (v1 v2 v3 : JSSet.t) :
  enqueued path q1 v1 v2 q2 -> enqueued path q2 v2 v3 q3 ->
  enqueued path q1 v1 v3 q3.
Proof.
  intros [A1 [A2 A3]] [B1 [B2 B3]]. split; [auto |]. split; [auto |].
  intros k Hk. destruct (B3 k Hk) as [H | H]; [| now right].
  destruct (A3 k H) as [H' | [nb [Hin Hkey]]]; [now left |].
  right. exists nb. split; [now apply B2 | exact Hkey].
Qed.

Lemma extendAlong_enqueued (path : list string) (currentNode : string) :
  forall neighbors queue visited,
    enqueued path queue visited
      (snd (extendAlong path currentNode neighbors queue visited))
      (fst (extendAlong path currentNode neighbors queue visited)) /\
    forall nb, In nb neighbors -> nb <> currentNode -> ~ In nb path ->
      In (join "-" (path ++ [nb]))
         (snd (extendAlong path currentNode neighbors queue visited)).
Proof.
  induction neighbors as [| nb rest IH]; simpl; intros queue visited.
  - split; [apply enqueued_refl | intros nb []].
  - destruct (String.eqb_spec nb currentNode) as [Heq | Hne]; simpl.
    + destruct (IH queue visited) as [H1 H2]. split; [exact H1 |].
      intros x [<- | Hx] Hxc Hxp; [contradiction | now apply H2].
    + destruct (includes nb path) eqn:Ei; simpl.
      * destruct (IH queue visited) as [H1 H2]. split; [exact H1 |].
        intros x [<- | Hx] Hxc Hxp; [| now apply H2].
        apply includes_In in Ei. contradiction.
      * destruct (JSSet.has (join "-" (path ++ [nb])) visited) eqn:Ev; simpl.
        -- destruct (IH queue visited) as [H1 H2]. split; [exact H1 |].
           intros x [<- | Hx] Hxc Hxp; [| now apply H2].
           apply JSSet_has_In in Ev. destruct H1 as [H1 _]. now apply H1.
        -- destruct (IH (queue ++ [path ++ [nb]])
                       (JSSet.add (join "-" (path ++ [nb])) visited)) as [H1 H2].
           split.
           ++ apply (enqueued_trans path queue (queue ++ [path ++ [nb]]) _
                       visited (JSSet.add (join "-" (path ++ [nb])) visited) _);
                [| exact H1].
              split; [intros k Hk; apply JSSet_add_In; now right |].
              split; [intros p Hp; apply in_or_app; now left |].
              intros k Hk. apply JSSet_add_In in Hk. destruct Hk as [-> | Hk];
                [| now left].
              right. exists nb. split; [apply in_or_app; right; now left | reflexivity].
           ++ intros x [<- | Hx] Hxc Hxp; [| now apply H2].
              destruct H1 as [H1 _]. apply H1. apply JSSet_add_In. now left.
Qed.

Lemma extend_enqueued (path : list string) (currentNode : string) :
  forall es queue visited,
    enqueued path queue visited
      (snd (extend path currentNode es queue visited))
      (fst (extend path currentNode es queue visited)) /\
    forall edgeId edge nb,
      In (edgeId, edge) es -> In currentNode (HyperEdge.nodes edge) ->
      In nb (HyperEdge.nodes edge) -> nb <> currentNode -> ~ In nb path ->
      In (join "-" (path ++ [nb])) (snd (extend path currentNode es queue visited)).
Proof.
  induction es as [| [edgeId edge] rest IH]; simpl; intros queue visited.
  - split; [apply enqueued_refl | intros ? ? ? []].
  - destruct (includes currentNode (HyperEdge.nodes edge)) eqn:Ei.
    + destruct (extendAlong_enqueued path currentNode (HyperEdge.nodes edge)
                  queue visited) as [A1 A2].
      destruct (extendAlong _ _ _ _ _) as [q v]. simpl in A1, A2.
      destruct (IH q v) as [B1 B2]. split.
      * exact (enqueued_trans _ _ _ _ _ _ _ A1 B1).
      * intros id e nb [Heq | Hin] Hcur Hnb Hne Hnew.
        -- injection Heq as _ <-. destruct B1 as [B1 _]. apply B1.
           now apply A2.
        -- now apply (B2 id e nb).
    + destruct (IH queue visited) as [B1 B2]. split; [exact B1 |].
      intros id e nb [Heq | Hin] Hcur Hnb Hne Hnew.
      * injection Heq as _ <-. apply includes_In in Hcur. congruence.
      * now apply (B2 id e nb).
Qed.

Lemma append_cancel (s x y : string) :
  (s ++ x)%string = (s ++ y)%string -> x = y.
Proof.
  induction s as [| c s IH]; simpl; [auto |]. intros H. injection H as H. auto.
Qed.

Lemma join_pair (s x : string) : join "-" ([s] ++ [x]) = (s ++ "-" ++ x)%string.
Proof. reflexivity. Qed.

(** X22. Direct neighbours are found from [maxHops] two on: when one
    hyperedge of the index holds two different ids, the search from one
    to the other returns the path of these two ids. *)
Theorem findCrossDomainPaths_direct (sourceNodeId targetNodeId : string)
    (maxHops : Z) (g : t) (edge : HyperEdge.t) :
  sourceNodeId <> targetNodeId ->
  (2 <= maxHops)%Z ->
  In edge (JSMap.values (hyperEdges g)) ->
  In sourceNodeId (HyperEdge.nodes edge) ->
  In targetNodeId (HyperEdge.nodes edge) ->
  In (describe g [sourceNodeId; targetNodeId])
     (findCrossDomainPaths sourceNodeId targetNodeId maxHops g).
Proof.
  intros Hne Hhops He Hs Ht.
  destruct (findCrossDomainPaths_found sourceNodeId targetNodeId maxHops g)
    as [found [Hsearch ->]].
  apply in_map.
  unfold turns in Hsearch. cbn [search last] in Hsearch.
  apply String.eqb_neq in Hne. rewrite Hne in Hsearch.
  apply String.eqb_neq in Hne.
  replace (maxHops <=? Z.of_nat (List.length [sourceNodeId]))%Z with false
    in Hsearch by (symmetry; apply Z.leb_gt; simpl; lia).
  destruct (extend_enqueued [sourceNodeId] sourceNodeId (hyperEdges g) [] [])
    as [[_ [_ Hkeys]] Hmarks].
  unfold JSMap.values in He. apply in_map_iff in He.
  destruct He as [[edgeId edge'] [Hsnd Hentry]]. simpl in Hsnd. subst edge'.
  assert (Hkey : In (join "-" ([sourceNodeId] ++ [targetNodeId]))
                   (snd (extend [sourceNodeId] sourceNodeId (hyperEdges g) [] []))).
  { apply (Hmarks edgeId edge targetNodeId); try assumption.
    - congruence.
    - intros [H | []]. congruence. }
  destruct (Hkeys _ Hkey) as [[] | [nb [Hin Hjoin]]].
  rewrite !join_pair in Hjoin. apply append_cancel in Hjoin.
  simpl in Hjoin. injection Hjoin as ->.
  destruct (extend _ _ _ _ _) as [q v]. simpl in Hin.
  destruct (search_collects _ _ _ _ _ _ _ _ Hsearch) as [_ Hq].
  apply (Hq [sourceNodeId; targetNodeId] Hin). reflexivity.
Qed.

Lemma findCrossDomainPaths_direct_witness :
  "scm:s1"%string <> "mrp:m1"%string /\ (2 <= 3)%Z /\
  In (HyperEdge.mk "e1" ["scm:s1"; "crm:c1"; "mrp:m1"] "supply_chain_integration" 1 [])
     (JSMap.values (hyperEdges HyperGraphScenarios.linked)) /\
  In (FoundPath.mk ["scm:s1"; "mrp:m1"] 1 ["scm"; "mrp"])
     (findCrossDomainPaths "scm:s1" "mrp:m1" 3 HyperGraphScenarios.linked).
Proof.
  split; [discriminate |]. split; [lia |]. split; [left; reflexivity |].
  apply (findCrossDomainPaths_direct "scm:s1" "mrp:m1" 3 HyperGraphScenarios.linked
           (HyperEdge.mk "e1" ["scm:s1"; "crm:c1"; "mrp:m1"]
              "supply_chain_integration" 1 [])).
  - discriminate.
  - lia.
  - left. reflexivity.
  - simpl. auto.
  - simpl. auto.
Defined.
End PathWalks.

Section SimilarityProperties.
Import HyperGraphEmbedding.

(** The product of two doubles does not depend on their order. *)
Lemma float_mul_comm (x y : float) : (x * y)%float = (y * x)%float.
Proof.
  apply Prim2SF_inj. rewrite !FloatAxioms.mul_spec. unfold SF64mul, SFmul.
  destruct (Prim2SF x) as [sx | sx | | sx mx ex],
           (Prim2SF y) as [sy | sy | | sy my ey];
    try reflexivity; try (now rewrite xorb_comm).
  rewrite xorb_comm, Pos.mul_comm, Z.add_comm. reflexivity.
Qed.

Lemma dot_comm (a b : list float) : forall idx s,
    fold_left (fun s i => s + item a i * item b i)%float idx s =
    fold_left (fun s i => s + item b i * item a i)%float idx s.
Proof.
  induction idx as [| i idx IH]; simpl; intros s; [reflexivity |].
  rewrite (float_mul_comm (item a i) (item b i)). apply IH.
Qed.

(** X23. [cosineSimilarity] is symmetric between embeddings of one
    dimension: the same double either way, bit for bit, also when it is
    [NaN] or the vectors are shorter than the dimension. *)
Theorem cosineSimilarity_symmetric (this other : t) :
  dimension this = dimension other ->
  cosineSimilarity this other = cosineSimilarity other this.
Proof.
  intros Hdim. unfold cosineSimilarity. rewrite <- Hdim.
  rewrite (dot_comm (vector this) (vector other)).
  rewrite (float_mul_comm
             (PrimFloat.sqrt
                (fold_left (fun s i => s + item (vector this) i * item (vector this) i)%float
                   (seq 0 (dimension this)) 0%float))).
  reflexivity.
Qed.

Lemma cosineSimilarity_symmetric_witness :
  dimension (HyperGraphScenarios.emb 1 0) = dimension (HyperGraphScenarios.emb 1 1) /\
  cosineSimilarity (HyperGraphScenarios.emb 1 0) (HyperGraphScenarios.emb 1 1) =
  cosineSimilarity (HyperGraphScenarios.emb 1 1) (HyperGraphScenarios.emb 1 0).
Proof.
  split; [reflexivity |].
  apply (cosineSimilarity_symmetric (HyperGraphScenarios.emb 1 0)
           (HyperGraphScenarios.emb 1 1)).
  reflexivity.
Defined.
End SimilarityProperties.

Section EdgeConfigProperties.
Import CrossDomainEdges.

(** The edge a configuration asks for. *)
Definition configured (config : EdgeConfig) : HyperEdge.t :=
  HyperEdge.mk (id config) (nodes config) (type config) (weight config)
    (metadata config).

(** The line written when a configuration is refused for [missing]. *)
Definition refusal (config : EdgeConfig) (missing : string) : ConsoleError :=
  mkConsoleError ("Failed to create hyper-edge " ++ id config ++ ":")%string
    ("Node not found: " ++ missing)%string.

Lemma createEdges_outcome : forall configs hgnn console,
    NoDup (map id configs) ->
    HGNN.nodes (fst (createEdges configs hgnn console)) = HGNN.nodes hgnn /\
    (forall config, In config configs ->
       match HGNN.firstMissing (HGNN.nodes hgnn) (nodes config) with
       | None =>
           HGNN.getHyperEdge (id config) (fst (createEdges configs hgnn console)) =
             Some (configured config)
       | Some missing =>
           HGNN.getHyperEdge (id config) (fst (createEdges configs hgnn console)) =
             HGNN.getHyperEdge (id config) hgnn /\
           In (refusal config missing) (snd (createEdges configs hgnn console))
       end) /\
    (forall k, ~ In k (map id configs) ->
       HGNN.getHyperEdge k (fst (createEdges configs hgnn console)) =
         HGNN.getHyperEdge k hgnn) /\
    (forall line, In line console ->
       In line (snd (createEdges configs hgnn console))).
Proof.
  induction configs as [| config rest IH]; intros hgnn console Hnd.
  - simpl. split; [reflexivity |]. split; [intros ? [] |]. split; auto.
  - inversion Hnd as [| ? ? Hfresh Hrest]; subst. cbn [createEdges].
    unfold HGNN.addHyperEdge.
    destruct (HGNN.firstMissing (HGNN.nodes hgnn) (nodes config)) as [missing |] eqn:Em.
    + destruct (IH hgnn
                  (console ++
                   [mkConsoleError ("Failed to create hyper-edge " ++ id config ++ ":")
                      (message (NodeNotFound missing))]) Hrest)
        as [H1 [H2 [H3 H4]]].
      split; [exact H1 |]. split; [| split].
      * intros c [<- | Hc]; [| now apply H2].
        rewrite Em. split; [now apply H3 |].
        apply H4. apply in_or_app. right. now left.
      * intros k Hk. apply H3. intros Hin. apply Hk. now right.
      * intros line Hline. apply H4. apply in_or_app. now left.
    + set (hgnn' := HGNN.mk (HGNN.nodes hgnn)
                      (JSMap.set (id config)
                         (HyperEdge.mk (id config) (nodes config) (type config)
                            (weight config) (metadata config))
                         (HGNN.hyperEdges hgnn))
                      (HGNN.attention hgnn) (HGNN.dimension hgnn)).
      destruct (IH hgnn' console Hrest) as [H1 [H2 [H3 H4]]].
      split; [exact H1 |]. split; [| split].
      * intros c [<- | Hc].
        -- rewrite Em. rewrite (H3 (id config) Hfresh).
           unfold HGNN.getHyperEdge, hgnn'. simpl. apply JSMap_get_set_same.
        -- specialize (H2 c Hc). simpl in H2.
           assert (Hne : id c <> id config)
             by (intros Heq; apply Hfresh; rewrite <- Heq; now apply in_map).
           destruct (HGNN.firstMissing (HGNN.nodes hgnn) (nodes c)); [| exact H2].
           destruct H2 as [H2 H2']. split; [| exact H2'].
           rewrite H2. unfold HGNN.getHyperEdge, hgnn'. simpl.
           now apply JSMap_get_set_other.
      * intros k Hk. rewrite H3 by (intros Hin; apply Hk; now right).
        unfold HGNN.getHyperEdge, hgnn'. simpl. apply JSMap_get_set_other.
        intros Heq. apply Hk. left. now symmetry.
      * exact H4.
Qed.

(** X24. What [createCrossDomainEdges] does to an index.  It adds no node
    and removes none.  Each of the three configured hyperedges is stored, as
    configured, when all its ids are nodes; when one is not, the hyperedge
    under that id stays what it was, the failure is written to the console
    with the first missing id, and the loop goes on to the next
    configuration.  A hyperedge under any other id is left alone. *)
Theorem createCrossDomainEdges_outcome (hgnn : HGNN.t) :
  HGNN.nodes (fst (createCrossDomainEdges hgnn)) = HGNN.nodes hgnn /\
  (forall config, In config edgeConfigs ->
     match HGNN.firstMissing (HGNN.nodes hgnn) (nodes config) with
     | None =>
         HGNN.getHyperEdge (id config) (fst (createCrossDomainEdges hgnn)) =
           Some (configured config)
     | Some missing =>
         HGNN.getHyperEdge (id config) (fst (createCrossDomainEdges hgnn)) =
           HGNN.getHyperEdge (id config) hgnn /\
         In (refusal config missing) (snd (createCrossDomainEdges hgnn))
     end) /\
  (forall k, ~ In k (map id edgeConfigs) ->
     HGNN.getHyperEdge k (fst (createCrossDomainEdges hgnn)) =
       HGNN.getHyperEdge k hgnn).
Proof.
  assert (Hnd : NoDup (map id edgeConfigs)).
  { simpl. repeat constructor; simpl; intuition discriminate. }
  destruct (createEdges_outcome edgeConfigs hgnn [] Hnd) as [H1 [H2 [H3 _]]].
  unfold createCrossDomainEdges. split; [exact H1 |]. split; assumption.
Qed.
End EdgeConfigProperties.

Section WorkflowProperties.
Import Workflows.

Lemma register_fold (systems : list (string * System)) : forall graph,
    CG.nodes (fold_left (fun graph entry =>
                CG.registerSystem (fst entry) (snd entry) graph) systems graph) =
      CG.nodes graph /\
    CG.executionOrder (fold_left (fun graph entry =>
                CG.registerSystem (fst entry) (snd entry) graph) systems graph) =
      CG.executionOrder graph.
Proof.
  induction systems as [| entry rest IH]; simpl; intros graph; [now split |].
  destruct (IH (CG.registerSystem (fst entry) (snd entry) graph)) as [H1 H2].
  now rewrite H1, H2.
Qed.

Lemma register_shape (systems : list (string * System)) :
  register systems = CG.mk [] [] (CG.systems (register systems)).
Proof.
  unfold register. destruct (register_fold systems CG.new) as [H1 H2].
  destruct (fold_left _ systems CG.new) as [ns order registered].
  simpl in *. now subst.
Qed.

(** The system registered under [system] has [method], which returns [v]
    on [args]. *)
Definition answers (registered : JSMap.t System) (system method : string)
    (args : list Value) (v : Value) : Prop :=
  exists instance f,
    JSMap.get system registered = Some instance /\
    instance method = Some f /\ f args = inl v.





(** X26. The workflow [supply_demand_optimization] and its parameters.  The
    text of [materialId] is written after [optimizeInventory:] and the
    operation string is then cut at every colon: [optimizeInventory] of
    [mrp] is called with the pieces of [materialId] as its arguments, then
    [predictChurn] of [crm] with the pieces of [customerId]; a parameter
    that was not given is passed as the text [undefined].  The calls made
    are a prefix of these two, and a report holds what the two returned. *)
Theorem supply_demand_optimization_calls (systems : list (string * System))
    (now : string) (params : JSMap.t string) :
  (exists k, k <= 2 /\
     calls (executeWorkflow systems now "supply_demand_optimization" params) =
       firstn k
         [ mkDispatch "n1" "optimizeInventory"
             (map Str (split ":" (param "materialId" params)));
           mkDispatch "n2" "predictChurn"
             (map Str (split ":" (param "customerId" params))) ]) /\
  (forall r,
     outcome (executeWorkflow systems now "supply_demand_optimization" params) =
       inl r ->
     exists inventory customer,
       r = SupplyDemandOptimization inventory customer /\
       answers (CG.systems (register systems)) "mrp" "optimizeInventory"
         (map Str (split ":" (param "materialId" params))) inventory /\
       answers (CG.systems (register systems)) "crm" "predictChurn"
         (map Str (split ":" (param "customerId" params))) customer) /\
  (JSMap.get "materialId" params = None ->
   map Str (split ":" (param "materialId" params)) = [Str "undefined"]).
Proof.
  split; [| split].
  3:{ intros H. unfold param. rewrite H. reflexivity. }
  all: pose proof (register_shape systems) as Hshape.
  all: set (registered := CG.systems (register systems)) in *; clearbody registered.
  all: unfold executeWorkflow; rewrite Hshape; clear Hshape.
  all: change (String.eqb "supply_demand_optimization" "full_enterprise_analysis")
         with false.
  all: change (String.eqb "supply_demand_optimization" "supply_demand_optimization")
         with true.
  all: cbv iota; unfold executeSupplyDemandOptimization, report.
  all: set (materialId := param "materialId" params).
  all: set (customerId := param "customerId" params).
  all: match goal with |- context [CG.execute ?g] =>
         change (CG.execute g) with
           (CG.executeLoop ["n1"; "n2"]
              (CG.mk (CG.nodes g) ["n1"; "n2"] registered) [] [])
       end.
  all: unfold answers; simpl; unfold CG.runNode, CG.executeOperation; simpl.
  all: rewrite !app_nil_r.
  all: destruct (JSMap.get "mrp" registered) as [mrp |] eqn:S1; simpl;
         [| first [ exists 0; split; [lia | reflexivity]
                  | intros ? H; discriminate H ] ].
  all: destruct (mrp "optimizeInventory") as [f1 |] eqn:M1; simpl;
         [| first [ exists 0; split; [lia | reflexivity]
                  | intros ? H; discriminate H ] ].
  all: destruct (f1 (map Str (split ":" materialId))) as [v1 | msg1] eqn:R1; simpl;
         [| first [ exists 1; split; [lia | reflexivity]
                  | intros ? H; discriminate H ] ].
  all: destruct (JSMap.get "crm" registered) as [crm |] eqn:S2; simpl;
         [| first [ exists 1; split; [lia | reflexivity]
                  | intros ? H; discriminate H ] ].
  all: destruct (crm "predictChurn") as [f2 |] eqn:M2; simpl;
         [| first [ exists 1; split; [lia | reflexivity]
                  | intros ? H; discriminate H ] ].
  all: destruct (f2 (map Str (split ":" customerId))) as [v2 | msg2] eqn:R2; simpl;
         [| first [ exists 2; split; [lia | reflexivity]
                  | intros ? H; discriminate H ] ].
  - exists 2. split; [lia | reflexivity].
  - intros r H. injection H as <-. exists v1, v2. split; [reflexivity |].
    split; [exists mrp, f1; auto | exists crm, f2; auto].
Qed.

Lemma supply_demand_optimization_calls_witness :
  JSMap.get "materialId" [("customerId", "acme:eu")]%string = None /\
  map Str (split ":" (param "materialId" [("customerId", "acme:eu")]%string)) =
    [Str "undefined"] /\
  calls (executeWorkflow [("mrp", TaskGraphScenarios.counting);
                          ("crm", TaskGraphScenarios.counting)]%string
           "2024-01-01T00:00:00.000Z" "supply_demand_optimization"
           [("customerId", "acme:eu")]%string) =
    [ mkDispatch "n1" "optimizeInventory" [Str "undefined"];
      mkDispatch "n2" "predictChurn" [Str "acme"; Str "eu"] ].
Proof.
  split; [reflexivity |]. split; [| reflexivity].
  apply (proj2 (proj2 (supply_demand_optimization_calls
                         [("mrp", TaskGraphScenarios.counting);
                          ("crm", TaskGraphScenarios.counting)]%string
                         "2024-01-01T00:00:00.000Z"
                         [("customerId", "acme:eu")]%string))).
  reflexivity.
Defined.
End WorkflowProperties.

Section ExportProperties.
Import ComputationalGraph.

(** What of an exported node does not say how far it has run. *)
Definition structure (entry : ExecutionPlan.Entry) : ExecutionPlan.Entry :=
  ExecutionPlan.mkEntry (ExecutionPlan.id entry) (ExecutionPlan.system entry)
    (ExecutionPlan.operation entry) (ExecutionPlan.inputs entry)
    (ExecutionPlan.outputs entry) pending.

Definition structures (g : t) : list (string * ExecutionPlan.Entry) :=
  map (fun entry => (fst entry, structure (ExecutionPlan.describe (snd entry))))
    (nodes g).

Lemma structures_updateNode (k : string) (node node' : Node.t) (g : t) :
  getNode k g = Some node ->
  structure (ExecutionPlan.describe node') = structure (ExecutionPlan.describe node) ->
  structures (updateNode k node' g) = structures g.
Proof.
  unfold structures, getNode, updateNode. simpl. intros Hget Hsame.
  induction (nodes g) as [| [k' v'] m IH]; simpl in *; [discriminate |].
  destruct (String.eqb_spec k k') as [-> | Hne]; simpl.
  - injection Hget as ->. now rewrite Hsame.
  - now rewrite IH.
Qed.

Lemma executeLoop_structures : forall ids g rs tr,
    structures (graph (executeLoop ids g rs tr)) = structures g.
Proof.
  induction ids as [| x rest IH]; intros g rs tr; [reflexivity |].
  rewrite executeLoop_cons. destruct (getNode x g) as [node0 |] eqn:E; [| apply IH].
  assert (H1 : structures (updateNode x (Node.setStatus running node0) g) =
               structures g)
    by (now apply (structures_updateNode x node0)).
  destruct (turn x node0 g rs) as [calls [r | e]].
  - rewrite IH. unfold afterSuccess.
    rewrite (structures_updateNode x (Node.setStatus running node0));
      [exact H1 | apply getNode_updateNode_same | reflexivity].
  - simpl. unfold afterFailure.
    rewrite (structures_updateNode x (Node.setStatus running node0));
      [exact H1 | apply getNode_updateNode_same | reflexivity].
Qed.

(** X27. [execute] changes how far nodes have run and nothing else:
    whether it returns or throws, [exportGraph] lists afterwards the same
    nodes in the same order, each with the id, system, operation, inputs and
    outputs it had before. *)
Theorem execute_keeps_structure (g : t) :
  map structure (ExecutionPlan.e_nodes (ExecutionPlan.exportGraph (graph (execute g)))) =
  map structure (ExecutionPlan.e_nodes (ExecutionPlan.exportGraph g)).
Proof.
  assert (H : structures (graph (execute g)) = structures g).
  { destruct (execute_cases g) as [[x ->] | [gb [-> Hnodes]]]; [reflexivity |].
    rewrite executeLoop_structures. unfold structures. now rewrite Hnodes. }
  unfold ExecutionPlan.exportGraph, JSMap.values. simpl.
  rewrite !map_map. apply (f_equal (map snd)) in H.
  unfold structures in H. rewrite !map_map in H. exact H.
Qed.
End ExportProperties.

Section InitProperties.
Import HyperGraphInit.

(** The node [addNode] stores for an array of numbers. *)
Definition entityNode (systemName : string) (vector : list float) : HGNN.Node :=
  HGNN.mkNode systemName "entity"
    (Embedding.mk vector (List.length vector) (Some systemName) []).

(** [systemName] exports [vector] under [rest]: as an array under that key,
    or as an array in an object, under the two keys joined by a colon. *)
Definition exportedBy (registered : list (string * Instance))
    (systemName rest : string) (vector : list float) : Prop :=
  exists entries,
    In (systemName, Present (Some (Entries entries))) registered /\
    (In (rest, Array vector) entries \/
     exists entityId subs subId,
       In (entityId, Object subs) entries /\
       In (subId, SubArray vector) subs /\
       rest = (entityId ++ ":" ++ subId)%string).

Definition fromSystem (registered : list (string * Instance)) (nodeId : string)
    (node : HGNN.Node) : Prop :=
  exists systemName rest vector,
    exportedBy registered systemName rest vector /\
    nodeId = (systemName ++ ":" ++ rest)%string /\
    node = entityNode systemName vector.

Lemma addNode_cases (id systemName : string) (vector : list float) (hgnn : HGNN.t)
    (nodeId : string) (node : HGNN.Node) :
  HGNN.getNode nodeId (HGNN.addNode id systemName "entity" (plain vector) hgnn) =
    Some node ->
  (nodeId = id /\ node = entityNode systemName vector) \/
  HGNN.getNode nodeId hgnn = Some node.
Proof.
  unfold HGNN.getNode, HGNN.addNode. simpl.
  destruct (String.eqb_spec nodeId id) as [-> | Hne].
  - rewrite JSMap_get_set_same. intros [= <-]. left. split; reflexivity.
  - rewrite JSMap_get_set_other by exact Hne. now right.
Qed.

Lemma addNested_nodes (systemName entityId : string) :
  forall subs hgnn,
    HGNN.hyperEdges (addNested systemName entityId subs hgnn) = HGNN.hyperEdges hgnn /\
    forall nodeId node,
      HGNN.getNode nodeId (addNested systemName entityId subs hgnn) = Some node ->
      HGNN.getNode nodeId hgnn = Some node \/
      exists subId vector,
        In (subId, SubArray vector) subs /\
        nodeId = (systemName ++ ":" ++ entityId ++ ":" ++ subId)%string /\
        node = entityNode systemName vector.
Proof.
  induction subs as [| [subId [vector |]] rest IH]; intros hgnn.
  - split; [reflexivity |]. intros nodeId node H. now left.
  - cbn [addNested].
    destruct (IH (HGNN.addNode (systemName ++ ":" ++ entityId ++ ":" ++ subId)%string
                    systemName "entity" (plain vector) hgnn)) as [He Hn].
    split; [now rewrite He |]. intros nodeId node H.
    destruct (Hn nodeId node H) as [H' | [s [v [Hin Hrest]]]].
    + apply addNode_cases in H'. destruct H' as [[-> ->] | H']; [| now left].
      right. exists subId, vector. split; [now left | split; reflexivity].
    + right. exists s, v. split; [now right | exact Hrest].
  - cbn [addNested]. destruct (IH hgnn) as [He Hn]. split; [exact He |].
    intros nodeId node H. destruct (Hn nodeId node H) as [H' | [s [v [Hin Hrest]]]];
      [now left |].
    right. exists s, v. split; [now right | exact Hrest].
Qed.

Lemma addEntities_nodes (systemName : string) :
  forall entries hgnn,
    HGNN.hyperEdges (fst (addEntities systemName entries hgnn)) =
      HGNN.hyperEdges hgnn /\
    forall nodeId node,
      HGNN.getNode nodeId (fst (addEntities systemName entries hgnn)) = Some node ->
      HGNN.getNode nodeId hgnn = Some node \/
      exists rest vector,
        (In (rest, Array vector) entries \/
         exists entityId subs subId,
           In (entityId, Object subs) entries /\
           In (subId, SubArray vector) subs /\
           rest = (entityId ++ ":" ++ subId)%string) /\
        nodeId = (systemName ++ ":" ++ rest)%string /\
        node = entityNode systemName vector.
Proof.
  induction entries as [| [entityId [vector | subs | |]] more IH]; intros hgnn;
    cbn [addEntities fst].
  - split; [reflexivity |]. intros nodeId node H. now left.
  - destruct (IH (HGNN.addNode (systemName ++ ":" ++ entityId)%string systemName
                    "entity" (plain vector) hgnn)) as [He Hn].
    split; [now rewrite He |]. intros nodeId node H.
    destruct (Hn nodeId node H) as [H' | [rest [v [Hin Hrest]]]].
    + apply addNode_cases in H'. destruct H' as [[-> ->] | H']; [| now left].
      right. exists entityId, vector. split; [left; now left | split; reflexivity].
    + right. exists rest, v. split; [| exact Hrest].
      destruct Hin as [Hin | [e [s [i [H1 H2]]]]]; [left; now right |].
      right. exists e, s, i. split; [now right | exact H2].
  - destruct (IH (addNested systemName entityId subs hgnn)) as [He Hn].
    destruct (addNested_nodes systemName entityId subs hgnn) as [He' Hn'].
    split; [now rewrite He |]. intros nodeId node H.
    destruct (Hn nodeId node H) as [H' | [rest [v [Hin Hrest]]]].
    + destruct (Hn' nodeId node H') as [H'' | [subId [v [Hin [-> ->]]]]];
        [now left |].
      right. exists (entityId ++ ":" ++ subId)%string, v. split; [| split; reflexivity].
      right. exists entityId, subs, subId. split; [now left | split; [exact Hin | reflexivity]].
    + right. exists rest, v. split; [| exact Hrest].
      destruct Hin as [Hin | [e [s [i [H1 H2]]]]]; [left; now right |].
      right. exists e, s, i. split; [now right | exact H2].
  - split; [reflexivity |]. intros nodeId node H. now left.
  - destruct (IH hgnn) as [He Hn]. split; [exact He |]. intros nodeId node H.
    destruct (Hn nodeId node H) as [H' | [rest [v [Hin Hrest]]]]; [now left |].
    right. exists rest, v. split; [| exact Hrest].
    destruct Hin as [Hin | [e [s [i [H1 H2]]]]]; [left; now right |].
    right. exists e, s, i. split; [now right | exact H2].
Qed.

Lemma fromSystem_more (entry : string * Instance) (registered : list (string * Instance))
    (nodeId : string) (node : HGNN.Node) :
  fromSystem registered nodeId node -> fromSystem (entry :: registered) nodeId node.
Proof.
  intros [s [rest [v [[entries [Hin Hexp]] Hrest]]]]. exists s, rest, v.
  split; [| exact Hrest]. exists entries. split; [now right | exact Hexp].
Qed.

Lemma addSystems_nodes : forall registered hgnn,
    HGNN.hyperEdges (fst (addSystems registered hgnn)) = HGNN.hyperEdges hgnn /\
    forall nodeId node,
      HGNN.getNode nodeId (fst (addSystems registered hgnn)) = Some node ->
      HGNN.getNode nodeId hgnn = Some node \/ fromSystem registered nodeId node.
Proof.
  induction registered as [| [systemName [| [[| entries] |]]] rest IH]; intros hgnn;
    cbn [addSystems fst].
  - split; [reflexivity |]. intros nodeId node H. now left.
  - split; [reflexivity |]. intros nodeId node H. now left.
  - split; [reflexivity |]. intros nodeId node H. now left.
  - destruct (addEntities_nodes systemName entries hgnn) as [He Hn].
    destruct (addEntities systemName entries hgnn) as [hgnn' [|]]; simpl in He, Hn.
    + destruct (IH hgnn') as [He' Hn']. split; [now rewrite He' |].
      intros nodeId node H. destruct (Hn' nodeId node H) as [H' | H'].
      * destruct (Hn nodeId node H') as [H'' | [r [v [Hin Hrest]]]]; [now left |].
        right. exists systemName, r, v. split; [| exact Hrest].
        exists entries. split; [now left | exact Hin].
      * right. now apply fromSystem_more.
    + simpl. split; [exact He |]. intros nodeId node H.
      destruct (Hn nodeId node H) as [H'' | [r [v [Hin Hrest]]]]; [now left |].
      right. exists systemName, r, v. split; [| exact Hrest].
      exists entries. split; [now left | exact Hin].
  - destruct (IH hgnn) as [He Hn]. split; [exact He |]. intros nodeId node H.
    destruct (Hn nodeId node H) as [H' | H']; [now left |].
    right. now apply fromSystem_more.
Qed.

(** X28. What [initializeHyperGraph] puts into the index, whether it
    returns or a [TypeError] leaves it midway.  It touches no hyperedge.
    Every node found afterwards was there before or comes from a registered
    system: its id is the system name, a colon, and the key of an exported
    array, or the two keys of an array exported inside an object joined by a
    colon; its system is that name, its type [entity], and its embedding is
    the array with its length as dimension. *)
Theorem initializeHyperGraph_nodes (h : t) :
  HGNN.hyperEdges (hgnn (fst (initializeHyperGraph h))) = HGNN.hyperEdges (hgnn h) /\
  systems (fst (initializeHyperGraph h)) = systems h /\
  (snd (initializeHyperGraph h) = Done ->
   initialized (fst (initializeHyperGraph h)) = true) /\
  forall nodeId node,
    HGNN.getNode nodeId (hgnn (fst (initializeHyperGraph h))) = Some node ->
    HGNN.getNode nodeId (hgnn h) = Some node \/
    fromSystem (systems h) nodeId node.
Proof.
  unfold initializeHyperGraph.
  destruct (addSystems_nodes (systems h) (hgnn h)) as [He Hn].
  destruct (addSystems (systems h) (hgnn h)) as [hgnn' [|]]; simpl in *.
  - split; [exact He |]. split; [reflexivity |]. split; [reflexivity | exact Hn].
  - split; [exact He |]. split; [reflexivity |]. split; [discriminate | exact Hn].
Qed.

Lemma occurrences_app (sep : ascii) (a b : string) :
  occurrences sep (a ++ b) = occurrences sep a + occurrences sep b.
Proof.
  induction a as [| c a IH]; simpl; [reflexivity |]. rewrite IH. lia.
Qed.

(** X29. Systems that export their arrays inside objects get none of the
    configured hyperedges.  When no registered system exports an array at
    the top of what [exportEmbeddings] returns, every node id holds two
    colons at least; the ids the three configurations name hold one.  So on
    an index that was empty, a call of [createCrossDomainEdges] that
    returns has stored no hyperedge and has written the three failures,
    each for the first id of its configuration. *)
Theorem nested_exports_create_no_edge (h h' : t)
    (console : list CrossDomainEdges.ConsoleError) :
  (forall systemName entries entityId vector,
     In (systemName, Present (Some (Entries entries))) (systems h) ->
     ~ In (entityId, Array vector) entries) ->
  HGNN.nodes (hgnn h) = [] ->
  HGNN.hyperEdges (hgnn h) = [] ->
  initialized h = false ->
  createCrossDomainEdges h = (h', console, Done) ->
  HGNN.hyperEdges (hgnn h') = [] /\
  map CrossDomainEdges.detail console =
    ["Node not found: scm:s1"; "Node not found: crm:c1";
     "Node not found: mrp:m6"]%string.
Proof.
  intros Hnested Hnodes Hedges Hinit. unfold createCrossDomainEdges.
  rewrite Hinit. cbn [negb].
  unfold initializeHyperGraph.
  destruct (addSystems_nodes (systems h) (hgnn h)) as [He Hn].
  destruct (addSystems (systems h) (hgnn h)) as [hgnn1 [|]]; simpl in He, Hn;
    [| intros H; discriminate H].
  assert (Hmiss : forall nodeId,
             occurrences ":"%char nodeId = 1 ->
             JSMap.has nodeId (HGNN.nodes hgnn1) = false).
  { intros nodeId Hone. unfold JSMap.has.
    destruct (JSMap.get nodeId (HGNN.nodes hgnn1)) as [node |] eqn:Eg; [| reflexivity].
    exfalso. destruct (Hn nodeId node Eg) as [H | H].
    - unfold HGNN.getNode in H. rewrite Hnodes in H. discriminate H.
    - destruct H as [s [rest [v [[entries [Hin Hexp]] [-> _]]]]].
      destruct Hexp as [Harr | [e [subs [i [_ [_ ->]]]]]].
      + exact (Hnested s entries rest v Hin Harr).
      + repeat (rewrite occurrences_app in Hone; simpl in Hone). lia. }
  cbn [hgnn systems initialized].
  unfold CrossDomainEdges.createCrossDomainEdges, CrossDomainEdges.edgeConfigs.
  cbn [CrossDomainEdges.createEdges CrossDomainEdges.id CrossDomainEdges.nodes
       CrossDomainEdges.type CrossDomainEdges.weight CrossDomainEdges.metadata].
  unfold HGNN.addHyperEdge. cbn [HGNN.firstMissing].
  rewrite (Hmiss "scm:s1"%string eq_refl). cbn [negb].
  cbn [CrossDomainEdges.createEdges CrossDomainEdges.id CrossDomainEdges.nodes
       CrossDomainEdges.type CrossDomainEdges.weight CrossDomainEdges.metadata].
  cbn [HGNN.firstMissing].
  rewrite (Hmiss "crm:c1"%string eq_refl). cbn [negb].
  cbn [CrossDomainEdges.createEdges CrossDomainEdges.id CrossDomainEdges.nodes
       CrossDomainEdges.type CrossDomainEdges.weight CrossDomainEdges.metadata].
  cbn [HGNN.firstMissing].
  rewrite (Hmiss "mrp:m6"%string eq_refl). cbn [negb].
  cbn [CrossDomainEdges.createEdges].
  intros H. injection H as <- <-. simpl. split; [now rewrite He | reflexivity].
Qed.

Lemma nested_exports_create_no_edge_witness :
  let nested :=
    [("scm", Present (Some (Entries
        [("actors", Object [("s1", SubArray [1; 0]%float)])])))]%string in
  let h := mk HyperGraphScenarios.empty nested false in
  HGNN.getNode "scm:actors:s1" (hgnn (fst (fst (createCrossDomainEdges h)))) =
    Some (entityNode "scm" [1; 0]%float) /\
  HGNN.hyperEdges (hgnn (fst (fst (createCrossDomainEdges h)))) = [] /\
  map CrossDomainEdges.detail (snd (fst (createCrossDomainEdges h))) =
    ["Node not found: scm:s1"; "Node not found: crm:c1";
     "Node not found: mrp:m6"]%string.
Proof.
  intros nested h. split; [reflexivity |].
  apply (nested_exports_create_no_edge h (fst (fst (createCrossDomainEdges h)))
           (snd (fst (createCrossDomainEdges h)))).
  - intros systemName entries entityId vector H Harr. simpl in H.
    destruct H as [H | []]. injection H as _ <-.
    destruct Harr as [Harr | []]. discriminate Harr.
  - reflexivity.
  - reflexivity.
  - reflexivity.
  - reflexivity.
Defined.
End InitProperties.
